(** * The table-backend protocol engine of smtpd/table_api.c

    A shallow embedding of the message cursor ([table_msg_get],
    [table_msg_end]), the reply builder ([table_msg_add],
    [table_msg_close]), the dispatcher ([table_msg_dispatch]) and the
    session loop ([table_api_dispatch]), followed by the properties the
    protocol description states about them.

    The C file keeps its state in file-level statics; here they are the
    fields of one [state] record that every function threads through a
    small state-and-abort monad.  [fatalx] never returns: it is the
    [Abort] outcome, which keeps the state reached at the abort so that
    one can still say what had (not) happened before it. *)

From Stdlib Require Import String DecimalString.
From Stdlib.Strings Require Import Byte.
From Stdlib Require Import ZArith List Lia Bool Arith.
Import ListNotations.

Set Implicit Arguments.

(* ------------------------------------------------------------------ *)
(** ** Bytes and 4-byte integers *)

Module Wire.

(** Integers travel in the byte order of the machine. *)
Inductive byte_order := LittleEndian | BigEndian.

Definition byte_of_Z (z : Z) : byte :=
  match Byte.of_N (Z.to_N (z mod 256)) with
  | Some b => b
  | None => x00
  end.

Definition Z_of_byte (b : byte) : Z := Z.of_N (Byte.to_N b).

(** The four bytes of a 32-bit object, least significant first.  The
    shift is arithmetic, so a negative [int] gets its two's-complement
    bytes. *)
Definition le_bytes32 (z : Z) : list byte :=
  [ byte_of_Z z; byte_of_Z (Z.shiftr z 8);
    byte_of_Z (Z.shiftr z 16); byte_of_Z (Z.shiftr z 24) ].

Fixpoint le_value (bs : list byte) : Z :=
  match bs with
  | [] => 0
  | b :: rest => Z_of_byte b + 256 * le_value rest
  end.

(** Object representation of a 32-bit integer ([&r, sizeof(r)]). *)
Definition store32 (o : byte_order) (z : Z) : list byte :=
  match o with
  | LittleEndian => le_bytes32 z
  | BigEndian => rev (le_bytes32 z)
  end.

(** Reading the bytes back as a [uint32_t]. *)
Definition load_u32 (o : byte_order) (bs : list byte) : Z :=
  le_value (match o with LittleEndian => bs | BigEndian => rev bs end).

(** The value of an [int] (32 bits, two's complement) for an integer:
    wrap-around into [-2^31, 2^31). *)
Definition to_int (z : Z) : Z := (z + 2 ^ 31) mod 2 ^ 32 - 2 ^ 31.

(** Reading the bytes back as an [int]. *)
Definition load_int (o : byte_order) (bs : list byte) : Z :=
  to_int (load_u32 o bs).

(** The C string that starts at the head of [bs]: the bytes before the
    first NUL.  [None] when no NUL is there, which in C is a read past
    the object. *)
Fixpoint strz (bs : list byte) : option (list byte) :=
  match bs with
  | [] => None
  | b :: rest =>
      if Byte.eqb b x00 then Some []
      else option_map (cons b) (strz rest)
  end.

End Wire.
Import Wire.

(* ------------------------------------------------------------------ *)
(** ** Constants the headers provide *)

(** [imsg.hdr.type].  The values the dispatcher switches on, the reply
    type, and anything else (which takes the [default] branch); for
    anything else, the number itself. *)
Inductive msg_type :=
| PROC_TABLE_OK
| PROC_TABLE_OPEN
| PROC_TABLE_UPDATE
| PROC_TABLE_CLOSE
| PROC_TABLE_CHECK
| PROC_TABLE_LOOKUP
| PROC_TABLE_FETCH
| PROC_OTHER (n : Z).

(** The constants of smtpd-api.h and imsg.h that table_api.c names but
    does not define are parameters of the development; [proc_number]
    is the value smtpd-api.h gives each enumerator. *)
Class platform := {
  order : byte_order;
  PROC_TABLE_API_VERSION : Z;
  IMSG_HEADER_SIZE : nat;
  MAX_IMSGSIZE : nat;
  proc_number : msg_type -> Z
}.

(** The number in [imsg.hdr.type]. *)
Definition type_number {P : platform} (t : msg_type) : Z :=
  match t with
  | PROC_OTHER n => n
  | _ => proc_number t
  end.

(** What [%i] prints for an [int]. *)
Definition format_int (z : Z) : string :=
  NilZero.string_of_int (Z.to_int z).

Definition sizeof_int : nat := 4.
Definition sizeof_uint32 : nat := 4.
(** [char res[4096]] *)
Definition sizeof_res : nat := 4096.

(* ------------------------------------------------------------------ *)
(** ** The imsg transport *)

Module Imsg.

(** One frame on the channel: its type and its payload. *)
Record frame := Frame { f_type : msg_type; f_payload : list byte }.

(** What the read buffer holds: complete frames, or bytes that are no
    valid frame header. *)
Inductive rx_item := RxFrame (f : frame) | RxCorrupt.

(** What one read of the channel can bring. *)
Inductive read_event :=
| ReadError
| ReadClosed
| ReadData (items : list rx_item).

(** What one flush of the write queue can meet: every queued frame goes
    out, or the write fails after [sent] of them have gone out. *)
Inductive write_event :=
| WriteDone
| WriteFails (sent : nat).

(** [struct imsgbuf]: buffered input and queued, unflushed output. *)
Record imsgbuf := ImsgBuf { rx : list rx_item; w : list frame }.

Record imsg_hdr := ImsgHdr { hdr_type : msg_type; hdr_len : nat }.

(** [struct imsg]; [data] is [None] once freed. *)
Record imsg_t := Imsg { hdr : imsg_hdr; data : option (list byte) }.

(** [struct ibuf]: a reply under construction. *)
Record ibuf_t := Ibuf { ib_type : msg_type; ib_data : list byte }.

Section Transport.
Context {P : platform}.

(** Modelled from the spec: [imsg_create] of the imsg library, which
    is not part of table_api.c.  It allocates the pending outgoing
    message; a message that cannot fit the transport's maximum is
    refused. *)
Definition imsg_create (type : msg_type) (datalen : nat) : option ibuf_t :=
  if MAX_IMSGSIZE <? IMSG_HEADER_SIZE + datalen then None
  else Some (Ibuf type []).

(** Modelled from the spec: [imsg_add] of the imsg library.  It
    appends to the pending outgoing message, and fails when the
    message would outgrow the transport's maximum. *)
Definition imsg_add (b : ibuf_t) (bytes : list byte) : option ibuf_t :=
  if MAX_IMSGSIZE <? IMSG_HEADER_SIZE + length (ib_data b) + length bytes
  then None
  else Some (Ibuf (ib_type b) (ib_data b ++ bytes)).

(** Modelled from the spec: [imsg_close] of the imsg library.  It
    hands the finished message to the write queue as one unit. *)
Definition imsg_close (ib : imsgbuf) (b : ibuf_t) : imsgbuf :=
  ImsgBuf (rx ib) (w ib ++ [Frame (ib_type b) (ib_data b)]).

(** Modelled from the spec: [imsg_compose] of the imsg library:
    create, add and close in one call; [None] is its [-1]. *)
Definition imsg_compose (ib : imsgbuf) (type : msg_type)
           (bytes : list byte) : option imsgbuf :=
  match imsg_create type (length bytes) with
  | None => None
  | Some b =>
      match imsg_add b bytes with
      | None => None
      | Some b' => Some (imsg_close ib b')
      end
  end.

(** Modelled from the spec: [imsg_get] of the imsg library.  It
    takes the next complete frame out of the read buffer: [-1] on a
    bad header, [0] when no complete frame is buffered, the frame's
    length otherwise. *)
Definition imsg_get (ib : imsgbuf) : Z * option imsg_t * imsgbuf :=
  match rx ib with
  | [] => (0%Z, None, ib)
  | RxCorrupt :: _ => ((-1)%Z, None, ib)
  | RxFrame f :: rest =>
      let len := IMSG_HEADER_SIZE + length (f_payload f) in
      (Z.of_nat len,
       Some (Imsg (ImsgHdr (f_type f) len) (Some (f_payload f))),
       ImsgBuf rest (w ib))
  end.

End Transport.

(** Modelled from the spec: [imsg_init] of the imsg library: empty
    buffers on the given descriptor. *)
Definition imsg_init : imsgbuf := ImsgBuf [] [].

(** Modelled from the spec: [imsg_free] of the imsg library: the
    payload of the incoming message is released. *)
Definition imsg_free (m : imsg_t) : imsg_t := Imsg (hdr m) None.

End Imsg.
Import Imsg.

(** What imsg.h guarantees of its two constants: a header is not empty,
    and a message of the size [table_msg_add] asks for (1024 bytes of
    payload) is within the maximum. *)
Definition sane_platform (P : platform) : Prop :=
  0 < IMSG_HEADER_SIZE /\ IMSG_HEADER_SIZE + 1024 <= MAX_IMSGSIZE.

(* ------------------------------------------------------------------ *)
(** ** Program state *)

(** A handler invocation, as the backend sees it. *)
Inductive call :=
| CallUpdate
| CallCheck (type : Z) (key : list byte)
| CallLookup (type : Z) (key : list byte)
| CallFetch (type : Z).

(** The history of what the program did to the outside: which message it
    started to dispatch, which handler it called, which transport
    primitive it used.  The C code has no such variable; every event is
    appended by the primitive that performs it. *)
Inductive event :=
| EvGet (n : Z)
| EvRead (n : Z)
| EvDispatch (t : msg_type)
| EvInvoke (c : call)
| EvQueue (f : frame)
| EvFlush.

Section State.
(** The state of the table backend behind the handlers. *)
Variable B : Type.

(** The file-level statics of table_api.c, then the world around them:
    the backend, the two directions of the channel (descriptor 0) with
    what the flushes to come will meet, the warnings logged so far and
    the history. *)
Record state := State {
  handler_update : option (B -> Z * B);
  handler_check : option (Z -> list byte -> B -> Z * B);
  handler_lookup : option (Z -> list byte -> nat -> B -> Z * list byte * B);
  handler_fetch : option (Z -> nat -> B -> Z * list byte * B);
  quit : Z;
  ibuf : imsgbuf;
  imsg : imsg_t;
  rlen : nat;
  rdata : nat;
  buf : option ibuf_t;
  backend : B;
  fd_in : list read_event;
  fd_out : list frame;
  fd_wr : list write_event;
  log : list string;
  trace : list event
}.

(** Assignment to one static: every other field is kept. *)
Definition set_handler_update v (s : state) : state :=
  match s with
  | State _ hc hl hf q ib im rl rd bf be fi fo fw lg tr =>
      State v hc hl hf q ib im rl rd bf be fi fo fw lg tr
  end.
Definition set_handler_check v (s : state) : state :=
  match s with
  | State hu _ hl hf q ib im rl rd bf be fi fo fw lg tr =>
      State hu v hl hf q ib im rl rd bf be fi fo fw lg tr
  end.
Definition set_handler_lookup v (s : state) : state :=
  match s with
  | State hu hc _ hf q ib im rl rd bf be fi fo fw lg tr =>
      State hu hc v hf q ib im rl rd bf be fi fo fw lg tr
  end.
Definition set_handler_fetch v (s : state) : state :=
  match s with
  | State hu hc hl _ q ib im rl rd bf be fi fo fw lg tr =>
      State hu hc hl v q ib im rl rd bf be fi fo fw lg tr
  end.
Definition set_quit v (s : state) : state :=
  match s with
  | State hu hc hl hf _ ib im rl rd bf be fi fo fw lg tr =>
      State hu hc hl hf v ib im rl rd bf be fi fo fw lg tr
  end.
Definition set_ibuf v (s : state) : state :=
  match s with
  | State hu hc hl hf q _ im rl rd bf be fi fo fw lg tr =>
      State hu hc hl hf q v im rl rd bf be fi fo fw lg tr
  end.
Definition set_imsg v (s : state) : state :=
  match s with
  | State hu hc hl hf q ib _ rl rd bf be fi fo fw lg tr =>
      State hu hc hl hf q ib v rl rd bf be fi fo fw lg tr
  end.
Definition set_rlen v (s : state) : state :=
  match s with
  | State hu hc hl hf q ib im _ rd bf be fi fo fw lg tr =>
      State hu hc hl hf q ib im v rd bf be fi fo fw lg tr
  end.
Definition set_rdata v (s : state) : state :=
  match s with
  | State hu hc hl hf q ib im rl _ bf be fi fo fw lg tr =>
      State hu hc hl hf q ib im rl v bf be fi fo fw lg tr
  end.
Definition set_buf v (s : state) : state :=
  match s with
  | State hu hc hl hf q ib im rl rd _ be fi fo fw lg tr =>
      State hu hc hl hf q ib im rl rd v be fi fo fw lg tr
  end.
Definition set_backend v (s : state) : state :=
  match s with
  | State hu hc hl hf q ib im rl rd bf _ fi fo fw lg tr =>
      State hu hc hl hf q ib im rl rd bf v fi fo fw lg tr
  end.
Definition set_fd_in v (s : state) : state :=
  match s with
  | State hu hc hl hf q ib im rl rd bf be _ fo fw lg tr =>
      State hu hc hl hf q ib im rl rd bf be v fo fw lg tr
  end.
Definition set_fd_out v (s : state) : state :=
  match s with
  | State hu hc hl hf q ib im rl rd bf be fi _ fw lg tr =>
      State hu hc hl hf q ib im rl rd bf be fi v fw lg tr
  end.
Definition set_fd_wr v (s : state) : state :=
  match s with
  | State hu hc hl hf q ib im rl rd bf be fi fo _ lg tr =>
      State hu hc hl hf q ib im rl rd bf be fi fo v lg tr
  end.
Definition set_log v (s : state) : state :=
  match s with
  | State hu hc hl hf q ib im rl rd bf be fi fo fw _ tr =>
      State hu hc hl hf q ib im rl rd bf be fi fo fw v tr
  end.
Definition set_trace v (s : state) : state :=
  match s with
  | State hu hc hl hf q ib im rl rd bf be fi fo fw lg _ =>
      State hu hc hl hf q ib im rl rd bf be fi fo fw lg v
  end.

(** *** The monad *)

(** Why a run stopped: [fatalx], or an access C leaves undefined. *)
Inductive fault := Fatalx (msg : string) | Undefined (what : string).

Inductive result (A : Type) :=
| Ok (a : A) (s : state)
| Abort (f : fault) (s : state).
Arguments Abort {A} f s.

Definition M (A : Type) := state -> result A.

Definition ret {A} (a : A) : M A := fun s => Ok a s.

Definition bind {A C} (m : M A) (k : A -> M C) : M C :=
  fun s => match m s with
           | Ok a s' => k a s'
           | Abort f s' => Abort f s'
           end.

Definition gets {A} (f : state -> A) : M A := fun s => Ok (f s) s.
Definition modify (f : state -> state) : M unit := fun s => Ok tt (f s).

(** The state a run ended in, however it ended. *)
Definition final {A} (r : result A) : state :=
  match r with Ok _ s => s | Abort _ s => s end.

Definition emit (e : event) : M unit :=
  modify (fun s => set_trace (trace s ++ [e]) s).

Definition log_warnx (msg : string) : M unit :=
  modify (fun s => set_log (log s ++ [msg]) s).

Definition fatalx {A} (msg : string) : M A := fun s => Abort (Fatalx msg) s.

Definition undefined {A} (what : string) : M A :=
  fun s => Abort (Undefined what) s.

End State.

Arguments Ok {B A} a s.
Arguments Abort {B A} f s.
Arguments ret {B A} a _.
Arguments gets {B A} f _.
Arguments modify {B} f _.
Arguments emit {B} e _.
Arguments log_warnx {B} msg _.
Arguments fatalx {B A} msg _.
Arguments undefined {B A} what _.

Declare Scope tm_scope.
Delimit Scope tm_scope with tm.
Notation "x <- m ;; k" := (bind m (fun x => k))
  (at level 61, m at next level, right associativity) : tm_scope.
Notation "m ;; k" := (bind m (fun _ => k))
  (at level 61, right associativity) : tm_scope.

(* ------------------------------------------------------------------ *)
(** ** The program *)

Section Program.
Context {P : platform} {B : Type}.
Local Open Scope tm_scope.
Local Open Scope string_scope.
Local Open Scope nat_scope.
Local Open Scope list_scope.
Local Abbreviation M := (M B).

(** *** Access to the payload through [rdata]

    [rdata] is a pointer into [imsg.data]; it is kept as the offset
    from the start of that payload. *)

(** The [len] bytes at [rdata], as [memmove(dst, rdata, len)] reads
    them. *)
Definition read_rdata (len : nat) : M (list byte) :=
  fun s =>
    match data (imsg s) with
    | Some d =>
        if rdata s + len <=? length d
        then Ok (firstn len (skipn (rdata s) d)) s
        else undefined "read past the message payload" s
    | None => undefined "read of a released message" s
    end.

(** [rdata[i]] *)
Definition peek_rdata (i : nat) : M byte :=
  fun s =>
    match data (imsg s) with
    | Some d =>
        match nth_error d (rdata s + i) with
        | Some b => Ok b s
        | None => undefined "read past the message payload" s
        end
    | None => undefined "read of a released message" s
    end.

(** [rdata] taken as a [const char *]. *)
Definition string_at_rdata : M (list byte) :=
  fun s =>
    match data (imsg s) with
    | Some d =>
        match strz (skipn (rdata s) d) with
        | Some k => Ok k s
        | None => undefined "unterminated string" s
        end
    | None => undefined "read of a released message" s
    end.

(** *** Framing layer *)

(** [table_msg_get(dst, len)]; [dst] says whether a destination was
    given, and the result is what was stored through it. *)
Definition table_msg_get (dst : bool) (len : nat) : M (list byte) :=
  rl <- gets (@rlen B) ;;
  if rl <? len then
    log_warnx "warn: table-proc: bad msg len" ;;
    fatalx "table-proc: exiting"
  else if len =? 0 then ret []
  else
    copied <- (if dst then read_rdata len else ret []) ;;
    modify (fun s => set_rlen (rlen s - len) s) ;;
    modify (fun s => set_rdata (rdata s + len) s) ;;
    ret copied.

Definition table_msg_end : M unit :=
  rl <- gets (@rlen B) ;;
  if negb (rl =? 0) then
    log_warnx "warn: table-proc: bogus data" ;;
    fatalx "table-proc: exiting"
  else modify (fun s => set_imsg (imsg_free (imsg s)) s).

Definition table_msg_add (bytes : list byte) : M unit :=
  b0 <- gets (@buf B) ;;
  match b0 with
  | None => modify (fun s => set_buf (imsg_create PROC_TABLE_OK 1024) s)
  | Some _ => ret tt
  end ;;
  b1 <- gets (@buf B) ;;
  match b1 with
  | None =>
      log_warnx "warn: table-api: imsg_create failed" ;;
      fatalx "table-api: exiting"
  | Some b =>
      match imsg_add b bytes with
      | None =>
          log_warnx "warn: table-api: imsg_add failed" ;;
          fatalx "table-api: exiting"
      | Some b' => modify (fun s => set_buf (Some b') s)
      end
  end.

Definition table_msg_close : M unit :=
  b0 <- gets (@buf B) ;;
  match b0 with
  | None => undefined "imsg_close of a null buffer"
  | Some b =>
      modify (fun s => set_ibuf (imsg_close (ibuf s) b) s) ;;
      emit (EvQueue (Frame (ib_type b) (ib_data b))) ;;
      modify (fun s => set_buf None s)
  end.

(** [imsg_compose(&ibuf, type, 0, 0, -1, data, datalen)], whose result
    the dispatcher does not look at. *)
Definition do_imsg_compose (type : msg_type) (bytes : list byte) : M unit :=
  ib <- gets (@ibuf B) ;;
  match imsg_compose ib type bytes with
  | Some ib' =>
      modify (fun s => set_ibuf ib' s) ;;
      emit (EvQueue (Frame type bytes))
  | None => ret tt
  end.

(** *** Calling the handlers

    A handler returns an [int]; the lookup and fetch handlers also
    leave [out] at the start of [res], and must not write more than
    the size they were given. *)

Definition call_update (h : B -> Z * B) : M Z :=
  fun s =>
    let '(r, b') := h (backend s) in
    Ok (to_int r)
       (set_trace (trace s ++ [EvInvoke CallUpdate]) (set_backend b' s)).

Definition call_check (h : Z -> list byte -> B -> Z * B)
           (type : Z) (key : list byte) : M Z :=
  fun s =>
    let '(r, b') := h type key (backend s) in
    Ok (to_int r)
       (set_trace (trace s ++ [EvInvoke (CallCheck type key)])
                  (set_backend b' s)).

Definition call_lookup (h : Z -> list byte -> nat -> B -> Z * list byte * B)
           (type : Z) (key : list byte) : M (Z * list byte) :=
  fun s =>
    let '(r, out, b') := h type key sizeof_res (backend s) in
    let s' := set_trace (trace s ++ [EvInvoke (CallLookup type key)])
                        (set_backend b' s) in
    if sizeof_res <? length out
    then undefined "handler wrote past res" s'
    else Ok (to_int r, out) s'.

Definition call_fetch (h : Z -> nat -> B -> Z * list byte * B)
           (type : Z) : M (Z * list byte) :=
  fun s =>
    let '(r, out, b') := h type sizeof_res (backend s) in
    let s' := set_trace (trace s ++ [EvInvoke (CallFetch type)])
                        (set_backend b' s) in
    if sizeof_res <? length out
    then undefined "handler wrote past res" s'
    else Ok (to_int r, out) s'.

(** [table_msg_add(res, strlen(res) + 1)] *)
Definition add_string (res : list byte) : M unit :=
  match strz res with
  | Some v => table_msg_add (v ++ [x00])
  | None => undefined "strlen of an unterminated buffer"
  end.

(** *** Dispatcher *)

Definition table_msg_dispatch : M unit :=
  ty <- gets (fun s : state B => hdr_type (hdr (imsg s))) ;;
  emit (EvDispatch ty) ;;
  match ty with
  | PROC_TABLE_OPEN =>
      v <- table_msg_get true sizeof_uint32 ;;
      table_msg_end ;;
      (if negb (load_u32 order v =? PROC_TABLE_API_VERSION)%Z then
         log_warnx "warn: table-api: bad API version" ;;
         fatalx "table-api: terminating"
       else ret tt) ;;
      do_imsg_compose PROC_TABLE_OK []

  | PROC_TABLE_UPDATE =>
      table_msg_end ;;
      hu <- gets (@handler_update B) ;;
      r <- match hu with
           | Some h => call_update h
           | None => ret 1%Z
           end ;;
      do_imsg_compose PROC_TABLE_OK (store32 order r)

  | PROC_TABLE_CLOSE =>
      modify (fun s => set_quit 1%Z s)

  | PROC_TABLE_CHECK =>
      t <- table_msg_get true sizeof_int ;;
      rl <- gets (@rlen B) ;;
      (if rl =? 0 then
         log_warnx "warn: table-api: no key" ;;
         fatalx "table-api: exiting"
       else ret tt) ;;
      last <- peek_rdata (rl - 1) ;;
      (if negb (Byte.eqb last x00) then
         log_warnx "warn: table-api: key not NUL-terminated" ;;
         fatalx "table-api: exiting"
       else ret tt) ;;
      hc <- gets (@handler_check B) ;;
      r <- match hc with
           | Some h =>
               key <- string_at_rdata ;;
               call_check h (load_int order t) key
           | None => ret (-1)%Z
           end ;;
      rl' <- gets (@rlen B) ;;
      table_msg_get false rl' ;;
      table_msg_end ;;
      table_msg_add (store32 order r) ;;
      table_msg_close

  | PROC_TABLE_LOOKUP =>
      t <- table_msg_get true sizeof_int ;;
      rl <- gets (@rlen B) ;;
      (if rl =? 0 then
         log_warnx "warn: table-api: no key" ;;
         fatalx "table-api: exiting"
       else ret tt) ;;
      last <- peek_rdata (rl - 1) ;;
      (if negb (Byte.eqb last x00) then
         log_warnx "warn: table-api: key not NUL-terminated" ;;
         fatalx "table-api: exiting"
       else ret tt) ;;
      hl <- gets (@handler_lookup B) ;;
      rr <- match hl with
            | Some h =>
                key <- string_at_rdata ;;
                call_lookup h (load_int order t) key
            | None => ret ((-1)%Z, [])
            end ;;
      rl' <- gets (@rlen B) ;;
      table_msg_get false rl' ;;
      table_msg_end ;;
      table_msg_add (store32 order (fst rr)) ;;
      (if (fst rr =? 1)%Z then add_string (snd rr) else ret tt) ;;
      table_msg_close

  | PROC_TABLE_FETCH =>
      t <- table_msg_get true sizeof_int ;;
      table_msg_end ;;
      hf <- gets (@handler_fetch B) ;;
      rr <- match hf with
            | Some h => call_fetch h (load_int order t)
            | None => ret ((-1)%Z, [])
            end ;;
      table_msg_add (store32 order (fst rr)) ;;
      (if (fst rr =? 1)%Z then add_string (snd rr) else ret tt) ;;
      table_msg_close

  | _ =>
      log_warnx ("warn: table-api: bad message "
                 ++ format_int (to_int (type_number ty))) ;;
      fatalx "table-api: exiting"
  end.

(** *** Registration *)

Definition table_api_on_update (cb : option (B -> Z * B)) : M unit :=
  modify (fun s => set_handler_update cb s).
Definition table_api_on_check
           (cb : option (Z -> list byte -> B -> Z * B)) : M unit :=
  modify (fun s => set_handler_check cb s).
Definition table_api_on_lookup
           (cb : option (Z -> list byte -> nat -> B -> Z * list byte * B))
  : M unit :=
  modify (fun s => set_handler_lookup cb s).
Definition table_api_on_fetch
           (cb : option (Z -> nat -> B -> Z * list byte * B)) : M unit :=
  modify (fun s => set_handler_fetch cb s).

(** *** Session loop *)

(** [imsg_get(&ibuf, &imsg)] *)
Definition do_imsg_get : M Z :=
  fun s =>
    let '(n, m, ib) := imsg_get (ibuf s) in
    let s1 := set_ibuf ib s in
    let s2 := match m with Some m' => set_imsg m' s1 | None => s1 end in
    Ok n (set_trace (trace s ++ [EvGet n]) s2).

(** Modelled from the spec: [imsg_read] of the imsg library, on the
    channel the loop owns: an error, a closed pipe, or more bytes in
    the read buffer.  A channel with nothing more to deliver reads as
    closed. *)
Definition do_imsg_read : M Z :=
  fun s =>
    match fd_in s with
    | [] => Ok 0%Z (set_trace (trace s ++ [EvRead 0%Z]) s)
    | ReadError :: rest =>
        Ok (-1)%Z (set_trace (trace s ++ [EvRead (-1)%Z]) (set_fd_in rest s))
    | ReadClosed :: rest =>
        Ok 0%Z (set_trace (trace s ++ [EvRead 0%Z]) (set_fd_in rest s))
    | ReadData items :: rest =>
        Ok 1%Z
           (set_trace (trace s ++ [EvRead 1%Z])
              (set_ibuf (ImsgBuf (rx (ibuf s) ++ items) (w (ibuf s)))
                 (set_fd_in rest s)))
    end.

(** Modelled from the spec: [imsg_flush] of the imsg library: the
    queued replies go out on the channel, in order, until the queue is
    empty or a write fails; what a failed write did not send stays
    queued.  A channel for which nothing else is foreseen takes
    everything.  The result is [0] or [-1]. *)
Definition do_imsg_flush : M Z :=
  fun s =>
    let '(n, sent, rest) :=
      match fd_wr s with
      | WriteFails k :: _ =>
          ((-1)%Z, firstn k (w (ibuf s)), skipn k (w (ibuf s)))
      | _ => (0%Z, w (ibuf s), [])
      end in
    Ok n
       (set_trace (trace s ++ [EvFlush])
          (set_fd_wr (tl (fd_wr s))
             (set_fd_out (fd_out s ++ sent)
                (set_ibuf (ImsgBuf (rx (ibuf s)) rest) s)))).

(** One turn of [while (1)]: [true] to go round again, [false] for
    [break]. *)
Definition loop_body : M bool :=
  n <- do_imsg_get ;;
  if (n =? -1)%Z then
    log_warnx "warn: table-api: imsg_get" ;;
    ret false
  else if negb (n =? 0)%Z then
    modify (fun s => set_rdata 0 s) ;;
    modify (fun s => set_rlen (hdr_len (hdr (imsg s)) - IMSG_HEADER_SIZE) s) ;;
    table_msg_dispatch ;;
    q <- gets (@quit B) ;;
    if negb (q =? 0)%Z then ret false
    else
      do_imsg_flush ;;
      ret true
  else
    n' <- do_imsg_read ;;
    if (n' =? -1)%Z then
      log_warnx "warn: table-api: imsg_read" ;;
      ret false
    else if (n' =? 0)%Z then
      log_warnx "warn: table-api: pipe closed" ;;
      ret false
    else ret true.

Fixpoint session_loop (fuel : nat) (s : state B) : option (result B unit) :=
  match fuel with
  | 0 => None
  | S fuel' =>
      match loop_body s with
      | Ok true s' => session_loop fuel' s'
      | Ok false s' => Some (Ok tt s')
      | Abort f s' => Some (Abort f s')
      end
  end.

(** How many turns the loop can still take: one per buffered item and
    one per read, plus what each read brings. *)
Definition read_weight (ev : read_event) : nat :=
  match ev with
  | ReadData items => S (length items)
  | _ => 1
  end.

Definition pending (s : state B) : nat :=
  length (rx (ibuf s)) + list_sum (map read_weight (fd_in s)).

(** [table_api_dispatch()]: returns 1 when the loop is left. *)
Definition table_api_dispatch (s : state B) : option (result B Z) :=
  let s0 := set_ibuf imsg_init s in
  match session_loop (S (pending s0)) s0 with
  | Some (Ok _ s') => Some (Ok 1%Z s')
  | Some (Abort f s') => Some (Abort f s')
  | None => None
  end.

End Program.

(* ------------------------------------------------------------------ *)
(** ** Vocabulary of the statements *)

Section Vocabulary.
Context {B : Type}.

(** [s] is a state in which the session loop has just handed the
    frame [f] to the dispatcher: [imsg] holds it and the cursor spans
    its payload. *)
Definition dispatching (f : frame) (s : state B) : Prop :=
  hdr_type (hdr (imsg s)) = f_type f /\
  data (imsg s) = Some (f_payload f) /\
  rdata s = 0 /\
  rlen s = length (f_payload f).

(** The cursor is a view into the payload of the current message. *)
Definition cursor_ok (s : state B) : Prop :=
  exists d, data (imsg s) = Some d /\ rdata s + rlen s <= length d.

(** The frames [l] were put on the write queue between [s] and [s']. *)
Definition queued (s s' : state B) (l : list frame) : Prop :=
  w (ibuf s') = w (ibuf s) ++ l.

(** The handler slot that serves messages of type [t] is empty. *)
Definition no_handler (t : msg_type) (s : state B) : Prop :=
  match t with
  | PROC_TABLE_UPDATE => handler_update s = None
  | PROC_TABLE_CHECK => handler_check s = None
  | PROC_TABLE_LOOKUP => handler_lookup s = None
  | PROC_TABLE_FETCH => handler_fetch s = None
  | _ => False
  end.

(** The run ended in [fatalx]. *)
Definition fatal {A} (r : result B A) : Prop :=
  exists msg s', r = Abort (Fatalx msg) s'.

(** The handler slot that serves messages of type [t] is filled. *)
Definition registered (t : msg_type) (s : state B) : Prop :=
  match t with
  | PROC_TABLE_UPDATE => handler_update s <> None
  | PROC_TABLE_CHECK => handler_check s <> None
  | PROC_TABLE_LOOKUP => handler_lookup s <> None
  | PROC_TABLE_FETCH => handler_fetch s <> None
  | _ => False
  end.

(** The call a keyed request of type [t] makes. *)
Definition key_call (t : msg_type) (type : Z) (key : list byte) : call :=
  match t with
  | PROC_TABLE_LOOKUP => CallLookup type key
  | _ => CallCheck type key
  end.

Definition is_queue (e : event) : Prop :=
  match e with EvQueue _ => True | _ => False end.

(** What a dispatch may do once it has started: call a handler, queue
    a reply. *)
Definition is_work (e : event) : Prop :=
  match e with EvInvoke _ | EvQueue _ => True | _ => False end.

(** In a history, a dispatched CLOSE is followed by nothing. *)
Fixpoint close_last (evs : list event) : Prop :=
  match evs with
  | [] => True
  | e :: rest =>
      (e = EvDispatch PROC_TABLE_CLOSE -> rest = []) /\ close_last rest
  end.

(** The history only grows, by events that satisfy [Q]. *)
Definition emits {A} (Q : event -> Prop) (m : M B A) : Prop :=
  forall s, exists evs,
    trace (final (m s)) = trace s ++ evs /\ Forall Q evs.

(** The input side of the channel is left alone. *)
Definition keeps_input {A} (m : M B A) : Prop :=
  forall s,
    rx (ibuf (final (m s))) = rx (ibuf s) /\ fd_in (final (m s)) = fd_in s.

(** The run leaves [proj] of the state as it found it, however it
    ends. *)
Definition keeps {X A} (proj : state B -> X) (m : M B A) : Prop :=
  forall s, proj (final (m s)) = proj s.

(** The four handler slots together. *)
Definition registry (s : state B) :=
  (handler_update s, handler_check s, handler_lookup s, handler_fetch s).

(** The position and extent of the cursor, and the message under it. *)
Definition cursor (s : state B) := (rlen s, rdata s, imsg s).

(** The replies a history shows as queued, in order. *)
Fixpoint replies_of (evs : list event) : list frame :=
  match evs with
  | [] => []
  | EvQueue f :: rest => f :: replies_of rest
  | _ :: rest => replies_of rest
  end.

(** The event is a handler call. *)
Definition is_invoke (e : event) : Prop :=
  match e with EvInvoke _ => True | _ => False end.

(** A stretch of history with one handler call at most and nothing but
    queued replies after it. *)
Definition call_then_replies (evs : list event) : Prop :=
  exists cs qs,
    evs = cs ++ qs /\
    Forall is_invoke cs /\ length cs <= 1 /\ Forall is_queue qs.

(** The run shows nothing in the history. *)
Definition silent {A} (m : M B A) : Prop := emits (fun _ => False) m.

(** The run shows one handler call at most and nothing else. *)
Definition calls_once {A} (m : M B A) : Prop :=
  forall s, exists cs,
    trace (final (m s)) = trace s ++ cs /\
    Forall is_invoke cs /\ length cs <= 1.

(** The run calls a handler once at most and queues replies only
    after that. *)
Definition staged {A} (m : M B A) : Prop :=
  forall s, exists evs,
    trace (final (m s)) = trace s ++ evs /\ call_then_replies evs.

(** What has left for the peer and what waits in the write queue, in
    the order it goes out. *)
Definition outgoing (s : state B) : list frame := fd_out s ++ w (ibuf s).

(** The run extends the history, and what it adds to the outgoing
    frames is exactly the replies that its part of the history shows. *)
Definition accounts {A} (m : M B A) : Prop :=
  forall s, exists evs,
    trace (final (m s)) = trace s ++ evs /\
    outgoing (final (m s)) = outgoing s ++ replies_of evs.

(** No write that is still to come fails. *)
Definition writes_succeed (s : state B) : Prop :=
  Forall (fun e => e = WriteDone) (fd_wr s).

(** A run that stops the process has put nothing on the way out. *)
Definition stops_unanswered {A} (m : M B A) : Prop :=
  forall s flt s', m s = Abort flt s' -> outgoing s' = outgoing s.

(** The requests whose payload has one fixed size, and that size. *)
Definition payload_size (t : msg_type) : option nat :=
  match t with
  | PROC_TABLE_OPEN => Some sizeof_uint32
  | PROC_TABLE_UPDATE => Some 0
  | PROC_TABLE_FETCH => Some sizeof_int
  | _ => None
  end.

(** The warnings with which the loop is left for a reason other than
    CLOSE. *)
Definition loop_exit_warnings : list string :=
  ["warn: table-api: imsg_get"%string;
   "warn: table-api: imsg_read"%string;
   "warn: table-api: pipe closed"%string].

End Vocabulary.

(* ------------------------------------------------------------------ *)
(** ** A concrete platform and concrete runs *)

Module Example.

(** A little-endian machine with the constants of imsg.h, API
    version 1, and the message types numbered as an enumeration that
    starts with OK and a failure reply would number them. *)
Definition machine : platform :=
  {| order := LittleEndian;
     PROC_TABLE_API_VERSION := 1;
     IMSG_HEADER_SIZE := 16;
     MAX_IMSGSIZE := 16384;
     proc_number := fun t =>
       match t with
       | PROC_TABLE_OK => 0
       | PROC_TABLE_OPEN => 2
       | PROC_TABLE_CLOSE => 3
       | PROC_TABLE_UPDATE => 4
       | PROC_TABLE_CHECK => 5
       | PROC_TABLE_LOOKUP => 6
       | PROC_TABLE_FETCH => 7
       | PROC_OTHER n => n
       end%Z |}.

(** The process before the loop starts, with no handler registered. *)
Definition start : state unit :=
  State None None None None 0%Z imsg_init
        (Imsg (ImsgHdr PROC_TABLE_OK 0) None) 0 0 None tt [] [] [] [] [].

(** The state in which the loop dispatches [f]. *)
Definition receive {B} (f : frame) (s : state B) : state B :=
  set_rlen (length (f_payload f))
    (set_rdata 0
       (set_imsg (Imsg (ImsgHdr (f_type f) (16 + length (f_payload f)))
                       (Some (f_payload f))) s)).

Definition bytes_of (t : string) : list byte := list_byte_of_string t.

(** The value of the round trip. *)
Definition addr : list byte := bytes_of "10.0.0.1".

(** A backend that knows one key. *)
Definition check_one (type : Z) (key : list byte) (b : unit) : Z * unit :=
  (if list_eq_dec Byte.byte_eq_dec key (bytes_of "user@example.com")
   then 1%Z else 0%Z, b).

Definition lookup_one (type : Z) (key : list byte) (size : nat) (b : unit)
  : Z * list byte * unit :=
  if list_eq_dec Byte.byte_eq_dec key (bytes_of "gw")
  then (1%Z, addr ++ [x00], b)
  else (0%Z, [], b).

Definition fetch_one (type : Z) (size : nat) (b : unit)
  : Z * list byte * unit :=
  (1%Z, addr ++ [x00], b).

Definition backed : state unit :=
  set_handler_fetch (Some fetch_one)
    (set_handler_lookup (Some lookup_one)
       (set_handler_check (Some check_one) start)).

(** The four bytes of a little-endian 32-bit [n]. *)
Definition le32 (n : Z) : list byte := store32 LittleEndian n.

(** A session of two reads: OPEN and a LOOKUP, then CLOSE and an UPDATE
    behind it. *)
Definition two_reads : list read_event :=
  [ReadData [RxFrame (Frame PROC_TABLE_OPEN (le32 1));
             RxFrame (Frame PROC_TABLE_LOOKUP
                        (le32 0 ++ bytes_of "gw" ++ [x00]))];
   ReadData [RxFrame (Frame PROC_TABLE_CLOSE []);
             RxFrame (Frame PROC_TABLE_UPDATE [])]].

(** A session whose peer hangs up after one request. *)
Definition hang_up : list read_event :=
  [ReadData [RxFrame (Frame PROC_TABLE_FETCH (le32 0))]; ReadClosed].

(** What [table_api_dispatch] ends in on [s]. *)
Definition outcome (s : state unit) : result unit Z :=
  match @table_api_dispatch machine unit s with
  | Some r => r
  | None => Ok 0%Z s
  end.

(** An update handler that always succeeds. *)
Definition update_ok (b : unit) : Z * unit := (1%Z, b).

End Example.

(* ------------------------------------------------------------------ *)
(** ** Facts about the wire encoding *)

Module WireFacts.
Local Open Scope Z_scope.

Lemma Z_of_byte_of_Z z : Z_of_byte (byte_of_Z z) = z mod 256.
Proof.
  unfold Z_of_byte, byte_of_Z.
  assert (Hr : 0 <= z mod 256 < 256) by (apply Z.mod_pos_bound; lia).
  destruct (Byte.of_N (Z.to_N (z mod 256))) as [b|] eqn:E.
  - apply Byte.to_of_N in E. rewrite E. rewrite Z2N.id; lia.
  - apply Byte.of_N_None_iff in E. lia.
Qed.

Lemma le_value_le_bytes32 z : le_value (le_bytes32 z) = z mod 2 ^ 32.
Proof.
  unfold le_bytes32, le_value. rewrite !Z_of_byte_of_Z.
  rewrite !Z.shiftr_div_pow2 by lia.
  change (2 ^ 8) with 256. change (2 ^ 16) with (256 * 256).
  change (2 ^ 24) with (256 * 256 * 256).
  rewrite <- !Z.div_div by lia.
  pose proof (Z.div_mod z 256 ltac:(lia)) as E0.
  pose proof (Z.div_mod (z / 256) 256 ltac:(lia)) as E1.
  pose proof (Z.div_mod (z / 256 / 256) 256 ltac:(lia)) as E2.
  pose proof (Z.div_mod (z / 256 / 256 / 256) 256 ltac:(lia)) as E3.
  pose proof (Z.mod_pos_bound z 256 ltac:(lia)).
  pose proof (Z.mod_pos_bound (z / 256) 256 ltac:(lia)).
  pose proof (Z.mod_pos_bound (z / 256 / 256) 256 ltac:(lia)).
  pose proof (Z.mod_pos_bound (z / 256 / 256 / 256) 256 ltac:(lia)).
  apply Z.mod_unique with (q := z / 256 / 256 / 256 / 256); lia.
Qed.

Lemma load_store_u32 o z : load_u32 o (store32 o z) = z mod 2 ^ 32.
Proof.
  destruct o; unfold load_u32, store32.
  - apply le_value_le_bytes32.
  - rewrite rev_involutive. apply le_value_le_bytes32.
Qed.

Lemma to_int_range z : - 2 ^ 31 <= to_int z < 2 ^ 31.
Proof.
  unfold to_int.
  pose proof (Z.mod_pos_bound (z + 2 ^ 31) (2 ^ 32) ltac:(lia)). lia.
Qed.

Lemma to_int_small z : - 2 ^ 31 <= z < 2 ^ 31 -> to_int z = z.
Proof. intros H. unfold to_int. rewrite Z.mod_small; lia. Qed.

Lemma to_int_mod z : to_int (z mod 2 ^ 32) = to_int z.
Proof. unfold to_int. rewrite Z.add_mod_idemp_l by lia. reflexivity. Qed.

(** What was stored as an [int] is read back as that [int]. *)
Lemma load_store_int o z : load_int o (store32 o z) = to_int z.
Proof. unfold load_int. rewrite load_store_u32. apply to_int_mod. Qed.

Lemma length_store32 o z : length (store32 o z) = 4%nat.
Proof. destruct o; reflexivity. Qed.

Lemma strz_terminated k tail : ~ In x00 k -> strz (k ++ x00 :: tail) = Some k.
Proof.
  induction k as [|b k IH]; intros Hk; simpl.
  - reflexivity.
  - destruct (Byte.eqb b x00) eqn:E.
    + apply Byte.byte_dec_bl in E. subst b. exfalso. apply Hk. now left.
    + rewrite IH; [reflexivity|]. intros H. apply Hk. now right.
Qed.

Lemma strz_sound bs k :
  strz bs = Some k -> ~ In x00 k /\ exists tail, bs = k ++ x00 :: tail.
Proof.
  revert k. induction bs as [|b bs IH]; intros k; simpl; [discriminate|].
  destruct (Byte.eqb b x00) eqn:E.
  - intros [= <-]. apply Byte.byte_dec_bl in E. subst b.
    split; [intros []|]. now exists bs.
  - destruct (strz bs) as [k'|]; simpl; [|discriminate].
    intros [= <-]. destruct (IH k' eq_refl) as (Hk & tail & ->).
    split.
    + intros [->|H]; [|now apply Hk].
      cbv in E. discriminate.
    + now exists tail.
Qed.

(** A buffer that ends in NUL holds a string. *)
Lemma strz_ends_nul body : exists k, strz (body ++ [x00]) = Some k.
Proof.
  induction body as [|b body [k IH]]; simpl.
  - now exists [].
  - destruct (Byte.eqb b x00); [now exists []|].
    rewrite IH. simpl. now eexists.
Qed.

End WireFacts.
Import WireFacts.

(* ------------------------------------------------------------------ *)
(** ** The framing layer *)

Section FramingFacts.
Context {P : platform} {B : Type}.
Local Open Scope string_scope.
Local Open Scope nat_scope.
Local Open Scope list_scope.
Implicit Types s : state B.

Lemma bind_run {A C} (m : M B A) (k : A -> M B C) s :
  bind m k s =
  match m s with Ok a s' => k a s' | Abort f s' => Abort f s' end.
Proof. reflexivity. Qed.

Lemma table_msg_get_fatal dst len s :
  rlen s < len ->
  table_msg_get dst len s =
  Abort (Fatalx "table-proc: exiting")
        (set_log (log s ++ ["warn: table-proc: bad msg len"]) s).
Proof.
  intros H. unfold table_msg_get, bind, gets.
  apply Nat.ltb_lt in H. rewrite H. reflexivity.
Qed.

Lemma table_msg_get_zero dst s : table_msg_get dst 0 s = Ok [] s.
Proof.
  unfold table_msg_get, bind, gets.
  replace (rlen s <? 0) with false by (symmetry; apply Nat.ltb_ge; lia).
  reflexivity.
Qed.

Lemma table_msg_get_skip len s :
  0 < len -> len <= rlen s ->
  table_msg_get false len s =
  Ok [] (set_rdata (rdata s + len) (set_rlen (rlen s - len) s)).
Proof.
  intros H0 H. unfold table_msg_get, bind, gets.
  replace (rlen s <? len) with false by (symmetry; apply Nat.ltb_ge; lia).
  replace (len =? 0) with false by (symmetry; apply Nat.eqb_neq; lia).
  now destruct s.
Qed.

Lemma table_msg_get_copy len s d :
  0 < len -> len <= rlen s ->
  data (imsg s) = Some d -> rdata s + len <= length d ->
  table_msg_get true len s =
  Ok (firstn len (skipn (rdata s) d))
     (set_rdata (rdata s + len) (set_rlen (rlen s - len) s)).
Proof.
  intros H0 H Hd Hb. unfold table_msg_get, bind, gets.
  replace (rlen s <? len) with false by (symmetry; apply Nat.ltb_ge; lia).
  replace (len =? 0) with false by (symmetry; apply Nat.eqb_neq; lia).
  unfold read_rdata. rewrite Hd.
  replace (rdata s + len <=? length d) with true
    by (symmetry; apply Nat.leb_le; lia).
  now destruct s.
Qed.

(** [table_msg_get] stops in [fatalx] only on the length test. *)
Lemma table_msg_get_fatal_inv dst len s :
  fatal (table_msg_get dst len s) -> rlen s < len.
Proof.
  intros (msg & s' & E). unfold table_msg_get, bind, gets in E.
  destruct (rlen s <? len) eqn:L; [now apply Nat.ltb_lt in L|].
  destruct (len =? 0); [discriminate|].
  destruct dst; [|discriminate].
  unfold read_rdata in E.
  destruct (data (imsg s)); [|discriminate].
  destruct (rdata s + len <=? length l); discriminate.
Qed.

Lemma table_msg_end_ok s :
  rlen s = 0 ->
  table_msg_end s = Ok tt (set_imsg (imsg_free (imsg s)) s).
Proof.
  intros H. unfold table_msg_end, bind, gets. rewrite H. reflexivity.
Qed.

Lemma table_msg_end_fatal s :
  rlen s <> 0 ->
  table_msg_end s =
  Abort (Fatalx "table-proc: exiting")
        (set_log (log s ++ ["warn: table-proc: bogus data"]) s).
Proof.
  intros H. unfold table_msg_end, bind, gets.
  apply Nat.eqb_neq in H. rewrite H. reflexivity.
Qed.

(** C5.  [table_msg_get(dst, n)] ends in [fatalx] exactly when [n]
    exceeds the remaining length [rlen].  When [n <= rlen], on a cursor
    that is a view into the message, it returns: the remaining length
    becomes [rlen - n], the position advances by [n], nothing else
    changes, and with a destination the [n] bytes at the old position
    are what was copied. *)
Theorem table_msg_get_spec (dst : bool) (n : nat) s :
  (fatal (table_msg_get dst n s) <-> rlen s < n) /\
  (n <= rlen s -> cursor_ok s ->
   exists bs d,
     table_msg_get dst n s =
     Ok bs (set_rdata (rdata s + n) (set_rlen (rlen s - n) s)) /\
     data (imsg s) = Some d /\
     (dst = true -> bs = firstn n (skipn (rdata s) d) /\ length bs = n) /\
     (dst = false -> bs = [])).
Proof.
  split.
  - split; [apply table_msg_get_fatal_inv|].
    intros H. rewrite table_msg_get_fatal by exact H. red. eauto.
  - intros Hn (d & Hd & Hb).
    destruct (Nat.eq_dec n 0) as [->|Hpos].
    + exists [], d. rewrite table_msg_get_zero.
      rewrite Nat.add_0_r, Nat.sub_0_r.
      repeat split; auto. now destruct s.
    + destruct dst.
      * exists (firstn n (skipn (rdata s) d)), d.
        rewrite (@table_msg_get_copy n s d) by first [assumption | lia].
        repeat split; auto; try discriminate.
        rewrite length_firstn, length_skipn. lia.
      * exists [], d. rewrite table_msg_get_skip by lia.
        repeat split; auto; discriminate.
Qed.

(** C10.  [table_msg_get(dst, 0)] returns at once and changes nothing,
    whatever the remaining length and whether or not a destination is
    given. *)
Theorem table_msg_get_zero_noop (dst : bool) s :
  table_msg_get dst 0 s = Ok [] s.
Proof. apply table_msg_get_zero. Qed.

(** C6.  [table_msg_end()] ends in [fatalx] exactly when the remaining
    length is not zero.  When it is zero the incoming message is
    released and nothing else changes; the cursor is left with no byte
    to give, so that any later request for one is refused. *)
Theorem table_msg_end_spec s :
  (fatal (table_msg_end s) <-> rlen s <> 0) /\
  (rlen s = 0 ->
   exists s',
     table_msg_end s = Ok tt s' /\
     s' = set_imsg (imsg_free (imsg s)) s /\
     data (imsg s') = None /\
     rlen s' = 0 /\
     forall dst n, 0 < n -> fatal (table_msg_get dst n s')).
Proof.
  split.
  - split.
    + intros (msg & s' & E) H0. rewrite table_msg_end_ok in E by exact H0.
      discriminate.
    + intros H. rewrite table_msg_end_fatal by exact H. red. eauto.
  - intros H0. eexists. split; [apply table_msg_end_ok, H0|].
    repeat split; auto.
    + now destruct s.
    + now destruct s.
    + intros dst n Hn. rewrite table_msg_get_fatal; [red; eauto|].
      destruct s; simpl in *. lia.
Qed.

End FramingFacts.

(* ------------------------------------------------------------------ *)
(** ** How a run extends the history and what it leaves alone *)

Section Histories.
Context {P : platform} {B : Type}.
Local Open Scope nat_scope.
Local Open Scope list_scope.
Implicit Types s : state B.

Variable Q : event -> Prop.

Lemma emits_bind {A C} (m : M B A) (k : A -> M B C) :
  emits Q m -> (forall a, emits Q (k a)) -> emits Q (bind m k).
Proof.
  intros Hm Hk s. unfold bind.
  destruct (Hm s) as (e1 & E1 & F1).
  destruct (m s) as [a s1|f s1]; simpl in E1.
  - destruct (Hk a s1) as (e2 & E2 & F2).
    exists (e1 ++ e2). rewrite E2, E1, app_assoc.
    split; [reflexivity|]. apply Forall_app. now split.
  - exists e1. now split.
Qed.

(** A step that does not touch the history. *)
Lemma emits_silent {A} (m : M B A) :
  (forall s, trace (final (m s)) = trace s) -> emits Q m.
Proof.
  intros H s. exists []. rewrite app_nil_r. split; [apply H|constructor].
Qed.

Lemma emits_ret {A} (a : A) : emits Q (ret (B := B) a).
Proof. now apply emits_silent. Qed.

Lemma emits_gets {A} (f : state B -> A) : emits Q (gets f).
Proof. now apply emits_silent. Qed.

Lemma emits_fatalx {A} msg : emits Q (fatalx (B := B) (A := A) msg).
Proof. now apply emits_silent. Qed.

Lemma emits_undefined {A} msg : emits Q (undefined (B := B) (A := A) msg).
Proof. now apply emits_silent. Qed.

Lemma emits_log_warnx msg : emits Q (log_warnx (B := B) msg).
Proof. apply emits_silent. now intros []. Qed.

Lemma emits_modify (f : state B -> state B) :
  (forall s, trace (f s) = trace s) -> emits Q (modify f).
Proof. intros H. apply emits_silent. exact H. Qed.

Lemma emits_emit e : Q e -> emits Q (emit (B := B) e).
Proof.
  intros H s. exists [e]. split; [now destruct s|]. now constructor.
Qed.

Lemma emits_read_rdata len : emits Q (read_rdata (B := B) len).
Proof.
  apply emits_silent. intros s. unfold read_rdata, undefined.
  destruct (data (imsg s)); [|reflexivity].
  now destruct (_ <=? _).
Qed.

Lemma emits_peek_rdata i : emits Q (peek_rdata (B := B) i).
Proof.
  apply emits_silent. intros s. unfold peek_rdata, undefined.
  destruct (data (imsg s)); [|reflexivity].
  now destruct (nth_error _ _).
Qed.

Lemma emits_string_at_rdata : emits Q (string_at_rdata (B := B)).
Proof.
  apply emits_silent. intros s. unfold string_at_rdata, undefined.
  destruct (data (imsg s)); [|reflexivity].
  now destruct (strz _).
Qed.

(** Walk down a monadic term, one primitive at a time. *)
Ltac walk :=
  repeat first
    [ apply emits_bind; [|intros]
    | apply emits_ret | apply emits_gets | apply emits_fatalx
    | apply emits_undefined | apply emits_log_warnx
    | apply emits_modify; intros []; reflexivity
    | apply emits_read_rdata | apply emits_peek_rdata
    | apply emits_string_at_rdata
    | match goal with
      | |- emits _ (if ?c then _ else _) => destruct c
      | |- emits _ (match ?x with _ => _ end) => destruct x
      end ].

Lemma emits_table_msg_get dst len : emits Q (table_msg_get (B := B) dst len).
Proof. unfold table_msg_get. walk. Qed.

Lemma emits_table_msg_end : emits Q (table_msg_end (B := B)).
Proof. unfold table_msg_end. walk. Qed.

Lemma emits_table_msg_add bytes : emits Q (table_msg_add (B := B) bytes).
Proof. unfold table_msg_add. walk. Qed.

Hypothesis Q_queue : forall f, Q (EvQueue f).
Hypothesis Q_invoke : forall c, Q (EvInvoke c).

Lemma emits_table_msg_close : emits Q (table_msg_close (B := B)).
Proof. unfold table_msg_close. walk. apply emits_emit, Q_queue. Qed.

Lemma emits_add_string res : emits Q (add_string (B := B) res).
Proof.
  unfold add_string. destruct (strz res).
  - apply emits_table_msg_add.
  - apply emits_undefined.
Qed.

Lemma emits_do_imsg_compose type bytes :
  emits Q (do_imsg_compose (B := B) type bytes).
Proof. unfold do_imsg_compose. walk. apply emits_emit, Q_queue. Qed.

Lemma emits_call_update h : emits Q (call_update (B := B) h).
Proof.
  intros s. unfold call_update. destruct (h (backend s)) as [r b'].
  eexists. split; [now destruct s|]. constructor; [apply Q_invoke|constructor].
Qed.

Lemma emits_call_check h type key :
  emits Q (call_check (B := B) h type key).
Proof.
  intros s. unfold call_check. destruct (h type key (backend s)) as [r b'].
  eexists. split; [now destruct s|]. constructor; [apply Q_invoke|constructor].
Qed.

Lemma emits_call_lookup h type key :
  emits Q (call_lookup (B := B) h type key).
Proof.
  intros s. unfold call_lookup.
  destruct (h type key sizeof_res (backend s)) as [[r out] b'].
  exists [EvInvoke (CallLookup type key)].
  split; [|constructor; [apply Q_invoke|constructor]].
  destruct s. now destruct (sizeof_res <? length out).
Qed.

Lemma emits_call_fetch h type : emits Q (call_fetch (B := B) h type).
Proof.
  intros s. unfold call_fetch.
  destruct (h type sizeof_res (backend s)) as [[r out] b'].
  exists [EvInvoke (CallFetch type)].
  split; [|constructor; [apply Q_invoke|constructor]].
  destruct s. now destruct (sizeof_res <? length out).
Qed.

Ltac walk_all :=
  repeat first
    [ apply emits_table_msg_get | apply emits_table_msg_end
    | apply emits_table_msg_add | apply emits_table_msg_close
    | apply emits_add_string | apply emits_do_imsg_compose
    | apply emits_call_update | apply emits_call_check
    | apply emits_call_lookup | apply emits_call_fetch
    | apply emits_peek_rdata | apply emits_string_at_rdata
    | apply emits_ret | apply emits_gets | apply emits_fatalx
    | apply emits_undefined | apply emits_log_warnx
    | apply emits_modify; intros []; reflexivity
    | apply emits_bind; [|intros]
    | match goal with
      | |- emits _ (if ?c then _ else _) => destruct c
      | |- emits _ (match ?x with _ => _ end) => destruct x
      end ].

(** The end of a CHECK: the result and the hand-over. *)
Lemma emits_answer bytes :
  emits Q (bind (table_msg_add (B := B) bytes) (fun _ => table_msg_close)).
Proof. walk_all. Qed.

(** The end of a LOOKUP or FETCH: the result, the value when there is
    one, and the hand-over. *)
Lemma emits_reply r res :
  emits Q (bind (table_msg_add (B := B) (store32 order r))
             (fun _ => bind (if (r =? 1)%Z then add_string res else ret tt)
                         (fun _ => table_msg_close))).
Proof. walk_all. Qed.

(** Once it has announced the message, the dispatcher only calls
    handlers and queues replies. *)
Lemma dispatch_history s :
  exists evs,
    trace (final (table_msg_dispatch s)) =
    trace s ++ EvDispatch (hdr_type (hdr (imsg s))) :: evs /\
    Forall Q evs.
Proof.
  unfold table_msg_dispatch.
  rewrite bind_run. unfold gets at 1. rewrite bind_run.
  unfold emit at 1, modify at 1.
  match goal with
  | |- context [final (?m ?s1)] =>
      assert (H : emits Q m) by (destruct (hdr_type (hdr (imsg s))); walk_all);
      destruct (H s1) as (evs & E & F)
  end.
  exists evs. split; [|exact F].
  rewrite E. destruct s. simpl. now rewrite <- app_assoc.
Qed.

End Histories.

Section Inputs.
Context {P : platform} {B : Type}.
Local Open Scope nat_scope.
Local Open Scope list_scope.
Implicit Types s : state B.

Lemma keeps_bind {A C} (m : M B A) (k : A -> M B C) :
  keeps_input m -> (forall a, keeps_input (k a)) -> keeps_input (bind m k).
Proof.
  intros Hm Hk s. unfold bind.
  destruct (Hm s) as (E1 & F1).
  destruct (m s) as [a s1|f s1]; simpl in E1, F1.
  - destruct (Hk a s1) as (E2 & F2). rewrite E2, F2. now split.
  - now split.
Qed.

Lemma keeps_pure {A} (m : M B A) :
  (forall s, rx (ibuf (final (m s))) = rx (ibuf s)) ->
  (forall s, fd_in (final (m s)) = fd_in s) ->
  keeps_input m.
Proof. intros H1 H2 s. now split. Qed.

Ltac stroll :=
  repeat first
    [ apply keeps_bind; [|intros]
    | apply keeps_pure; intros []; reflexivity
    | match goal with
      | |- keeps_input (if ?c then _ else _) => destruct c
      | |- keeps_input (match ?x with _ => _ end) => destruct x
      end ].

Lemma keeps_read_rdata len : keeps_input (read_rdata (B := B) len).
Proof.
  apply keeps_pure; intros s; unfold read_rdata, undefined;
    (destruct (data (imsg s)); [|reflexivity]); now destruct (_ <=? _).
Qed.

Lemma keeps_peek_rdata i : keeps_input (peek_rdata (B := B) i).
Proof.
  apply keeps_pure; intros s; unfold peek_rdata, undefined;
    (destruct (data (imsg s)); [|reflexivity]); now destruct (nth_error _ _).
Qed.

Lemma keeps_string_at_rdata : keeps_input (string_at_rdata (B := B)).
Proof.
  apply keeps_pure; intros s; unfold string_at_rdata, undefined;
    (destruct (data (imsg s)); [|reflexivity]); now destruct (strz _).
Qed.

Lemma keeps_table_msg_get dst len :
  keeps_input (table_msg_get (B := B) dst len).
Proof. unfold table_msg_get. stroll. apply keeps_read_rdata. Qed.

Lemma keeps_table_msg_end : keeps_input (table_msg_end (B := B)).
Proof. unfold table_msg_end. stroll. Qed.

Lemma keeps_table_msg_add bytes : keeps_input (table_msg_add (B := B) bytes).
Proof. unfold table_msg_add. stroll. Qed.

Lemma keeps_table_msg_close : keeps_input (table_msg_close (B := B)).
Proof. unfold table_msg_close. stroll. Qed.

Lemma keeps_add_string res : keeps_input (add_string (B := B) res).
Proof.
  unfold add_string. destruct (strz res);
    [apply keeps_table_msg_add | now apply keeps_pure].
Qed.

Lemma imsg_compose_rx ib type bytes ib' :
  imsg_compose ib type bytes = Some ib' -> rx ib' = rx ib.
Proof.
  unfold imsg_compose. destruct (imsg_create _ _); [|discriminate].
  destruct (imsg_add _ _); [|discriminate]. now intros [= <-].
Qed.

Lemma keeps_do_imsg_compose type bytes :
  keeps_input (do_imsg_compose (B := B) type bytes).
Proof.
  intros s. unfold do_imsg_compose, bind, gets, modify, emit, ret.
  destruct (imsg_compose _ _ _) eqn:E; simpl; [|now split].
  apply imsg_compose_rx in E. now destruct s.
Qed.

Lemma keeps_call_update h : keeps_input (call_update (B := B) h).
Proof.
  intros s. unfold call_update. destruct (h (backend s)). now destruct s.
Qed.

Lemma keeps_call_check h type key :
  keeps_input (call_check (B := B) h type key).
Proof.
  intros s. unfold call_check. destruct (h type key (backend s)).
  now destruct s.
Qed.

Lemma keeps_call_lookup h type key :
  keeps_input (call_lookup (B := B) h type key).
Proof.
  intros s. unfold call_lookup.
  destruct (h type key sizeof_res (backend s)) as [[r out] b'].
  destruct s. now destruct (sizeof_res <? length out).
Qed.

Lemma keeps_call_fetch h type : keeps_input (call_fetch (B := B) h type).
Proof.
  intros s. unfold call_fetch.
  destruct (h type sizeof_res (backend s)) as [[r out] b'].
  destruct s. now destruct (sizeof_res <? length out).
Qed.

(** The dispatcher reads nothing from the channel and takes nothing
    out of the read buffer. *)
Lemma keeps_table_msg_dispatch : keeps_input (table_msg_dispatch (B := B)).
Proof.
  unfold table_msg_dispatch.
  apply keeps_bind; [now apply keeps_pure|]. intros ty.
  apply keeps_bind; [apply keeps_pure; intros []; reflexivity|]. intros _.
  destruct ty;
    repeat first
      [ apply keeps_peek_rdata | apply keeps_string_at_rdata
      | apply keeps_table_msg_get | apply keeps_table_msg_end
      | apply keeps_table_msg_add | apply keeps_table_msg_close
      | apply keeps_add_string | apply keeps_do_imsg_compose
      | apply keeps_call_update | apply keeps_call_check
      | apply keeps_call_lookup | apply keeps_call_fetch
      | apply keeps_pure; intros []; reflexivity
      | apply keeps_bind; [|intros]
      | match goal with
        | |- keeps_input (if ?c then _ else _) => destruct c
        | |- keeps_input (match ?x with _ => _ end) => destruct x
        end ].
Qed.

End Inputs.

(* ------------------------------------------------------------------ *)
(** ** What a run leaves alone *)

Section KeepFacts.
Context {P : platform} {B : Type}.
Local Open Scope nat_scope.
Local Open Scope list_scope.
Implicit Types s : state B.

Variable X : Type.
Variable proj : state B -> X.

Lemma kept_bind {A C} (m : M B A) (k : A -> M B C) :
  keeps proj m -> (forall a, keeps proj (k a)) -> keeps proj (bind m k).
Proof.
  intros Hm Hk s. unfold bind. specialize (Hm s).
  destruct (m s) as [a s1|f s1]; simpl in Hm; [|exact Hm].
  now rewrite (Hk a s1).
Qed.

Lemma kept_still {A} (m : M B A) :
  (forall s, final (m s) = s) -> keeps proj m.
Proof. intros H s. now rewrite H. Qed.

Lemma kept_ret {A} (a : A) : keeps proj (ret (B := B) a).
Proof. now apply kept_still. Qed.

Lemma kept_gets {A} (f : state B -> A) : keeps proj (gets f).
Proof. now apply kept_still. Qed.

Lemma kept_fatalx {A} msg : keeps proj (fatalx (B := B) (A := A) msg).
Proof. now apply kept_still. Qed.

Lemma kept_undefined {A} msg : keeps proj (undefined (B := B) (A := A) msg).
Proof. now apply kept_still. Qed.

Lemma kept_modify (f : state B -> state B) :
  (forall s, proj (f s) = proj s) -> keeps proj (modify f).
Proof. intros H s. apply H. Qed.

Lemma kept_read_rdata len : keeps proj (read_rdata (B := B) len).
Proof.
  apply kept_still. intros s. unfold read_rdata, undefined.
  destruct (data (imsg s)); [|reflexivity]. now destruct (_ <=? _).
Qed.

Lemma kept_peek_rdata i : keeps proj (peek_rdata (B := B) i).
Proof.
  apply kept_still. intros s. unfold peek_rdata, undefined.
  destruct (data (imsg s)); [|reflexivity]. now destruct (nth_error _ _).
Qed.

Lemma kept_string_at_rdata : keeps proj (string_at_rdata (B := B)).
Proof.
  apply kept_still. intros s. unfold string_at_rdata, undefined.
  destruct (data (imsg s)); [|reflexivity]. now destruct (strz _).
Qed.

(** Which assignments [proj] does not see. *)
Hypothesis not_rlen : forall v s, proj (set_rlen v s) = proj s.
Hypothesis not_rdata : forall v s, proj (set_rdata v s) = proj s.
Hypothesis not_imsg : forall v s, proj (set_imsg v s) = proj s.
Hypothesis not_buf : forall v s, proj (set_buf v s) = proj s.
Hypothesis not_ibuf : forall v s, proj (set_ibuf v s) = proj s.
Hypothesis not_backend : forall v s, proj (set_backend v s) = proj s.
Hypothesis not_log : forall v s, proj (set_log v s) = proj s.
Hypothesis not_trace : forall v s, proj (set_trace v s) = proj s.

Lemma kept_log_warnx msg : keeps proj (log_warnx (B := B) msg).
Proof. intros s. apply not_log. Qed.

Lemma kept_emit e : keeps proj (emit (B := B) e).
Proof. intros s. apply not_trace. Qed.

Ltac amble :=
  repeat first
    [ apply kept_ret | apply kept_gets | apply kept_fatalx
    | apply kept_undefined | apply kept_log_warnx | apply kept_emit
    | apply kept_read_rdata
    | apply kept_modify; intros; cbv beta; solve [auto]
    | apply kept_bind; [|intros]
    | match goal with
      | |- keeps _ (if ?c then _ else _) => destruct c
      | |- keeps _ (match ?x with _ => _ end) => destruct x
      end ].

Lemma kept_table_msg_get dst len : keeps proj (table_msg_get (B := B) dst len).
Proof. unfold table_msg_get. amble. Qed.

Lemma kept_table_msg_end : keeps proj (table_msg_end (B := B)).
Proof. unfold table_msg_end. amble. Qed.

Lemma kept_table_msg_add bytes : keeps proj (table_msg_add (B := B) bytes).
Proof. unfold table_msg_add. amble. Qed.

Lemma kept_table_msg_close : keeps proj (table_msg_close (B := B)).
Proof. unfold table_msg_close. amble. Qed.

Lemma kept_add_string res : keeps proj (add_string (B := B) res).
Proof.
  unfold add_string. destruct (strz res);
    [apply kept_table_msg_add | apply kept_undefined].
Qed.

Lemma kept_do_imsg_compose type bytes :
  keeps proj (do_imsg_compose (B := B) type bytes).
Proof. unfold do_imsg_compose. amble. Qed.

Lemma kept_call_update h : keeps proj (call_update (B := B) h).
Proof.
  intros s. unfold call_update. destruct (h (backend s)) as [r b'].
  simpl. now rewrite not_trace, not_backend.
Qed.

Lemma kept_call_check h type key :
  keeps proj (call_check (B := B) h type key).
Proof.
  intros s. unfold call_check. destruct (h type key (backend s)) as [r b'].
  simpl. now rewrite not_trace, not_backend.
Qed.

Lemma kept_call_lookup h type key :
  keeps proj (call_lookup (B := B) h type key).
Proof.
  intros s. unfold call_lookup.
  destruct (h type key sizeof_res (backend s)) as [[r out] b'].
  destruct (sizeof_res <? length out); simpl;
    now rewrite not_trace, not_backend.
Qed.

Lemma kept_call_fetch h type : keeps proj (call_fetch (B := B) h type).
Proof.
  intros s. unfold call_fetch.
  destruct (h type sizeof_res (backend s)) as [[r out] b'].
  destruct (sizeof_res <? length out); simpl;
    now rewrite not_trace, not_backend.
Qed.

(** What the dispatcher does not assign, it leaves as it was; [quit]
    only when the message is not a CLOSE. *)
Lemma kept_dispatch s :
  (hdr_type (hdr (imsg s)) = PROC_TABLE_CLOSE ->
   forall v s0, proj (set_quit v s0) = proj s0) ->
  proj (final (table_msg_dispatch s)) = proj s.
Proof.
  intros Hq. unfold table_msg_dispatch.
  rewrite bind_run. unfold gets at 1. rewrite bind_run.
  unfold emit at 1, modify at 1.
  rewrite <- (not_trace (trace s ++ [EvDispatch (hdr_type (hdr (imsg s)))]) s).
  match goal with
  | |- proj (final (?m ?s1)) = _ => enough (K : keeps proj m) by apply K
  end.
  destruct (hdr_type (hdr (imsg s)));
    repeat first
      [ apply kept_table_msg_get | apply kept_table_msg_end
      | apply kept_table_msg_add | apply kept_table_msg_close
      | apply kept_add_string | apply kept_do_imsg_compose
      | apply kept_call_update | apply kept_call_check
      | apply kept_call_lookup | apply kept_call_fetch
      | apply kept_peek_rdata | apply kept_string_at_rdata
      | apply kept_ret | apply kept_gets | apply kept_fatalx
      | apply kept_log_warnx
      | apply kept_modify; intros; apply Hq; reflexivity
      | apply kept_bind; [|intros]
      | match goal with
        | |- keeps _ (if ?c then _ else _) => destruct c
        | |- keeps _ (match ?x with _ => _ end) => destruct x
        end ].
Qed.

End KeepFacts.

(* ------------------------------------------------------------------ *)
(** ** The dispatcher *)

Section DispatchFacts.
Context {P : platform} {B : Type}.
Local Open Scope string_scope.
Local Open Scope nat_scope.
Local Open Scope list_scope.
Implicit Types s : state B.

(** Expose the frame and the fields of the state it is dispatched in. *)
Ltac enter f s H :=
  let D1 := fresh "D1" in let D2 := fresh "D2" in
  let D3 := fresh "D3" in let D4 := fresh "D4" in
  destruct H as (D1 & D2 & D3 & D4);
  destruct f as [fty pl];
  destruct s as [hu hc hl hf q ib [[hty hlen] dat] rl rd bf be fi fo fw lg tr];
  simpl in *; subst.

(** Run the dispatcher up to the reply builder. *)
Ltac run :=
  unfold table_msg_dispatch in *;
  unfold table_msg_get, table_msg_end, call_update,
    call_check, call_lookup, call_fetch, read_rdata, peek_rdata,
    string_at_rdata, bind, gets, modify, emit, ret, log_warnx, fatalx,
    undefined in *;
  simpl in *.

Lemma nth_error_snoc (body : list byte) b :
  nth_error (body ++ [b]) (length body) = Some b.
Proof. rewrite nth_error_app2 by lia. now rewrite Nat.sub_diag. Qed.

(** The same through the validation of a key that ends in [b]. *)
Ltac validate :=
  run; rewrite ?length_app, ?Nat.add_1_r in *; simpl in *;
  rewrite ?Nat.sub_0_r, ?nth_error_snoc in *; simpl in *.


Ltac no_lt := symmetry; apply Nat.ltb_ge; lia.


Lemma last_cases (l : list byte) :
  l = [] \/ exists body b, l = body ++ [b].
Proof.
  destruct l as [|a l]; [now left|]. right.
  destruct (@exists_last _ (a :: l)) as (body & b & E); [discriminate|].
  eauto.
Qed.

(** *** The reply builder *)

Lemma table_msg_add_first bytes s :
  buf s = None ->
  IMSG_HEADER_SIZE + 1024 <= MAX_IMSGSIZE ->
  IMSG_HEADER_SIZE + length bytes <= MAX_IMSGSIZE ->
  table_msg_add bytes s =
  Ok tt (set_buf (Some (Ibuf PROC_TABLE_OK bytes)) s).
Proof.
  intros Hb H1 H2. destruct s; simpl in Hb; subst.
  unfold table_msg_add, bind, gets, modify, imsg_create. simpl.
  replace (MAX_IMSGSIZE <? IMSG_HEADER_SIZE + 1024) with false by no_lt.
  unfold imsg_add. simpl.
  replace (MAX_IMSGSIZE <? IMSG_HEADER_SIZE + 0 + length bytes)
    with false by no_lt.
  reflexivity.
Qed.

Lemma table_msg_add_more bytes s b :
  buf s = Some b ->
  IMSG_HEADER_SIZE + length (ib_data b) + length bytes <= MAX_IMSGSIZE ->
  table_msg_add bytes s =
  Ok tt (set_buf (Some (Ibuf (ib_type b) (ib_data b ++ bytes))) s).
Proof.
  intros Hb H. destruct s; simpl in Hb; subst.
  unfold table_msg_add, bind, gets, modify, ret, imsg_add. simpl.
  replace (MAX_IMSGSIZE <? IMSG_HEADER_SIZE + length (ib_data b) + length bytes)
    with false by no_lt.
  reflexivity.
Qed.

Lemma table_msg_add_first_inv bytes s u s' :
  buf s = None ->
  table_msg_add bytes s = Ok u s' ->
  s' = set_buf (Some (Ibuf PROC_TABLE_OK bytes)) s.
Proof.
  intros Hb. destruct s; simpl in Hb; subst.
  unfold table_msg_add, bind, gets, modify, log_warnx, fatalx, imsg_create.
  simpl.
  destruct (MAX_IMSGSIZE <? IMSG_HEADER_SIZE + 1024); [discriminate|].
  unfold imsg_add. simpl.
  destruct (MAX_IMSGSIZE <? IMSG_HEADER_SIZE + 0 + length bytes);
    [discriminate|].
  now intros [= _ <-].
Qed.

Lemma table_msg_add_more_inv bytes s b u s' :
  buf s = Some b ->
  table_msg_add bytes s = Ok u s' ->
  s' = set_buf (Some (Ibuf (ib_type b) (ib_data b ++ bytes))) s.
Proof.
  intros Hb. destruct s; simpl in Hb; subst.
  unfold table_msg_add, bind, gets, modify, ret, log_warnx, fatalx, imsg_add.
  simpl.
  destruct (MAX_IMSGSIZE <? _); [discriminate|].
  now intros [= _ <-].
Qed.

Lemma table_msg_close_some s b :
  buf s = Some b ->
  table_msg_close s =
  Ok tt (set_buf None
           (set_trace (trace s ++ [EvQueue (Frame (ib_type b) (ib_data b))])
              (set_ibuf (imsg_close (ibuf s) b) s))).
Proof.
  intros Hb. destruct s; simpl in Hb; subst. reflexivity.
Qed.

Lemma do_imsg_compose_fits type bytes s :
  IMSG_HEADER_SIZE + length bytes <= MAX_IMSGSIZE ->
  do_imsg_compose type bytes s =
  Ok tt (set_trace (trace s ++ [EvQueue (Frame type bytes)])
           (set_ibuf (imsg_close (ibuf s) (Ibuf type bytes)) s)).
Proof.
  intros H. destruct s.
  unfold do_imsg_compose, bind, gets, modify, emit. simpl.
  unfold imsg_compose, imsg_create.
  replace (MAX_IMSGSIZE <? IMSG_HEADER_SIZE + length bytes)
    with false by no_lt.
  unfold imsg_add. simpl.
  replace (MAX_IMSGSIZE <? IMSG_HEADER_SIZE + 0 + length bytes)
    with false by no_lt.
  reflexivity.
Qed.

Lemma add_string_inv res s u s' :
  add_string res s = Ok u s' ->
  exists v, strz res = Some v /\ table_msg_add (v ++ [x00]) s = Ok u s'.
Proof.
  unfold add_string. destruct (strz res) as [v|]; [eauto|discriminate].
Qed.

(** *** OPEN *)

(** C3.  An OPEN request carries a 4-byte version.  When it is the
    supported version, the dispatcher returns having queued one reply
    of type OK with an empty payload; when it is any other value, the
    run ends in [fatalx] and nothing has been queued or sent. *)
Theorem open_version_checked (f : frame) s :
  sane_platform P ->
  f_type f = PROC_TABLE_OPEN ->
  length (f_payload f) = 4 ->
  dispatching f s ->
  (load_u32 order (f_payload f) = PROC_TABLE_API_VERSION ->
   exists s',
     table_msg_dispatch s = Ok tt s' /\
     queued s s' [Frame PROC_TABLE_OK []] /\
     fd_out s' = fd_out s /\ quit s' = quit s) /\
  (load_u32 order (f_payload f) <> PROC_TABLE_API_VERSION ->
   exists s',
     table_msg_dispatch s = Abort (Fatalx "table-api: terminating") s' /\
     queued s s' [] /\ fd_out s' = fd_out s).
Proof.
  intros [Hh Hm] Ht Hl D. enter f s D.
  destruct pl as [|b0 [|b1 [|b2 [|b3 [|]]]]]; try discriminate.
  split; intros Hv.
  - run. rewrite Hv, Z.eqb_refl. simpl.
    rewrite do_imsg_compose_fits by (simpl; lia).
    eexists. split; [reflexivity|]. unfold queued. simpl. auto.
  - run. apply Z.eqb_neq in Hv. rewrite Hv. simpl.
    eexists. split; [reflexivity|]. unfold queued. simpl.
    rewrite app_nil_r. auto.
Qed.

(** *** A missing handler *)

(** C1, as the code has it.  When the handler slot of the request is
    empty and the dispatcher returns, exactly one reply of type OK was
    queued, and its payload is the four bytes of the result: [-1] for
    CHECK, LOOKUP and FETCH, and [1] for UPDATE. *)
Theorem missing_handler_result (f : frame) s s' :
  sane_platform P ->
  dispatching f s ->
  buf s = None ->
  no_handler (f_type f) s ->
  table_msg_dispatch s = Ok tt s' ->
  let r := match f_type f with
           | PROC_TABLE_UPDATE => 1%Z
           | _ => (-1)%Z
           end in
  queued s s' [Frame PROC_TABLE_OK (store32 order r)] /\
  load_int order (store32 order r) = r.
Proof.
  intros [Hh Hm] D Hb Hn E. enter f s D.
  destruct fty; simpl in Hn; try contradiction; subst; simpl;
    (split; [|rewrite load_store_int; reflexivity]).
  - (* UPDATE *)
    destruct pl; [|run; discriminate]. run.
    rewrite do_imsg_compose_fits in E by (rewrite length_store32; lia).
    injection E as <-. reflexivity.
  - (* CHECK *)
    destruct pl as [|b0 [|b1 [|b2 [|b3 rest]]]]; try (run; discriminate).
    destruct (last_cases rest) as [->|(body & b & ->)];
      [run; discriminate|].
    validate.
    destruct (Byte.eqb b x00); simpl in E; [|discriminate].
    rewrite Nat.ltb_irrefl, Nat.sub_diag in E. simpl in E.
    destruct (table_msg_add _ _) as [u s1|] eqn:A; [|discriminate].
    apply table_msg_add_first_inv in A; [|reflexivity]. subst s1.
    rewrite (@table_msg_close_some _ (Ibuf PROC_TABLE_OK (store32 order (-1))))
      in E by reflexivity.
    injection E as <-. reflexivity.
  - (* LOOKUP *)
    destruct pl as [|b0 [|b1 [|b2 [|b3 rest]]]]; try (run; discriminate).
    destruct (last_cases rest) as [->|(body & b & ->)];
      [run; discriminate|].
    validate.
    destruct (Byte.eqb b x00); simpl in E; [|discriminate].
    rewrite Nat.ltb_irrefl, Nat.sub_diag in E. simpl in E.
    destruct (table_msg_add _ _) as [u s1|] eqn:A; [|discriminate].
    apply table_msg_add_first_inv in A; [|reflexivity]. subst s1.
    rewrite (@table_msg_close_some _ (Ibuf PROC_TABLE_OK (store32 order (-1))))
      in E by reflexivity.
    injection E as <-. reflexivity.
  - (* FETCH *)
    destruct pl as [|b0 [|b1 [|b2 [|b3 [|]]]]]; try (run; discriminate).
    run.
    destruct (table_msg_add _ _) as [u s1|] eqn:A; [|discriminate].
    apply table_msg_add_first_inv in A; [|reflexivity]. subst s1.
    rewrite (@table_msg_close_some _ (Ibuf PROC_TABLE_OK (store32 order (-1))))
      in E by reflexivity.
    injection E as <-. reflexivity.
Qed.

(** *** The end of a reply, read backwards *)

Lemma table_msg_add_Ok_frame bytes s u s' :
  table_msg_add bytes s = Ok u s' -> exists b, s' = set_buf (Some b) s.
Proof.
  intros E. destruct (buf s) as [b|] eqn:Hb.
  - eapply table_msg_add_more_inv in E; eauto.
  - eapply table_msg_add_first_inv in E; eauto.
Qed.

Lemma table_msg_close_inv s u s' :
  table_msg_close s = Ok u s' ->
  exists b,
    buf s = Some b /\
    s' = set_buf None
           (set_trace (trace s ++ [EvQueue (Frame (ib_type b) (ib_data b))])
              (set_ibuf (imsg_close (ibuf s) b) s)).
Proof.
  destruct s as [hu hc hl hf q ib im rl rd [b|] be fi fo fw lg tr];
    [|discriminate].
  intros [= <-]. now exists b.
Qed.

Lemma answer_cursor bytes s s' :
  bind (table_msg_add bytes) (fun _ => table_msg_close) s = Ok tt s' ->
  rlen s' = rlen s /\ rdata s' = rdata s /\ imsg s' = imsg s.
Proof.
  unfold bind. destruct (table_msg_add bytes s) as [u s1|] eqn:A;
    [|discriminate].
  apply table_msg_add_Ok_frame in A. destruct A as (b & ->).
  intros E. apply table_msg_close_inv in E. destruct E as (b' & _ & ->).
  destruct s. now repeat split.
Qed.

Lemma reply_cursor r res s s' :
  bind (table_msg_add (store32 order r))
    (fun _ => bind (if (r =? 1)%Z then add_string res else ret tt)
                (fun _ => table_msg_close)) s = Ok tt s' ->
  rlen s' = rlen s /\ rdata s' = rdata s /\ imsg s' = imsg s.
Proof.
  unfold bind. destruct (table_msg_add _ s) as [u s1|] eqn:A;
    [|discriminate].
  apply table_msg_add_Ok_frame in A. destruct A as (b & ->).
  destruct (r =? 1)%Z.
  - destruct (add_string res _) as [u' s2|] eqn:A2; [|discriminate].
    apply add_string_inv in A2. destruct A2 as (v & _ & A2).
    apply table_msg_add_Ok_frame in A2. destruct A2 as (b2 & ->).
    intros E. apply table_msg_close_inv in E. destruct E as (b' & _ & ->).
    destruct s. now repeat split.
  - unfold ret. intros E.
    apply table_msg_close_inv in E. destruct E as (b' & _ & ->).
    destruct s. now repeat split.
Qed.

Lemma reply_Ok_inv r res s s' :
  buf s = None ->
  bind (table_msg_add (store32 order r))
    (fun _ => bind (if (r =? 1)%Z then add_string res else ret tt)
                (fun _ => table_msg_close)) s = Ok tt s' ->
  exists tail,
    queued s s' [Frame PROC_TABLE_OK (store32 order r ++ tail)] /\
    (r = 1%Z -> exists v, strz res = Some v /\ tail = v ++ [x00]) /\
    (r <> 1%Z -> tail = []).
Proof.
  intros Hb. destruct s as [hu hc hl hf q ib im rl rd bf be fi fo fw lg tr].
  simpl in Hb. subst bf. unfold bind.
  destruct (table_msg_add _ _) as [u s1|] eqn:A; [|discriminate].
  apply table_msg_add_first_inv in A; [|reflexivity]. subst s1.
  destruct (r =? 1)%Z eqn:R.
  - apply Z.eqb_eq in R.
    destruct (add_string res _) as [u' s2|] eqn:A2; [|discriminate].
    apply add_string_inv in A2. destruct A2 as (v & Hv & A2).
    eapply table_msg_add_more_inv in A2; [|reflexivity]. subst s2.
    intros E. apply table_msg_close_inv in E.
    destruct E as (b' & [= <-] & ->).
    exists (v ++ [x00]). unfold queued. simpl.
    split; [reflexivity|]. split; [eauto | intros; contradiction].
  - apply Z.eqb_neq in R. unfold ret. intros E.
    apply table_msg_close_inv in E. destruct E as (b' & [= <-] & ->).
    exists []. unfold queued. simpl. rewrite app_nil_r.
    split; [reflexivity|]. split; [intros; contradiction | reflexivity].
Qed.

(** *** CHECK and LOOKUP: the key *)

(** A keyed request whose key bytes end in NUL, with its handler
    registered: the handler is called, once, with the tag and the
    string at the cursor; and when the dispatcher returns, the whole
    payload has been consumed and released. *)
Lemma keyed_run (f : frame) s tag body :
  f_type f = PROC_TABLE_CHECK \/ f_type f = PROC_TABLE_LOOKUP ->
  f_payload f = tag ++ body ++ [x00] ->
  length tag = 4 ->
  dispatching f s ->
  registered (f_type f) s ->
  exists key evs,
    strz (body ++ [x00]) = Some key /\
    trace (final (table_msg_dispatch s)) =
    trace s ++ EvDispatch (f_type f)
            :: EvInvoke (key_call (f_type f) (load_int order tag) key)
            :: evs /\
    Forall is_queue evs /\
    forall s',
      table_msg_dispatch s = Ok tt s' ->
      rlen s' = 0 /\ rdata s' = length (f_payload f) /\
      data (imsg s') = None.
Proof.
  intros Hty Hp Hl D Hreg.
  destruct tag as [|b0 [|b1 [|b2 [|b3 [|]]]]]; try discriminate.
  destruct (strz_ends_nul body) as [key Hkey]. exists key.
  enter f s D.
  destruct Hty as [-> | ->]; simpl in Hreg.
  - (* CHECK *)
    destruct hc as [h|]; [|now elim Hreg].
    validate. rewrite Hkey.
    destruct (h _ _ _) as [r be']. simpl.
    rewrite Nat.ltb_irrefl, Nat.sub_diag. simpl.
    match goal with
    | |- context [table_msg_add ?b ?s3] =>
        destruct (@emits_answer P B is_queue
                    ltac:(intros; exact I) b s3) as (evs & E & F);
        pose proof (@answer_cursor b s3) as C
    end.
    exists evs. split; [reflexivity|]. split; [|split; [exact F|]].
    + unfold bind, ret in E. cbv beta in E. rewrite E.
      simpl. now rewrite <- !app_assoc.
    + intros s' R. apply C in R. destruct R as (-> & -> & ->).
      simpl. rewrite ?length_app. simpl.
      repeat split; lia.
  - (* LOOKUP *)
    destruct hl as [h|]; [|now elim Hreg].
    validate. rewrite Hkey.
    destruct (h _ _ _ _) as [[r out] be']. simpl.
    destruct (sizeof_res <? length out); simpl.
    { exists []. split; [reflexivity|].
      split; [now rewrite <- !app_assoc|].
      split; [constructor | discriminate]. }
    rewrite Nat.ltb_irrefl, Nat.sub_diag. simpl.
    match goal with
    | |- context [table_msg_add (store32 order ?r) ?s3] =>
        destruct (@emits_reply P B is_queue
                    ltac:(intros; exact I) r out s3) as (evs & E & F);
        pose proof (@reply_cursor r out s3) as C
    end.
    exists evs. split; [reflexivity|]. split; [|split; [exact F|]].
    + unfold bind, ret in E. cbv beta in E. rewrite E.
      simpl. now rewrite <- !app_assoc.
    + intros s' R. apply C in R. destruct R as (-> & -> & ->).
      simpl. rewrite ?length_app. simpl.
      repeat split; lia.
Qed.

(** The end of a reply leaves the backend and the cursor alone, however
    it ends. *)
Lemma answer_final bytes s :
  let sf := final (bind (table_msg_add bytes)
                     (fun _ => table_msg_close) s) in
  backend sf = backend s /\ rlen sf = rlen s /\ rdata sf = rdata s /\
  imsg sf = imsg s.
Proof.
  assert (K : keeps (fun z : state B => (backend z, rlen z, rdata z, imsg z))
                (bind (table_msg_add bytes) (fun _ => table_msg_close))).
  { apply kept_bind;
      [ apply kept_table_msg_add; intros ? []; reflexivity
      | intros; apply kept_table_msg_close; intros ? []; reflexivity ]. }
  specialize (K s). cbv beta in K. injection K as K1 K2 K3 K4.
  cbv zeta. split; [exact K1|]. split; [exact K2|]. split; assumption.
Qed.

Lemma reply_final r res s :
  let sf := final (bind (table_msg_add (store32 order r))
                     (fun _ => bind (if (r =? 1)%Z
                                     then add_string res else ret tt)
                                 (fun _ => table_msg_close)) s) in
  backend sf = backend s /\ rlen sf = rlen s /\ rdata sf = rdata s /\
  imsg sf = imsg s.
Proof.
  assert (K : keeps (fun z : state B => (backend z, rlen z, rdata z, imsg z))
                (bind (table_msg_add (store32 order r))
                   (fun _ => bind (if (r =? 1)%Z
                                   then add_string res else ret tt)
                               (fun _ => table_msg_close)))).
  { apply kept_bind;
      [ apply kept_table_msg_add; intros ? []; reflexivity | intros ].
    apply kept_bind;
      [ destruct (r =? 1)%Z;
        [ apply kept_add_string; intros ? []; reflexivity | apply kept_ret ]
      | intros; apply kept_table_msg_close; intros ? []; reflexivity ]. }
  specialize (K s). cbv beta in K. injection K as K1 K2 K3 K4.
  cbv zeta. split; [exact K1|]. split; [exact K2|]. split; assumption.
Qed.

(** A CHECK whose key bytes end in NUL, with the handler [h]
    registered: the backend is what [h], applied to the tag, the
    string at the cursor and the backend, left, however the run ends;
    and when the dispatcher returns, the reply is the four bytes of
    what [h] returned. *)
Lemma keyed_check_run (f : frame) s tag body key h :
  f_type f = PROC_TABLE_CHECK ->
  f_payload f = tag ++ body ++ [x00] ->
  length tag = 4 ->
  dispatching f s ->
  strz (body ++ [x00]) = Some key ->
  handler_check s = Some h ->
  let out := h (load_int order tag) key (backend s) in
  backend (final (table_msg_dispatch s)) = snd out /\
  (buf s = None ->
   forall s',
     table_msg_dispatch s = Ok tt s' ->
     queued s s' [Frame PROC_TABLE_OK (store32 order (to_int (fst out)))]).
Proof.
  intros Ht Hp Hl D Hkey Hc.
  destruct tag as [|b0 [|b1 [|b2 [|b3 [|]]]]]; try discriminate.
  enter f s D. validate. rewrite Hkey.
  destruct (h _ _ _) as [r be']. simpl.
  rewrite Nat.ltb_irrefl, Nat.sub_diag. simpl.
  match goal with
  | |- context [table_msg_add ?b ?s3] =>
      pose proof (answer_final b s3) as K
  end.
  unfold bind in K. cbv beta zeta in K. destruct K as (K & _).
  split; [exact K|].
  intros -> s'.
  destruct (table_msg_add _ _) as [u s1|] eqn:A; [|discriminate].
  apply table_msg_add_first_inv in A; [|reflexivity]. subst s1.
  intros E. apply table_msg_close_inv in E.
  destruct E as (b' & [= <-] & ->). reflexivity.
Qed.

(** The same for LOOKUP: the backend is what [h] left, and the reply
    starts with the four bytes of what [h] returned. *)
Lemma keyed_lookup_run (f : frame) s tag body key h :
  f_type f = PROC_TABLE_LOOKUP ->
  f_payload f = tag ++ body ++ [x00] ->
  length tag = 4 ->
  dispatching f s ->
  strz (body ++ [x00]) = Some key ->
  handler_lookup s = Some h ->
  let out := h (load_int order tag) key sizeof_res (backend s) in
  backend (final (table_msg_dispatch s)) = snd out /\
  (buf s = None ->
   forall s',
     table_msg_dispatch s = Ok tt s' ->
     exists tail,
       queued s s'
         [Frame PROC_TABLE_OK
            (store32 order (to_int (fst (fst out))) ++ tail)]).
Proof.
  intros Ht Hp Hl D Hkey Hc.
  destruct tag as [|b0 [|b1 [|b2 [|b3 [|]]]]]; try discriminate.
  enter f s D. validate. rewrite Hkey.
  destruct (h _ _ _ _) as [[r out] be']. simpl.
  destruct (sizeof_res <? length out); simpl.
  { split; [reflexivity|]. intros _ s'. discriminate. }
  rewrite Nat.ltb_irrefl, Nat.sub_diag. simpl.
  match goal with
  | |- context [table_msg_add (store32 order ?r0) ?s3] =>
      pose proof (reply_final r0 out s3) as K;
      pose proof (@reply_Ok_inv r0 out s3) as I
  end.
  unfold bind, ret in K. cbv beta zeta in K. destruct K as (K & _).
  split; [exact K|].
  intros -> s' R. unfold bind, ret in I.
  destruct (I s' eq_refl R) as (tail & Hq & _).
  exists tail. exact Hq.
Qed.

(** A keyed request whose key bytes end in NUL is consumed to its last
    byte and released, with or without a handler and however the reply
    fares; the one exception is a LOOKUP handler that wrote past the
    buffer it was given. *)
Lemma keyed_consumed (f : frame) s tag body :
  f_type f = PROC_TABLE_CHECK \/ f_type f = PROC_TABLE_LOOKUP ->
  f_payload f = tag ++ body ++ [x00] ->
  length tag = 4 ->
  dispatching f s ->
  let sf := final (table_msg_dispatch s) in
  (rlen sf = 0 /\ rdata sf = length (f_payload f) /\
   data (imsg sf) = None) \/
  exists s',
    table_msg_dispatch s = Abort (Undefined "handler wrote past res") s'.
Proof.
  intros Hty Hp Hl D.
  destruct tag as [|b0 [|b1 [|b2 [|b3 [|]]]]]; try discriminate.
  destruct (strz_ends_nul body) as [key Hkey].
  enter f s D.
  destruct Hty as [-> | ->].
  - (* CHECK *)
    destruct hc as [h|]; validate;
      [ rewrite Hkey; destruct (h _ _ _) as [r be']; simpl | ];
      rewrite Nat.ltb_irrefl, Nat.sub_diag; simpl;
      match goal with
      | |- context [table_msg_add ?b ?s3] =>
          pose proof (answer_final b s3) as K
      end;
      unfold bind in K; cbv beta zeta in K;
      destruct K as (_ & K1 & K2 & K3); left;
      rewrite K1, K2, K3; simpl; rewrite ?length_app; simpl;
      (split; [reflexivity|]); (split; [lia|reflexivity]).
  - (* LOOKUP *)
    destruct hl as [h|]; validate.
    + rewrite Hkey. destruct (h _ _ _ _) as [[r out] be']. simpl.
      destruct (sizeof_res <? length out); simpl; [right; eauto|].
      rewrite Nat.ltb_irrefl, Nat.sub_diag. simpl.
      match goal with
      | |- context [table_msg_add (store32 order ?r0) ?s3] =>
          pose proof (reply_final r0 out s3) as K
      end.
      unfold bind, ret in K. cbv beta zeta in K.
      destruct K as (_ & K1 & K2 & K3). left.
      rewrite K1, K2, K3. simpl. rewrite ?length_app. simpl.
      split; [reflexivity|]. split; [lia|reflexivity].
    + rewrite Nat.ltb_irrefl, Nat.sub_diag. simpl.
      match goal with
      | |- context [table_msg_add (store32 order ?r0) ?s3] =>
          pose proof (reply_final r0 [] s3) as K
      end.
      destruct K as (_ & K1 & K2 & K3). left.
      split; [etransitivity; [exact K1|reflexivity]|].
      split.
      * etransitivity; [exact K2|].
        simpl. rewrite ?length_app. simpl. lia.
      * etransitivity; [exact (f_equal (@data) K3)|reflexivity].
Qed.

(** C2.  A CHECK or LOOKUP request whose payload is a 4-byte tag and
    then [rest].  If [rest] is empty, or ends in a byte other than
    NUL, the run ends in [fatalx] and no handler has been called (the
    history holds the dispatch alone, the backend is untouched).  If
    [rest] ends in NUL, the registered handler is called with the tag
    and the string that [rest] holds, and after that call the
    dispatcher does nothing but queue.  That the handler is called
    with these arguments shows in what it does: the backend is what
    the handler, applied to the tag, that string and the backend,
    left; and when the dispatcher returns, the reply it queued carries
    what the handler returned. *)
Theorem key_validated (f : frame) s tag rest :
  f_type f = PROC_TABLE_CHECK \/ f_type f = PROC_TABLE_LOOKUP ->
  f_payload f = tag ++ rest ->
  length tag = 4 ->
  dispatching f s ->
  ((rest = [] \/ (exists body b, rest = body ++ [b] /\ b <> x00)) ->
   fatal (table_msg_dispatch s) /\
   trace (final (table_msg_dispatch s)) =
     trace s ++ [EvDispatch (f_type f)] /\
   backend (final (table_msg_dispatch s)) = backend s) /\
  (forall body,
      rest = body ++ [x00] ->
      registered (f_type f) s ->
      exists key evs,
        strz rest = Some key /\
        trace (final (table_msg_dispatch s)) =
          trace s ++ EvDispatch (f_type f)
                  :: EvInvoke (key_call (f_type f) (load_int order tag) key)
                  :: evs /\
        Forall is_queue evs /\
        (forall h,
            f_type f = PROC_TABLE_CHECK ->
            handler_check s = Some h ->
            let out := h (load_int order tag) key (backend s) in
            backend (final (table_msg_dispatch s)) = snd out /\
            (buf s = None ->
             forall s',
               table_msg_dispatch s = Ok tt s' ->
               queued s s'
                 [Frame PROC_TABLE_OK
                    (store32 order (to_int (fst out)))])) /\
        (forall h,
            f_type f = PROC_TABLE_LOOKUP ->
            handler_lookup s = Some h ->
            let out := h (load_int order tag) key sizeof_res (backend s) in
            backend (final (table_msg_dispatch s)) = snd out /\
            (buf s = None ->
             forall s',
               table_msg_dispatch s = Ok tt s' ->
               exists tail,
                 queued s s'
                   [Frame PROC_TABLE_OK
                      (store32 order (to_int (fst (fst out))) ++ tail)]))).
Proof.
  intros Hty Hp Hl D. split.
  - intros Hbad.
    destruct tag as [|b0 [|b1 [|b2 [|b3 [|]]]]]; try discriminate.
    enter f s D.
    destruct Hbad as [->|(body & b & -> & Hb)].
    + destruct Hty as [-> | ->]; run;
        (split; [red; eauto | split; reflexivity]).
    + assert (Hne : Byte.eqb b x00 = false).
      { destruct (Byte.eqb b x00) eqn:E; [|reflexivity].
        apply Byte.byte_dec_bl in E. contradiction. }
      destruct Hty as [-> | ->]; validate; rewrite Hne; simpl;
        (split; [red; eauto | split; reflexivity]).
  - intros body -> Hreg.
    destruct (@keyed_run f s tag body Hty Hp Hl D Hreg)
      as (key & evs & Hk & Ht & Hq & _).
    exists key, evs. split; [exact Hk|]. split; [exact Ht|].
    split; [exact Hq|].
    split; intros h Hf Hh.
    + exact (@keyed_check_run f s tag body key h Hf Hp Hl D Hk Hh).
    + exact (@keyed_lookup_run f s tag body key h Hf Hp Hl D Hk Hh).
Qed.

(** C9.  A CHECK or LOOKUP key with a NUL inside it, before the final
    NUL.  The request is not refused: with or without a handler, and
    however the reply fares, the run ends with the cursor at the end of
    the payload, nothing remaining and the message released (unless a
    LOOKUP handler wrote past the buffer it was given, which C leaves
    undefined).  The registered handler is called with the bytes
    before the first NUL as its key, and only queueing follows; the
    backend is what the handler, applied to the tag, those bytes and
    the backend, left, and when the dispatcher returns the reply
    carries what the handler returned for them. *)
Theorem embedded_nul_key (f : frame) s tag k1 k2 :
  f_type f = PROC_TABLE_CHECK \/ f_type f = PROC_TABLE_LOOKUP ->
  f_payload f = tag ++ k1 ++ x00 :: k2 ++ [x00] ->
  length tag = 4 ->
  ~ In x00 k1 ->
  dispatching f s ->
  let sf := final (table_msg_dispatch s) in
  ((rlen sf = 0 /\ rdata sf = length (f_payload f) /\
    data (imsg sf) = None) \/
   exists s',
     table_msg_dispatch s =
       Abort (Undefined "handler wrote past res") s') /\
  (registered (f_type f) s ->
   exists evs,
     trace sf =
       trace s ++ EvDispatch (f_type f)
               :: EvInvoke (key_call (f_type f) (load_int order tag) k1)
               :: evs /\
     Forall is_queue evs) /\
  (forall h,
      f_type f = PROC_TABLE_CHECK ->
      handler_check s = Some h ->
      let out := h (load_int order tag) k1 (backend s) in
      backend sf = snd out /\
      (buf s = None ->
       forall s',
         table_msg_dispatch s = Ok tt s' ->
         queued s s'
           [Frame PROC_TABLE_OK (store32 order (to_int (fst out)))])) /\
  (forall h,
      f_type f = PROC_TABLE_LOOKUP ->
      handler_lookup s = Some h ->
      let out := h (load_int order tag) k1 sizeof_res (backend s) in
      backend sf = snd out /\
      (buf s = None ->
       forall s',
         table_msg_dispatch s = Ok tt s' ->
         exists tail,
           queued s s'
             [Frame PROC_TABLE_OK
                (store32 order (to_int (fst (fst out))) ++ tail)])).
Proof.
  intros Hty Hp Hl Hk D.
  assert (Hp' : f_payload f = tag ++ (k1 ++ x00 :: k2) ++ [x00]).
  { rewrite Hp. now rewrite <- app_assoc. }
  assert (Hkey : strz ((k1 ++ x00 :: k2) ++ [x00]) = Some k1).
  { rewrite <- app_assoc. simpl. now apply strz_terminated. }
  cbv zeta. split; [|split; [|split]].
  - exact (@keyed_consumed f s tag (k1 ++ x00 :: k2) Hty Hp' Hl D).
  - intros Hreg.
    destruct (@keyed_run f s tag (k1 ++ x00 :: k2) Hty Hp' Hl D Hreg)
      as (key & evs & Hkey' & Ht & Hq & _).
    rewrite Hkey in Hkey'. injection Hkey' as <-. now exists evs.
  - intros h Hf Hh.
    exact (@keyed_check_run f s tag _ k1 h Hf Hp' Hl D Hkey Hh).
  - intros h Hf Hh.
    exact (@keyed_lookup_run f s tag _ k1 h Hf Hp' Hl D Hkey Hh).
Qed.

(** *** LOOKUP and FETCH: the value *)

(** C4.  When the dispatcher returns from a LOOKUP or FETCH, it has
    queued exactly one reply of type OK.  The payload starts with the
    four bytes of the result [r].  If [r] is 1, a string and its NUL
    follow; for any other [r], nothing follows. *)
Theorem value_iff_found (f : frame) s s' :
  f_type f = PROC_TABLE_LOOKUP \/ f_type f = PROC_TABLE_FETCH ->
  dispatching f s ->
  buf s = None ->
  table_msg_dispatch s = Ok tt s' ->
  exists r tail,
    queued s s' [Frame PROC_TABLE_OK (store32 order r ++ tail)] /\
    load_int order (store32 order r) = r /\
    (r = 1%Z -> exists v, ~ In x00 v /\ tail = v ++ [x00]) /\
    (r <> 1%Z -> tail = []).
Proof.
  intros Hty D Hb E. enter f s D.
  assert (finish : forall r res s3,
             buf s3 = None ->
             bind (table_msg_add (store32 order (to_int r)))
               (fun _ => bind (if (to_int r =? 1)%Z
                               then add_string res else ret tt)
                           (fun _ => table_msg_close)) s3 = Ok tt s' ->
             exists r' tail,
               queued s3 s' [Frame PROC_TABLE_OK (store32 order r' ++ tail)] /\
               load_int order (store32 order r') = r' /\
               (r' = 1%Z -> exists v, ~ In x00 v /\ tail = v ++ [x00]) /\
               (r' <> 1%Z -> tail = [])).
  { intros r res s3 Hb3 R.
    apply reply_Ok_inv in R; [|exact Hb3].
    destruct R as (tail & Hq & H1 & H0).
    exists (to_int r), tail. split; [exact Hq|].
    split; [rewrite load_store_int; apply to_int_small, to_int_range|].
    split; [|exact H0].
    intros R1. destruct (H1 R1) as (v & Hv & ->).
    exists v. split; [|reflexivity]. now apply strz_sound in Hv. }
  destruct Hty as [-> | ->].
  - (* LOOKUP *)
    destruct pl as [|b0 [|b1 [|b2 [|b3 rest]]]]; try (run; discriminate).
    destruct (last_cases rest) as [->|(body & b & ->)];
      [run; discriminate|].
    validate.
    destruct (Byte.eqb b x00); simpl in E; [|discriminate].
    destruct hl as [h|]; simpl in E.
    + destruct (strz (body ++ [b])) as [key|]; [|discriminate].
      destruct (h _ _ _ _) as [[r out] be']. simpl in E.
      destruct (sizeof_res <? length out); simpl in E; [discriminate|].
      rewrite Nat.ltb_irrefl, Nat.sub_diag in E. simpl in E.
      apply (finish r out) in E; [|reflexivity]. exact E.
    + rewrite Nat.ltb_irrefl, Nat.sub_diag in E. simpl in E.
      apply (finish (-1)%Z []) in E; [|reflexivity]. exact E.
  - (* FETCH *)
    destruct pl as [|b0 [|b1 [|b2 [|b3 [|]]]]]; try (run; discriminate).
    run. destruct hf as [h|]; simpl in E.
    + destruct (h _ _ _) as [[r out] be']. simpl in E.
      destruct (sizeof_res <? length out); simpl in E; [discriminate|].
      apply (finish r out) in E; [|reflexivity]. exact E.
    + apply (finish (-1)%Z []) in E; [|reflexivity]. exact E.
Qed.

End DispatchFacts.

(* ------------------------------------------------------------------ *)
(** ** A reply, built and read back *)

Section RoundTrip.
Context {P : platform} {B : Type}.
Local Open Scope nat_scope.
Local Open Scope list_scope.
Local Open Scope tm_scope.
Implicit Types s p : state B.

Lemma firstn_prefix (a b : list byte) n :
  length a = n -> firstn n (a ++ b) = a.
Proof.
  intros <-. rewrite firstn_app, Nat.sub_diag, firstn_all. simpl.
  apply app_nil_r.
Qed.

Lemma skipn_prefix (a b : list byte) n :
  length a = n -> skipn n (a ++ b) = b.
Proof.
  intros <-. rewrite skipn_app, Nat.sub_diag, skipn_all. reflexivity.
Qed.

(** Reduce the accesses to the state, and nothing else. *)
Ltac fields :=
  cbn [handler_update handler_check handler_lookup handler_fetch quit ibuf
       imsg rlen rdata buf backend fd_in fd_out log trace
       set_ibuf set_imsg set_rlen set_rdata set_buf set_trace
       hdr data imsg_free].

(** Building the reply of a found value. *)
Lemma build_found r (v : list byte) s :
  buf s = None ->
  IMSG_HEADER_SIZE + 1024 <= MAX_IMSGSIZE ->
  IMSG_HEADER_SIZE + (4 + (length v + 1)) <= MAX_IMSGSIZE ->
  exists s1,
    (table_msg_add (store32 order r) ;;
     table_msg_add (v ++ [x00]) ;;
     table_msg_close) s = Ok tt s1 /\
    queued s s1 [Frame PROC_TABLE_OK (store32 order r ++ v ++ [x00])].
Proof.
  intros Hb H1 H2.
  destruct s as [hu hc hl hf q ib im rl rd bf be fi fo fw lg tr].
  simpl in Hb. subst bf.
  rewrite bind_run, table_msg_add_first;
    [ | reflexivity | exact H1 | rewrite length_store32; lia ].
  simpl. rewrite bind_run.
  erewrite table_msg_add_more;
    [ | reflexivity
      | simpl; rewrite length_store32, length_app; simpl; lia ].
  simpl. erewrite table_msg_close_some by reflexivity.
  eexists. split; [reflexivity|]. reflexivity.
Qed.

(** Reading a result and a string of known length off a payload. *)
Lemma read_found r (v : list byte) ty p :
  (- 2 ^ 31 <= r < 2 ^ 31)%Z ->
  ~ In x00 v ->
  dispatching (Frame ty (store32 order r ++ v ++ [x00])) p ->
  exists p',
    (a <- table_msg_get true 4 ;;
     b <- table_msg_get true (length v + 1) ;;
     table_msg_end ;;
     ret (load_int order a, strz b)) p = Ok (r, Some v) p'.
Proof.
  intros Hr Hv (D1 & D2 & D3 & D4).
  destruct p as [hu hc hl hf q ib im rl rd bf be fi fo fw lg tr].
  simpl in *. subst rd rl.
  remember (store32 order r ++ v ++ [x00]) as payload eqn:Hpay.
  assert (Hlen : length payload = 4 + (length v + 1)).
  { subst payload. now rewrite !length_app, length_store32. }
  rewrite bind_run.
  rewrite (@table_msg_get_copy B 4 _ payload);
    [ | lia | simpl; lia | exact D2 | simpl; lia ].
  fields. rewrite bind_run.
  rewrite (@table_msg_get_copy B (length v + 1) _ payload);
    [ | lia | simpl; lia | exact D2 | simpl; lia ].
  fields. rewrite bind_run, table_msg_end_ok by (simpl; lia).
  unfold ret. subst payload. rewrite skipn_O.
  rewrite firstn_prefix by apply length_store32.
  rewrite skipn_prefix by apply length_store32.
  rewrite firstn_all2 by (rewrite length_app; simpl; lia).
  rewrite load_store_int, to_int_small by exact Hr.
  change (v ++ [x00]) with (v ++ x00 :: []).
  rewrite strz_terminated by exact Hv.
  eexists. reflexivity.
Qed.

(** C8.  The reply to a LOOKUP that found ["10.0.0.1"]: adding the
    4-byte result 1 and then the nine bytes of the string with its NUL
    queues one frame of thirteen bytes; taking four bytes and then
    nine off that payload gives back the result 1 and the string
    ["10.0.0.1"], and leaves nothing behind. *)
Theorem lookup_reply_round_trip s :
  sane_platform P ->
  buf s = None ->
  exists s1 payload,
    (table_msg_add (store32 order 1) ;;
     table_msg_add (Example.addr ++ [x00]) ;;
     table_msg_close) s = Ok tt s1 /\
    queued s s1 [Frame PROC_TABLE_OK payload] /\
    length payload = 13 /\
    forall ty p,
      dispatching (Frame ty payload) p ->
      exists p',
        (a <- table_msg_get true 4 ;;
         b <- table_msg_get true 9 ;;
         table_msg_end ;;
         ret (load_int order a, strz b)) p = Ok (1%Z, Some Example.addr) p'.
Proof.
  intros [Hh Hm] Hb.
  destruct (@build_found 1%Z Example.addr s Hb Hm) as (s1 & R & Hq).
  { change (length Example.addr) with 8. lia. }
  exists s1, (store32 order 1 ++ Example.addr ++ [x00]).
  split; [exact R|]. split; [exact Hq|].
  split; [now rewrite !length_app, length_store32|].
  intros ty p D.
  apply (@read_found 1%Z Example.addr ty p); [lia | | exact D].
  unfold Example.addr, Example.bytes_of. simpl.
  intros H. repeat (destruct H as [H|H]; [discriminate H|]). exact H.
Qed.

End RoundTrip.

(* ------------------------------------------------------------------ *)
(** ** The session loop *)

Section SessionFacts.
Context {P : platform} {B : Type}.
Local Open Scope string_scope.
Local Open Scope nat_scope.
Local Open Scope list_scope.
Implicit Types s : state B.

Lemma dispatch_close s :
  hdr_type (hdr (imsg s)) = PROC_TABLE_CLOSE ->
  table_msg_dispatch s =
  Ok tt (set_quit 1%Z
           (set_trace (trace s ++ [EvDispatch PROC_TABLE_CLOSE]) s)).
Proof.
  intros H.
  destruct s as [hu hc hl hf q ib [[ty n] d] rl rd bf be fi fo fw lg tr].
  simpl in H. subst ty. reflexivity.
Qed.

(** A dispatch of anything but CLOSE leaves no CLOSE in the history. *)
Lemma dispatch_other s :
  hdr_type (hdr (imsg s)) <> PROC_TABLE_CLOSE ->
  exists evs,
    trace (final (table_msg_dispatch s)) = trace s ++ evs /\
    Forall (fun e => e <> EvDispatch PROC_TABLE_CLOSE) evs.
Proof.
  intros H.
  destruct (@dispatch_history P B is_work
              ltac:(intros; exact I) ltac:(intros; exact I) s)
    as (evs & E & F).
  exists (EvDispatch (hdr_type (hdr (imsg s))) :: evs). split; [exact E|].
  constructor; [congruence|].
  eapply Forall_impl; [|exact F].
  intros e He ->. exact He.
Qed.

Lemma close_last_without evs :
  Forall (fun e => e <> EvDispatch PROC_TABLE_CLOSE) evs -> close_last evs.
Proof.
  induction 1 as [|e evs He _ IH]; simpl; [exact I|].
  split; [intros ->; now elim He | exact IH].
Qed.

Lemma close_last_app evs1 evs2 :
  Forall (fun e => e <> EvDispatch PROC_TABLE_CLOSE) evs1 ->
  close_last evs2 -> close_last (evs1 ++ evs2).
Proof.
  induction 1 as [|e evs He _ IH]; simpl; intros H2; [exact H2|].
  split; [intros ->; now elim He | now apply IH].
Qed.

Lemma not_in_without evs :
  Forall (fun e => e <> EvDispatch PROC_TABLE_CLOSE) evs ->
  ~ In (EvDispatch PROC_TABLE_CLOSE) evs.
Proof.
  intros F H. rewrite Forall_forall in F. now apply (F _ H).
Qed.

(** [close_last], said with positions: whatever comes after a dispatched
    CLOSE is empty. *)
Lemma close_last_split evs :
  close_last evs <->
  (forall pre post,
      evs = pre ++ EvDispatch PROC_TABLE_CLOSE :: post -> post = []).
Proof.
  induction evs as [|e evs IH]; simpl.
  - split; [|auto]. intros _ [|x pre] post H; discriminate.
  - split.
    + intros [Hhead Htail] [|x pre] post H; simpl in H.
      * injection H as -> ->. now apply Hhead.
      * injection H as _ ->. now apply (proj1 IH Htail pre post).
    + intros H. split.
      * intros ->. now apply (H [] evs).
      * apply IH. intros pre post ->. now apply (H (e :: pre) post).
Qed.

(** The turn of the loop that finds a CLOSE frame. *)
Lemma loop_body_close s f rest :
  IMSG_HEADER_SIZE + length (f_payload f) <> 0 ->
  rx (ibuf s) = RxFrame f :: rest ->
  f_type f = PROC_TABLE_CLOSE ->
  let len := IMSG_HEADER_SIZE + length (f_payload f) in
  loop_body s =
  Ok false
     (set_quit 1%Z
        (set_trace
           (trace s ++ [EvGet (Z.of_nat len); EvDispatch PROC_TABLE_CLOSE])
           (set_rlen (length (f_payload f))
              (set_rdata 0
                 (set_imsg (Imsg (ImsgHdr (f_type f) len)
                                 (Some (f_payload f)))
                    (set_ibuf (ImsgBuf rest (w (ibuf s))) s)))))).
Proof.
  intros Hh Hrx Hc len.
  destruct s as [hu hc hl hf q [rxl wl] im rl rd bf be fi fo fw lg tr].
  destruct f as [ty pl]. simpl in Hh, Hrx, Hc, len. subst rxl ty.
  unfold loop_body. rewrite bind_run. unfold do_imsg_get. simpl.
  fold len.
  replace (Z.of_nat len =? -1)%Z with false
    by (symmetry; apply Z.eqb_neq; lia).
  replace (Z.of_nat len =? 0)%Z with false
    by (symmetry; apply Z.eqb_neq; unfold len; lia).
  unfold table_msg_dispatch, bind, modify, gets, emit, ret. simpl.
  rewrite <- app_assoc. simpl.
  replace (len - IMSG_HEADER_SIZE) with (length pl) by (unfold len; lia).
  reflexivity.
Qed.

(** The turn of the loop that finds a frame hands it to the dispatcher
    with the cursor on the whole of its payload, whatever the cursor was
    before. *)
Lemma loop_body_frame s f rest :
  IMSG_HEADER_SIZE + length (f_payload f) <> 0 ->
  rx (ibuf s) = RxFrame f :: rest ->
  exists s2,
    dispatching f s2 /\
    buf s2 = buf s /\
    loop_body s =
    bind table_msg_dispatch
      (fun _ => bind (gets (quit (B := B)))
         (fun q => if negb (q =? 0)%Z then ret false
                   else bind do_imsg_flush (fun _ => ret true))) s2.
Proof.
  intros Hz Hrx.
  destruct s as [hu hc hl hf q [rxl wl] im rl rd bf be fi fo fw lg tr].
  destruct f as [ty pl]. simpl in Hz, Hrx. subst rxl.
  set (len := IMSG_HEADER_SIZE + length pl).
  exists (State hu hc hl hf q (ImsgBuf rest wl)
                (Imsg (ImsgHdr ty len) (Some pl)) (length pl) 0 bf be fi fo fw
                lg (tr ++ [EvGet (Z.of_nat len)])).
  split; [repeat split|]. split; [reflexivity|].
  unfold loop_body. rewrite bind_run. unfold do_imsg_get. simpl.
  fold len.
  replace (Z.of_nat len =? -1)%Z with false
    by (symmetry; apply Z.eqb_neq; lia).
  replace (Z.of_nat len =? 0)%Z with false
    by (symmetry; apply Z.eqb_neq; unfold len; lia).
  simpl. rewrite bind_run. unfold modify at 1. rewrite bind_run.
  unfold modify at 1. simpl.
  replace (len - IMSG_HEADER_SIZE) with (length pl) by (unfold len; lia).
  reflexivity.
Qed.

(** A flush sends a first part of the write queue and leaves the rest
    queued; it touches nothing else but the history and what the
    flushes to come will meet. *)
Lemma do_imsg_flush_run s :
  exists n sent rest,
    w (ibuf s) = sent ++ rest /\
    do_imsg_flush s =
    Ok n (set_trace (trace s ++ [EvFlush])
            (set_fd_wr (tl (fd_wr s))
               (set_fd_out (fd_out s ++ sent)
                  (set_ibuf (ImsgBuf (rx (ibuf s)) rest) s)))).
Proof.
  unfold do_imsg_flush. destruct (fd_wr s) as [|[|k] l].
  - exists 0%Z, (w (ibuf s)), []. now rewrite app_nil_r.
  - exists 0%Z, (w (ibuf s)), []. now rewrite app_nil_r.
  - exists (-1)%Z, (firstn k (w (ibuf s))), (skipn k (w (ibuf s))).
    now rewrite firstn_skipn.
Qed.

(** What one turn of the loop adds to the history: either no CLOSE at
    all, or a CLOSE as its very last event, and then the turn says
    [break] with [quit] set. *)
Lemma loop_body_history s :
  exists evs,
    trace (final (loop_body s)) = trace s ++ evs /\
    (Forall (fun e => e <> EvDispatch PROC_TABLE_CLOSE) evs \/
     exists pre s',
       evs = pre ++ [EvDispatch PROC_TABLE_CLOSE] /\
       Forall (fun e => e <> EvDispatch PROC_TABLE_CLOSE) pre /\
       loop_body s = Ok false s' /\ quit s' = 1%Z).
Proof.
  destruct s as [hu hc hl hf q [rxl wl] im rl rd bf be fi fo fw lg tr].
  destruct rxl as [|[f|] rest].
  - (* nothing buffered: read *)
    destruct fi as [|[| |items] fi']; eexists;
      (split; [simpl; rewrite <- app_assoc; reflexivity|]);
      left; repeat constructor; discriminate.
  - (* a frame *)
    set (n := Z.of_nat (IMSG_HEADER_SIZE + length (f_payload f))).
    assert (Hn : (n =? -1)%Z = false) by (apply Z.eqb_neq; lia).
    assert (Hty : f_type f = PROC_TABLE_CLOSE \/
                  f_type f <> PROC_TABLE_CLOSE)
      by (destruct (f_type f); (now left) || (right; discriminate)).
    destruct (Nat.eq_dec (IMSG_HEADER_SIZE + length (f_payload f)) 0)
      as [Hz|Hz].
    + (* a frame of length zero is no frame: read *)
      unfold loop_body. rewrite bind_run. unfold do_imsg_get. simpl.
      fold n. rewrite Hn.
      replace (n =? 0)%Z with true
        by (symmetry; apply Z.eqb_eq; unfold n; lia).
      simpl. rewrite bind_run.
      destruct fi as [|[| |items] fi']; eexists;
        (split; [simpl; rewrite <- app_assoc; reflexivity|]);
        left; repeat constructor; discriminate.
    + destruct Hty as [Hc|Hc].
      * erewrite loop_body_close; [|exact Hz|reflexivity|exact Hc]. simpl.
        exists ([EvGet n] ++ [EvDispatch PROC_TABLE_CLOSE]).
        split; [reflexivity|].
        right. exists [EvGet n]. eexists.
        split; [reflexivity|]. split; [repeat constructor; discriminate|].
        split; reflexivity.
      * unfold loop_body. rewrite bind_run. unfold do_imsg_get. simpl.
        fold n. rewrite Hn.
        replace (n =? 0)%Z with false
          by (symmetry; apply Z.eqb_neq; unfold n; lia).
        simpl. rewrite bind_run. unfold modify at 1. rewrite bind_run.
        unfold modify at 1. simpl. rewrite bind_run.
        match goal with
        | |- context [table_msg_dispatch ?s2] => set (s2' := s2)
        end.
        destruct (@dispatch_other s2' Hc) as (evs & E & F).
        destruct (table_msg_dispatch s2') as [u s3|flt s3]; simpl in E.
        -- rewrite bind_run. unfold gets at 1.
           destruct (quit s3 =? 0)%Z; simpl.
           ++ exists (EvGet n :: evs ++ [EvFlush]).
              split.
              ** destruct (do_imsg_flush_run s3) as (k & out & kept & _ & R).
                 unfold bind, ret. rewrite R.
                 destruct s3. simpl in *. rewrite E. subst s2'. simpl.
                 now rewrite <- !app_assoc.
              ** left. constructor; [discriminate|].
                 apply Forall_app. split; [exact F|].
                 repeat constructor. discriminate.
           ++ exists (EvGet n :: evs). split.
              ** unfold ret. simpl. rewrite E. subst s2'. simpl.
                 now rewrite <- !app_assoc.
              ** left. constructor; [discriminate | exact F].
        -- exists (EvGet n :: evs). split.
           ++ simpl. rewrite E. subst s2'. simpl. now rewrite <- !app_assoc.
           ++ left. constructor; [discriminate | exact F].
  - (* a bad header *)
    eexists. split; [simpl; reflexivity|].
    left. repeat constructor. discriminate.
Qed.

(** Every turn that asks for another consumes some of the input. *)
Lemma loop_body_pending s s' :
  loop_body s = Ok true s' -> pending s' < pending s.
Proof.
  destruct s as [hu hc hl hf q [rxl wl] im rl rd bf be fi fo fw lg tr].
  destruct rxl as [|[f|] rest].
  - unfold loop_body, bind, do_imsg_get, do_imsg_read, log_warnx, modify,
      ret. simpl.
    destruct fi as [|[| |items] fi']; simpl; try discriminate.
    intros [= <-]. unfold pending. simpl. lia.
  - unfold loop_body. rewrite bind_run. unfold do_imsg_get. simpl.
    set (n := Z.of_nat (IMSG_HEADER_SIZE + length (f_payload f))).
    replace (n =? -1)%Z with false by (symmetry; apply Z.eqb_neq; lia).
    destruct (n =? 0)%Z; simpl.
    + unfold bind, do_imsg_read, log_warnx, modify, ret. simpl.
      destruct fi as [|[| |items] fi']; simpl; try discriminate.
      intros [= <-]. unfold pending. simpl. rewrite length_app. lia.
    + rewrite bind_run. unfold modify at 1. rewrite bind_run.
      unfold modify at 1. simpl. rewrite bind_run.
      match goal with
      | |- context [table_msg_dispatch ?s2] =>
          destruct (keeps_table_msg_dispatch s2) as (K1 & K2);
          destruct (table_msg_dispatch s2) as [u s3|flt s3]
      end; [|discriminate].
      simpl in K1, K2. rewrite bind_run. unfold gets at 1.
      destruct (quit s3 =? 0)%Z; simpl; [|discriminate].
      destruct (do_imsg_flush_run s3) as (k & out & kept & _ & R).
      unfold bind, ret. rewrite R. intros [= <-].
      unfold pending. destruct s3. simpl in *. rewrite K1, K2. lia.
  - discriminate.
Qed.

(** The loop is left after at most [pending] turns, and one more. *)
Lemma session_loop_total fuel s :
  pending s < fuel -> exists r, session_loop fuel s = Some r.
Proof.
  revert s. induction fuel as [|fuel IH]; intros s H; [lia|].
  simpl. destruct (loop_body s) as [[|] s1|flt s1] eqn:L; eauto.
  apply IH. apply loop_body_pending in L. lia.
Qed.

(** In the history of the whole loop a dispatched CLOSE comes last. *)
Lemma session_loop_history fuel s r :
  session_loop fuel s = Some r ->
  exists evs,
    trace (final r) = trace s ++ evs /\
    close_last evs /\
    (In (EvDispatch PROC_TABLE_CLOSE) evs ->
     exists s', r = Ok tt s' /\ quit s' = 1%Z).
Proof.
  revert s. induction fuel as [|fuel IH]; intros s; [discriminate|].
  simpl. destruct (loop_body_history s) as (evs1 & E1 & H1).
  destruct (loop_body s) as [[|] s1|flt s1] eqn:L; simpl in E1.
  - (* another turn *)
    intros R. destruct (IH _ R) as (evs2 & E2 & C2 & Q2).
    destruct H1 as [F1|(pre & s' & _ & _ & L' & _)]; [|discriminate].
    exists (evs1 ++ evs2). rewrite E2, E1, app_assoc.
    split; [reflexivity|]. split; [now apply close_last_app|].
    intros Hin. apply in_app_or in Hin. destruct Hin as [Hin|Hin].
    + now apply not_in_without in F1.
    + now apply Q2.
  - (* break *)
    intros [= <-]. exists evs1. split; [exact E1|].
    destruct H1 as [F1|(pre & s' & -> & F1 & [= <-] & Hq)].
    + split; [now apply close_last_without|].
      intros Hin. now apply not_in_without in F1.
    + split.
      * apply close_last_app; [exact F1|]. simpl. auto.
      * intros _. now exists s1.
  - (* abort *)
    intros [= <-]. exists evs1. split; [exact E1|].
    destruct H1 as [F1|(pre & s' & _ & _ & L' & _)]; [|discriminate].
    split; [now apply close_last_without|].
    intros Hin. now apply not_in_without in F1.
Qed.

(** C7.  [table_api_dispatch] always leaves its loop.  In what it did
    from start to end, nothing comes after a dispatched CLOSE: no reply
    is queued and nothing is flushed for it, and no frame is read or
    dispatched after it; the run then ends normally with [quit] set.
    And the turn of the loop that finds a CLOSE frame in the read
    buffer is the last: the write queue and what was sent are as
    before, and the frames behind the CLOSE are still in the buffer,
    unread. *)
Theorem close_ends_session s :
  (exists r evs,
      table_api_dispatch s = Some r /\
      trace (final r) = trace s ++ evs /\
      (forall pre post,
          evs = pre ++ EvDispatch PROC_TABLE_CLOSE :: post -> post = []) /\
      (In (EvDispatch PROC_TABLE_CLOSE) evs ->
       exists s', r = Ok 1%Z s' /\ quit s' = 1%Z)) /\
  (forall f rest fuel,
      0 < IMSG_HEADER_SIZE ->
      rx (ibuf s) = RxFrame f :: rest ->
      f_type f = PROC_TABLE_CLOSE ->
      exists s' n,
        session_loop (S fuel) s = Some (Ok tt s') /\
        quit s' = 1%Z /\
        trace s' = trace s ++ [EvGet n; EvDispatch PROC_TABLE_CLOSE] /\
        w (ibuf s') = w (ibuf s) /\
        fd_out s' = fd_out s /\
        rx (ibuf s') = rest /\
        fd_in s' = fd_in s).
Proof.
  split.
  - unfold table_api_dispatch.
    set (s0 := set_ibuf imsg_init s).
    destruct (@session_loop_total (S (pending s0)) s0) as [r R]; [lia|].
    destruct (session_loop_history _ _ R) as (evs & E & C & Q).
    rewrite R.
    assert (T0 : trace s0 = trace s) by (subst s0; now destruct s).
    rewrite T0 in E.
    destruct r as [u s1|flt s1]; simpl in E.
    + exists (Ok 1%Z s1), evs.
      split; [reflexivity|]. split; [exact E|].
      split; [now apply close_last_split|].
      intros Hin. destruct (Q Hin) as (s' & [= _ <-] & Hq). now exists s1.
    + exists (Abort flt s1), evs.
      split; [reflexivity|]. split; [exact E|].
      split; [now apply close_last_split|].
      intros Hin. destruct (Q Hin) as (s' & Hr & _). discriminate.
  - intros f rest fuel Hh Hrx Hc. simpl.
    rewrite (@loop_body_close s f rest) by (auto; lia).
    eexists. eexists. split; [reflexivity|].
    destruct s as [hu hc hl hf q [rxl wl] im rl rd bf be fi fo fw lg tr].
    simpl. repeat split.
Qed.

End SessionFacts.

(* ------------------------------------------------------------------ *)
(** ** The statements at work on concrete runs *)

Section Runs.
Import Example.
Local Open Scope list_scope.

(** An UPDATE with no handler registered is answered with [1]. *)
Lemma update_without_handler_replies_one :
  let s := receive (Frame PROC_TABLE_UPDATE []) start in
  no_handler PROC_TABLE_UPDATE s /\
  exists s',
    @table_msg_dispatch machine unit s = Ok tt s' /\
    w (ibuf s') = [Frame PROC_TABLE_OK (le32 1)] /\
    load_int LittleEndian (le32 1) = 1%Z /\
    load_int LittleEndian (le32 1) <> (-1)%Z.
Proof.
  split; [reflexivity|].
  eexists. split; [vm_compute; reflexivity|].
  split; [reflexivity|]. split; [reflexivity|].
  vm_compute. discriminate.
Qed.

(** FETCH(type=0) with no handler registered: the reply is the four
    bytes of [-1] and nothing more. *)
Lemma missing_handler_result_witness :
  let s := receive (Frame PROC_TABLE_FETCH (le32 0)) start in
  let s' := final (@table_msg_dispatch machine unit s) in
  queued s s' [Frame PROC_TABLE_OK (le32 (-1))] /\
  load_int LittleEndian (le32 (-1)) = (-1)%Z.
Proof.
  intros s s'.
  apply (@missing_handler_result machine unit
           (Frame PROC_TABLE_FETCH (le32 0)) s s').
  - split; apply Nat.leb_le; reflexivity.
  - repeat split.
  - reflexivity.
  - reflexivity.
  - vm_compute. reflexivity.
Defined.

(** OPEN with the supported version is acknowledged. *)
Lemma open_version_checked_witness :
  let s := receive (Frame PROC_TABLE_OPEN (le32 1)) start in
  exists s',
    @table_msg_dispatch machine unit s = Ok tt s' /\
    queued s s' [Frame PROC_TABLE_OK []] /\
    fd_out s' = fd_out s /\ quit s' = quit s.
Proof.
  intros s.
  apply (@open_version_checked machine unit
           (Frame PROC_TABLE_OPEN (le32 1)) s).
  - split; apply Nat.leb_le; reflexivity.
  - reflexivity.
  - reflexivity.
  - repeat split.
  - reflexivity.
Defined.

(** CHECK(type=1, key="user@example.com") reaches the handler with
    that key: the backend knows this key alone, and the reply is 1. *)
Lemma key_validated_witness :
  let key := bytes_of "user@example.com" in
  let f := Frame PROC_TABLE_CHECK (le32 1 ++ key ++ [x00]) in
  let s := receive f backed in
  let s' := final (@table_msg_dispatch machine unit s) in
  exists evs,
    strz (key ++ [x00]) = Some key /\
    trace s' =
      trace s ++ EvDispatch PROC_TABLE_CHECK
              :: EvInvoke (CallCheck (load_int LittleEndian (le32 1)) key)
              :: evs /\
    Forall is_queue evs /\
    queued s s' [Frame PROC_TABLE_OK (le32 1)].
Proof.
  intros key f s s'.
  assert (Hreg : registered (f_type f) s) by (simpl; discriminate).
  assert (E : strz (key ++ [x00]) = Some key) by reflexivity.
  destruct (proj2 (@key_validated machine unit f s (le32 1) (key ++ [x00])
                     (or_introl eq_refl) eq_refl eq_refl
                     (conj eq_refl (conj eq_refl (conj eq_refl eq_refl))))
              key eq_refl Hreg)
    as (k & evs & Hk & Ht & Hq & Hc & _).
  rewrite E in Hk. injection Hk as <-.
  exists evs. split; [exact E|]. split; [exact Ht|]. split; [exact Hq|].
  destruct (Hc check_one eq_refl eq_refl) as (_ & Hr).
  assert (R : @table_msg_dispatch machine unit s = Ok tt s')
    by (vm_compute; reflexivity).
  pose proof (Hr eq_refl s' R) as Q.
  vm_compute in Q. vm_compute. exact Q.
Defined.

(** FETCH with a backend that has a value: the reply carries it. *)
Lemma value_iff_found_witness :
  let s := receive (Frame PROC_TABLE_FETCH (le32 0)) backed in
  let s' := final (@table_msg_dispatch machine unit s) in
  exists r tail,
    queued s s' [Frame PROC_TABLE_OK (le32 r ++ tail)] /\
    load_int LittleEndian (le32 r) = r /\
    (r = 1%Z -> exists v, ~ In x00 v /\ tail = v ++ [x00]) /\
    (r <> 1%Z -> tail = []).
Proof.
  intros s s'.
  apply (@value_iff_found machine unit
           (Frame PROC_TABLE_FETCH (le32 0)) s s').
  - right. reflexivity.
  - repeat split.
  - reflexivity.
  - vm_compute. reflexivity.
Defined.

(** Taking four of the nine bytes of a payload. *)
Lemma table_msg_get_spec_witness :
  let s := receive (Frame PROC_TABLE_FETCH (addr ++ [x00])) start in
  exists bs d,
    table_msg_get true 4 s =
      Ok bs (set_rdata (rdata s + 4) (set_rlen (rlen s - 4) s)) /\
    data (imsg s) = Some d /\
    (true = true -> bs = firstn 4 (skipn (rdata s) d) /\ length bs = 4) /\
    (true = false -> bs = []).
Proof.
  intros s.
  apply (proj2 (@table_msg_get_spec unit true 4 s)).
  - simpl. lia.
  - exists (addr ++ [x00]). split; [reflexivity|]. simpl. lia.
Defined.

(** Finishing a message that was read to its end. *)
Lemma table_msg_end_spec_witness :
  let s := receive (Frame PROC_TABLE_UPDATE []) start in
  exists s',
    table_msg_end s = Ok tt s' /\
    s' = set_imsg (imsg_free (imsg s)) s /\
    data (imsg s') = None /\
    rlen s' = 0 /\
    forall dst n, 0 < n -> fatal (table_msg_get dst n s').
Proof.
  intros s.
  apply (proj2 (@table_msg_end_spec unit s)).
  reflexivity.
Defined.

(** A CLOSE with an UPDATE behind it: the UPDATE stays in the buffer. *)
Lemma close_ends_session_witness :
  let later := RxFrame (Frame PROC_TABLE_UPDATE []) in
  let s := set_ibuf (ImsgBuf [RxFrame (Frame PROC_TABLE_CLOSE []); later] [])
                    start in
  exists s' n,
    @session_loop machine unit 1 s = Some (Ok tt s') /\
    quit s' = 1%Z /\
    trace s' = trace s ++ [EvGet n; EvDispatch PROC_TABLE_CLOSE] /\
    w (ibuf s') = w (ibuf s) /\
    fd_out s' = fd_out s /\
    rx (ibuf s') = [later] /\
    fd_in s' = fd_in s.
Proof.
  intros later s.
  apply (proj2 (@close_ends_session machine unit s)
           (Frame PROC_TABLE_CLOSE []) [later] 0).
  - simpl. lia.
  - reflexivity.
  - reflexivity.
Defined.

(** The round trip on the example machine. *)
Lemma lookup_reply_round_trip_witness :
  exists s1 payload,
    bind (table_msg_add (P := machine) (le32 1))
      (fun _ => bind (table_msg_add (P := machine) (addr ++ [x00]))
                  (fun _ => table_msg_close)) start = Ok tt s1 /\
    queued start s1 [Frame PROC_TABLE_OK payload] /\
    length payload = 13 /\
    forall ty (p : state unit),
      dispatching (Frame ty payload) p ->
      exists p',
        bind (table_msg_get true 4)
          (fun a => bind (table_msg_get true 9)
             (fun b => bind table_msg_end
                (fun _ => ret (load_int LittleEndian a, strz b)))) p =
        Ok (1%Z, Some addr) p'.
Proof.
  apply (@lookup_reply_round_trip machine unit start).
  - split; apply Nat.leb_le; reflexivity.
  - reflexivity.
Defined.

(** CHECK with the key bytes "user@example.com", NUL, "cd", NUL: the
    whole payload is consumed, and the handler, which knows
    "user@example.com" alone, answers 1. *)
Lemma embedded_nul_key_witness :
  let k1 := bytes_of "user@example.com" in
  let k2 := bytes_of "cd" in
  let f := Frame PROC_TABLE_CHECK (le32 1 ++ k1 ++ x00 :: k2 ++ [x00]) in
  let s := receive f backed in
  let s' := final (@table_msg_dispatch machine unit s) in
  (rlen s' = 0 /\ rdata s' = length (f_payload f) /\
   data (imsg s') = None) /\
  (exists evs,
     trace s' =
       trace s ++ EvDispatch PROC_TABLE_CHECK
               :: EvInvoke (CallCheck (load_int LittleEndian (le32 1)) k1)
               :: evs /\
     Forall is_queue evs) /\
  queued s s' [Frame PROC_TABLE_OK (le32 1)].
Proof.
  intros k1 k2 f s s'.
  assert (Hk : ~ In x00 k1).
  { simpl. intros H.
    repeat (destruct H as [H|H]; [discriminate H|]). exact H. }
  assert (D : dispatching f s).
  { split; [reflexivity|]. split; [reflexivity|]. split; reflexivity. }
  assert (Hreg : registered (f_type f) s) by (simpl; discriminate).
  assert (R : @table_msg_dispatch machine unit s = Ok tt s')
    by (vm_compute; reflexivity).
  destruct (@embedded_nul_key machine unit f s (le32 1) k1 k2
              (or_introl eq_refl) eq_refl eq_refl Hk D)
    as (C & T & K & _).
  split; [|split].
  - destruct C as [C|(x & A)]; [exact C|].
    rewrite R in A. discriminate A.
  - exact (T Hreg).
  - destruct (K check_one eq_refl eq_refl) as (_ & Hr).
    pose proof (Hr eq_refl s' R) as Q.
    vm_compute in Q. vm_compute. exact Q.
Defined.

(** *** Whole runs *)

(** The dispatcher on the spec's CHECK scenario: the handler answers 1
    and the reply is exactly the four bytes of 1. *)
Example check_scenario :
  let key := bytes_of "user@example.com" in
  let s := receive (Frame PROC_TABLE_CHECK (le32 1 ++ key ++ [x00])) backed in
  w (ibuf (final (@table_msg_dispatch machine unit s))) =
  [Frame PROC_TABLE_OK (le32 1)].
Proof. vm_compute. reflexivity. Qed.

(** A LOOKUP that finds its key: result 1, then the value and its NUL. *)
Example lookup_scenario :
  let s := receive (Frame PROC_TABLE_LOOKUP
                      (le32 0 ++ bytes_of "gw" ++ [x00])) backed in
  w (ibuf (final (@table_msg_dispatch machine unit s))) =
  [Frame PROC_TABLE_OK (le32 1 ++ addr ++ [x00])].
Proof. vm_compute. reflexivity. Qed.

(** A LOOKUP that misses: result 0 and no value. *)
Example lookup_miss_scenario :
  let s := receive (Frame PROC_TABLE_LOOKUP
                      (le32 0 ++ bytes_of "mx" ++ [x00])) backed in
  w (ibuf (final (@table_msg_dispatch machine unit s))) =
  [Frame PROC_TABLE_OK (le32 0)].
Proof. vm_compute. reflexivity. Qed.

(** OPEN with the next version: the process stops, nothing is queued. *)
Example open_skew_scenario :
  let s := receive (Frame PROC_TABLE_OPEN (le32 2)) start in
  exists s',
    @table_msg_dispatch machine unit s =
      Abort (Fatalx "table-api: terminating") s' /\
    w (ibuf s') = [].
Proof. eexists. split; vm_compute; reflexivity. Qed.

(** A session: OPEN, a LOOKUP, CLOSE, and an UPDATE that is never
    looked at.  Two replies go out; the loop returns 1. *)
Example session_scenario :
  let input :=
    [ReadData [RxFrame (Frame PROC_TABLE_OPEN (le32 1));
               RxFrame (Frame PROC_TABLE_LOOKUP
                          (le32 0 ++ bytes_of "gw" ++ [x00]))];
     ReadData [RxFrame (Frame PROC_TABLE_CLOSE []);
               RxFrame (Frame PROC_TABLE_UPDATE [])]] in
  exists s',
    @table_api_dispatch machine unit (set_fd_in input backed) =
      Some (Ok 1%Z s') /\
    fd_out s' = [Frame PROC_TABLE_OK [];
                 Frame PROC_TABLE_OK (le32 1 ++ addr ++ [x00])] /\
    w (ibuf s') = [] /\
    rx (ibuf s') = [RxFrame (Frame PROC_TABLE_UPDATE [])].
Proof.
  eexists. split; [vm_compute; reflexivity|].
  split; [vm_compute; reflexivity|].
  split; vm_compute; reflexivity.
Qed.

End Runs.


(* ------------------------------------------------------------------ *)
(** ** More on the framing layer and the reply builder *)

Section BuilderFacts.
Context {P : platform} {B : Type}.
Local Open Scope string_scope.
Local Open Scope nat_scope.
Local Open Scope list_scope.
Implicit Types s : state B.

Lemma firstn_add (l : list byte) a b :
  firstn (a + b) l = firstn a l ++ firstn b (skipn a l).
Proof.
  revert l. induction a as [|a IH]; intros l; [reflexivity|].
  destruct l as [|x l]; simpl.
  - now rewrite firstn_nil.
  - now rewrite IH.
Qed.

Lemma table_msg_get_none dst s : table_msg_get dst 0 s = Ok [] s.
Proof.
  unfold table_msg_get, bind, gets.
  replace (rlen s <? 0) with false by (symmetry; apply Nat.ltb_ge; lia).
  reflexivity.
Qed.

(** X1.  Two takes in a row are one take of the sum: the same bytes, the
    same cursor afterwards. *)
Theorem table_msg_get_twice (dst : bool) a b s :
  a + b <= rlen s ->
  (dst = true -> cursor_ok s) ->
  bind (table_msg_get dst a)
    (fun x => bind (table_msg_get dst b) (fun y => ret (x ++ y))) s =
  table_msg_get dst (a + b) s.
Proof.
  intros Hab Hc.
  destruct (Nat.eq_dec a 0) as [->|Ha].
  { rewrite bind_run, table_msg_get_none. simpl.
    rewrite bind_run. destruct (table_msg_get dst b s); reflexivity. }
  destruct (Nat.eq_dec b 0) as [->|Hb].
  { rewrite Nat.add_0_r, bind_run.
    destruct (table_msg_get dst a s) as [x s1|]; [|reflexivity].
    rewrite bind_run, table_msg_get_none. unfold ret.
    now rewrite app_nil_r. }
  destruct dst.
  - destruct (Hc eq_refl) as (d & Hd & Hlen).
    rewrite bind_run, (@table_msg_get_copy B a s d) by first [assumption|lia].
    rewrite bind_run.
    rewrite (@table_msg_get_copy B b _ d);
      [ | lia | destruct s; simpl in *; lia | destruct s; exact Hd
        | destruct s; simpl in *; lia ].
    rewrite (@table_msg_get_copy B (a + b) s d) by first [assumption|lia].
    unfold ret. destruct s as [hu hc hl hf q ib im rl rd bf be fi fo fw lg tr].
    simpl.
    rewrite firstn_add, skipn_skipn.
    rewrite Nat.sub_add_distr, Nat.add_assoc, (Nat.add_comm a rd).
    reflexivity.
  - rewrite bind_run, table_msg_get_skip by lia.
    rewrite bind_run, table_msg_get_skip by (destruct s; simpl in *; lia).
    rewrite table_msg_get_skip by lia.
    unfold ret. destruct s. simpl.
    now rewrite Nat.sub_add_distr, Nat.add_assoc.
Qed.

(** X2.  Exact consumption: after taking [n] of the remaining bytes the
    message can be finished exactly when [n] was all of them; otherwise
    finishing it is fatal. *)
Theorem take_then_end n s :
  n <= rlen s ->
  ((exists s', bind (table_msg_get false n) (fun _ => table_msg_end) s =
               Ok tt s') <-> n = rlen s) /\
  (n < rlen s ->
   fatal (bind (table_msg_get false n) (fun _ => table_msg_end) s)).
Proof.
  intros Hn.
  assert (R : forall s1, table_msg_get false n s = Ok [] s1 ->
                         rlen s1 = rlen s - n).
  { intros s1. destruct (Nat.eq_dec n 0) as [->|Hpos].
    - rewrite table_msg_get_none. intros [= <-]. lia.
    - rewrite table_msg_get_skip by lia. intros [= <-]. now destruct s. }
  assert (E : exists s1, table_msg_get false n s = Ok [] s1).
  { destruct (Nat.eq_dec n 0) as [->|Hpos].
    - rewrite table_msg_get_none. eauto.
    - rewrite table_msg_get_skip by lia. eauto. }
  destruct E as (s1 & E). specialize (R s1 E).
  rewrite bind_run, E. split; [split|].
  - intros (s' & H). destruct (Nat.eq_dec (rlen s1) 0) as [Hz|Hz]; [lia|].
    rewrite table_msg_end_fatal in H by exact Hz. discriminate.
  - intros ->. rewrite table_msg_end_ok by lia. eauto.
  - intros Hlt. rewrite table_msg_end_fatal by lia. red. eauto.
Qed.

(** *** The reply under construction *)

(** X3.  Appending in two steps is appending the concatenation. *)
Theorem table_msg_add_app a b s s' :
  table_msg_add (a ++ b) s = Ok tt s' ->
  bind (table_msg_add a) (fun _ => table_msg_add b) s = Ok tt s'.
Proof.
  destruct s as [hu hc hl hf q ib im rl rd bf be fi fo fw lg tr].
  unfold bind, table_msg_add, bind, gets, modify, ret, log_warnx, fatalx.
  simpl. destruct bf as [b0|]; simpl.
  - unfold imsg_add. rewrite length_app.
    destruct (MAX_IMSGSIZE <? _) eqn:L1; [discriminate|].
    apply Nat.ltb_ge in L1. intros [= <-].
    replace (MAX_IMSGSIZE <? IMSG_HEADER_SIZE + length (ib_data b0) + length a)
      with false by (symmetry; apply Nat.ltb_ge; lia).
    simpl. rewrite length_app.
    replace (MAX_IMSGSIZE <?
             IMSG_HEADER_SIZE + (length (ib_data b0) + length a) + length b)
      with false by (symmetry; apply Nat.ltb_ge; lia).
    simpl. now rewrite app_assoc.
  - unfold imsg_create.
    destruct (MAX_IMSGSIZE <? IMSG_HEADER_SIZE + 1024); simpl;
      [discriminate|].
    unfold imsg_add. simpl. rewrite length_app.
    destruct (MAX_IMSGSIZE <? _) eqn:L1; [discriminate|].
    apply Nat.ltb_ge in L1. intros [= <-].
    replace (MAX_IMSGSIZE <? IMSG_HEADER_SIZE + 0 + length a)
      with false by (symmetry; apply Nat.ltb_ge; lia).
    simpl.
    replace (MAX_IMSGSIZE <? IMSG_HEADER_SIZE + length a + length b)
      with false by (symmetry; apply Nat.ltb_ge; lia).
    reflexivity.
Qed.

(** X4.  Closing a reply leaves no reply under construction: what is added
    next starts a message of its own, and the two are queued one after
    the other. *)
Theorem replies_do_not_mix a b s :
  sane_platform P ->
  buf s = None ->
  IMSG_HEADER_SIZE + length a <= MAX_IMSGSIZE ->
  IMSG_HEADER_SIZE + length b <= MAX_IMSGSIZE ->
  exists s',
    bind (table_msg_add a)
      (fun _ => bind table_msg_close
         (fun _ => bind (table_msg_add b) (fun _ => table_msg_close))) s =
    Ok tt s' /\
    queued s s' [Frame PROC_TABLE_OK a; Frame PROC_TABLE_OK b] /\
    buf s' = None.
Proof.
  intros [Hh Hm] Hb Ha Hbb.
  destruct s as [hu hc hl hf q ib im rl rd bf be fi fo fw lg tr].
  simpl in Hb. subst bf.
  rewrite bind_run, table_msg_add_first by first [reflexivity|assumption].
  simpl. rewrite bind_run.
  erewrite table_msg_close_some by reflexivity. simpl.
  rewrite bind_run, table_msg_add_first by first [reflexivity|assumption].
  simpl. erewrite table_msg_close_some by reflexivity. simpl.
  eexists. split; [reflexivity|]. unfold queued. simpl.
  now rewrite <- app_assoc.
Qed.

End BuilderFacts.


(* ------------------------------------------------------------------ *)
(** ** More on the dispatcher *)

Section DispatcherFacts.
Context {P : platform} {B : Type}.
Local Open Scope string_scope.
Local Open Scope nat_scope.
Local Open Scope list_scope.
Implicit Types s : state B.

Ltac unseen := intros ? []; reflexivity.

(** Show that a step leaves a part of the state alone. *)
Ltac stride :=
  repeat first
    [ apply kept_table_msg_get; unseen
    | apply kept_table_msg_end; unseen
    | apply kept_table_msg_add; unseen
    | apply kept_table_msg_close; unseen
    | apply kept_add_string; unseen
    | apply kept_do_imsg_compose; unseen
    | apply kept_call_update; unseen
    | apply kept_call_check; unseen
    | apply kept_call_lookup; unseen
    | apply kept_call_fetch; unseen
    | apply kept_log_warnx; unseen
    | apply kept_peek_rdata | apply kept_string_at_rdata
    | apply kept_ret | apply kept_gets | apply kept_fatalx
    | apply kept_modify; intros []; reflexivity
    | apply kept_bind; [|intros]
    | match goal with
      | |- keeps _ (if ?c then _ else _) => destruct c
      | |- keeps _ (match ?x with _ => _ end) => destruct x
      end ].

(** Expose the branch the dispatcher takes. *)
Ltac branch_in H :=
  unfold table_msg_dispatch in H; rewrite bind_run in H;
  unfold gets at 1 in H; rewrite bind_run in H;
  unfold emit at 1, modify at 1 in H.

Lemma bind_Ok_inv {A C} (m : M B A) (k : A -> M B C) s c s' :
  bind m k s = Ok c s' -> exists a s1, m s = Ok a s1 /\ k a s1 = Ok c s'.
Proof.
  unfold bind. destruct (m s) as [a s1|f s1]; [eauto|discriminate].
Qed.

Lemma table_msg_end_Ok_inv s u s' :
  table_msg_end s = Ok u s' ->
  rlen s = 0 /\ s' = set_imsg (imsg_free (imsg s)) s.
Proof.
  destruct (Nat.eq_dec (rlen s) 0) as [H|H].
  - rewrite table_msg_end_ok by exact H. now intros [= _ <-].
  - rewrite table_msg_end_fatal by exact H. discriminate.
Qed.

Lemma answer_Ok_inv bytes s s' :
  buf s = None ->
  bind (table_msg_add bytes) (fun _ => table_msg_close) s = Ok tt s' ->
  queued s s' [Frame PROC_TABLE_OK bytes].
Proof.
  intros Hb H. apply bind_Ok_inv in H. destruct H as (u & s1 & E & H).
  apply table_msg_add_first_inv in E; [|exact Hb]. subst s1.
  apply table_msg_close_inv in H. destruct H as (b & Hb' & ->).
  destruct s. simpl in *. injection Hb' as <-. reflexivity.
Qed.

(** Walk an [Ok] run down to the step that finishes the message. *)
Ltac to_end H :=
  repeat lazymatch type of H with
    | bind table_msg_end _ _ = Ok _ _ => fail
    | bind _ _ _ = Ok _ _ =>
        let a := fresh "a" in
        let s1 := fresh "s" in
        let E := fresh "E" in
        apply bind_Ok_inv in H; destruct H as (a & s1 & E & H);
        cbv beta in H; clear E
    end.

(** Walk an [Ok] run down to its last step. *)
Ltac to_last H :=
  repeat lazymatch type of H with
    | bind _ _ _ = Ok _ _ =>
        let a := fresh "a" in
        let s1 := fresh "s" in
        let E := fresh "E" in
        apply bind_Ok_inv in H; destruct H as (a & s1 & E & H);
        cbv beta in H; clear E
    end.

(** X5.  Whatever the request, the dispatcher sends nothing itself, takes
    nothing from the channel or the read buffer, and leaves the four
    handler slots as they are. *)
Theorem dispatch_scope s :
  let s' := final (table_msg_dispatch s) in
  fd_out s' = fd_out s /\
  fd_in s' = fd_in s /\
  rx (ibuf s') = rx (ibuf s) /\
  registry s' = registry s.
Proof.
  simpl. destruct (keeps_table_msg_dispatch s) as (K1 & K2).
  split; [|split; [exact K2|split; [exact K1|]]].
  - apply (@kept_dispatch P B _ (@fd_out B)); try unseen.
    intros _. unseen.
  - apply (@kept_dispatch P B _ (@registry B)); try unseen.
    intros _. unseen.
Qed.

(** X6.  [quit] is set by CLOSE and by nothing else: any other message, and
    however its dispatch ends, leaves it as it was. *)
Theorem quit_only_by_close s :
  (hdr_type (hdr (imsg s)) <> PROC_TABLE_CLOSE ->
   quit (final (table_msg_dispatch s)) = quit s) /\
  (hdr_type (hdr (imsg s)) = PROC_TABLE_CLOSE ->
   quit (final (table_msg_dispatch s)) = 1%Z).
Proof.
  split; intros H.
  - apply (@kept_dispatch P B _ (@quit B)); try unseen.
    intros Hc. contradiction.
  - rewrite dispatch_close by exact H. now destruct s.
Qed.

(** X7.  Exact consumption: when the dispatcher returns from anything but a
    CLOSE, nothing of the payload remains and the message has been
    released. *)
Theorem dispatch_consumes s s' :
  hdr_type (hdr (imsg s)) <> PROC_TABLE_CLOSE ->
  table_msg_dispatch s = Ok tt s' ->
  rlen s' = 0 /\ data (imsg s') = None.
Proof.
  intros Hne H. branch_in H.
  destruct (hdr_type (hdr (imsg s))); try contradiction;
    try discriminate H;
    to_end H;
    (let u := fresh "u" in
     let sm := fresh "s" in
     let E := fresh "E" in
     let R0 := fresh "R" in
     let K := fresh "K" in
     apply bind_Ok_inv in H; destruct H as (u & sm & E & H); cbv beta in H;
     apply table_msg_end_Ok_inv in E; destruct E as (R0 & ->);
     match type of H with
     | ?m ?sx = _ =>
         assert (K : keeps (@cursor B) m) by stride;
         specialize (K sx); rewrite H in K
     end;
     simpl in K; unfold cursor in K; injection K as -> _ ->);
    match goal with
    | |- context [set_imsg _ ?sk] => destruct sk
    end; simpl in *; auto.
Qed.

(** X8.  No reply is left under construction: a dispatch that starts with
    none pending and returns ends with none pending. *)
Theorem dispatch_leaves_no_draft s s' :
  buf s = None ->
  table_msg_dispatch s = Ok tt s' ->
  buf s' = None.
Proof.
  intros Hb H. branch_in H.
  assert (Hb1 : buf (set_trace (trace s ++ [EvDispatch (hdr_type (hdr (imsg s)))])
                       s) = None) by (destruct s; exact Hb).
  destruct (hdr_type (hdr (imsg s)));
    try discriminate H;
    try (match type of H with
         | ?m ?sx = _ =>
             assert (K : keeps (@buf B) m) by stride;
             specialize (K sx); rewrite H in K; simpl in K;
             now rewrite K
         end);
    to_last H;
    apply table_msg_close_inv in H; destruct H as (b & _ & ->);
    match goal with
    | |- context [set_ibuf _ ?sk] => now destruct sk
    end.
Qed.

(** X9.  One request, one reply: when the dispatcher returns from anything
    but a CLOSE, exactly one frame, of type OK, has joined the write
    queue. *)
Theorem dispatch_one_reply s s' :
  sane_platform P ->
  buf s = None ->
  hdr_type (hdr (imsg s)) <> PROC_TABLE_CLOSE ->
  table_msg_dispatch s = Ok tt s' ->
  exists payload, queued s s' [Frame PROC_TABLE_OK payload].
Proof.
  intros [Hh Hm] Hb Hne H. branch_in H.
  assert (I : (fun z : state B => (w (ibuf z), buf z))
                (set_trace (trace s ++ [EvDispatch (hdr_type (hdr (imsg s)))])
                   s) = (w (ibuf s), None))
    by (destruct s; simpl in *; now subst).
  destruct (hdr_type (hdr (imsg s))); try contradiction;
    try discriminate H;
    repeat lazymatch type of H with
      | bind ?m ?k ?sx = Ok _ _ =>
          let K := fresh "K" in
          let a := fresh "a" in
          let s1 := fresh "s" in
          let E := fresh "E" in
          assert (K : keeps (fun z : state B => (w (ibuf z), buf z)) m)
            by stride;
          apply bind_Ok_inv in H; destruct H as (a & s1 & E & H);
          cbv beta in H;
          specialize (K sx); rewrite E in K; simpl in K;
          rewrite <- K in I; clear K E
      end;
    simpl in I; injection I as Iw Ib.
  - (* OPEN *)
    rewrite do_imsg_compose_fits in H by (simpl; lia).
    injection H as <-. exists [].
    match goal with |- context [set_ibuf _ ?sk] => destruct sk end.
    unfold queued. simpl in *. now rewrite Iw.
  - (* UPDATE *)
    rewrite do_imsg_compose_fits in H by (rewrite length_store32; lia).
    injection H as <-. eexists.
    match goal with |- context [set_ibuf _ ?sk] => destruct sk end.
    unfold queued. simpl in *. rewrite Iw. reflexivity.
  - (* CHECK *)
    apply answer_Ok_inv in H; [|exact Ib]. eexists.
    unfold queued in *. rewrite H, Iw. reflexivity.
  - (* LOOKUP *)
    apply reply_Ok_inv in H; [|exact Ib]. destruct H as (tail & H & _).
    eexists. unfold queued in *. rewrite H, Iw. reflexivity.
  - (* FETCH *)
    apply reply_Ok_inv in H; [|exact Ib]. destruct H as (tail & H & _).
    eexists. unfold queued in *. rewrite H, Iw. reflexivity.
Qed.

(** *** Request by request *)

(** Expose the frame and the fields of the state it is dispatched in. *)
Ltac open_up f s H :=
  let D1 := fresh "D1" in let D2 := fresh "D2" in
  let D3 := fresh "D3" in let D4 := fresh "D4" in
  destruct H as (D1 & D2 & D3 & D4);
  destruct f as [fty pl];
  destruct s as [hu hc hl hf q ib [[hty hlen] dat] rl rd bf be fi fo fw lg tr];
  simpl in *; subst.

(** Run the dispatcher up to the reply builder. *)
Ltac exec :=
  unfold table_msg_dispatch in *;
  unfold table_msg_get, table_msg_end, call_update,
    call_check, call_lookup, call_fetch, read_rdata, peek_rdata,
    string_at_rdata, bind, gets, modify, emit, ret, log_warnx, fatalx,
    undefined in *;
  simpl in *.

Ltac exec_key :=
  exec; rewrite ?length_app, ?Nat.add_1_r in *; simpl in *;
  rewrite ?Nat.sub_0_r, ?nth_error_snoc in *; simpl in *.

(** The end of a reply does not touch the backend. *)
Lemma reply_backend r res s :
  backend (final (bind (table_msg_add (store32 order r))
                    (fun _ => bind (if (r =? 1)%Z
                                    then add_string res else ret tt)
                                (fun _ => table_msg_close)) s)) =
  backend s.
Proof.
  assert (K : keeps (@backend B)
                (bind (table_msg_add (store32 order r))
                   (fun _ => bind (if (r =? 1)%Z
                                   then add_string res else ret tt)
                               (fun _ => table_msg_close)))) by stride.
  apply K.
Qed.

(** X10.  A message of a type the dispatcher does not serve (also the reply
    type OK) is fatal, and nothing is done with it: no handler is
    called, nothing is queued, the cursor does not move.  The warning
    that is logged ends in the number of the type, printed as an
    [int]: for a type that is no enumerator and fits an [int], the
    number that was in the header. *)
Theorem unknown_request_is_fatal s :
  hdr_type (hdr (imsg s)) = PROC_TABLE_OK \/
  (exists n, hdr_type (hdr (imsg s)) = PROC_OTHER n) ->
  exists s',
    table_msg_dispatch s = Abort (Fatalx "table-api: exiting") s' /\
    trace s' = trace s ++ [EvDispatch (hdr_type (hdr (imsg s)))] /\
    log s' = log s ++
      [("warn: table-api: bad message "
        ++ format_int (to_int (type_number (hdr_type (hdr (imsg s))))))
         %string] /\
    (forall n,
       hdr_type (hdr (imsg s)) = PROC_OTHER n ->
       (- 2 ^ 31 <= n < 2 ^ 31)%Z ->
       log s' = log s ++
         [("warn: table-api: bad message " ++ format_int n)%string]) /\
    backend s' = backend s /\
    outgoing s' = outgoing s /\
    cursor s' = cursor s.
Proof.
  intros H.
  destruct s as [hu hc hl hf q ib [[hty hlen] dat] rl rd bf be fi fo fw lg tr].
  simpl in H. destruct H as [->|(n & ->)].
  - eexists. split; [reflexivity|]. split; [reflexivity|].
    split; [reflexivity|]. split; [intros n [=]|]. now repeat split.
  - eexists. split; [reflexivity|]. split; [reflexivity|].
    split; [reflexivity|]. split; [|now repeat split].
    intros m [= <-] Hm. simpl. now rewrite to_int_small.
Qed.

(** X11.  OPEN, UPDATE and FETCH have a payload of one size (4, 0 and 4
    bytes).  With any other size the run ends in [fatalx] before
    anything is done: no handler is called and nothing is queued, and
    for OPEN that is so even when the first four bytes are the right
    version. *)
Theorem wrong_size_is_fatal (f : frame) s n :
  dispatching f s ->
  payload_size (f_type f) = Some n ->
  length (f_payload f) <> n ->
  fatal (table_msg_dispatch s) /\
  trace (final (table_msg_dispatch s)) = trace s ++ [EvDispatch (f_type f)] /\
  backend (final (table_msg_dispatch s)) = backend s /\
  outgoing (final (table_msg_dispatch s)) = outgoing s.
Proof.
  intros D Hn Hlen. open_up f s D.
  destruct fty; simpl in Hn; try discriminate; injection Hn as <-.
  - (* OPEN *)
    destruct pl as [|b0 [|b1 [|b2 [|b3 [|b4 rest]]]]];
      try (now elim Hlen); exec;
      (split; [red; eauto | repeat split]).
  - (* UPDATE *)
    destruct pl as [|b0 rest]; [now elim Hlen|]. exec.
    split; [red; eauto | repeat split].
  - (* FETCH *)
    destruct pl as [|b0 [|b1 [|b2 [|b3 [|b4 rest]]]]];
      try (now elim Hlen); exec;
      (split; [red; eauto | repeat split]).
Qed.

(** X12.  UPDATE with a handler: the handler is called once, the backend is
    what the handler left, and the reply is the four bytes of what the
    handler returned. *)
Theorem update_answer s h r b' :
  sane_platform P ->
  hdr_type (hdr (imsg s)) = PROC_TABLE_UPDATE ->
  rlen s = 0 ->
  handler_update s = Some h ->
  h (backend s) = (r, b') ->
  exists s',
    table_msg_dispatch s = Ok tt s' /\
    queued s s' [Frame PROC_TABLE_OK (store32 order (to_int r))] /\
    backend s' = b' /\
    trace s' = trace s ++ [EvDispatch PROC_TABLE_UPDATE;
                           EvInvoke CallUpdate;
                           EvQueue (Frame PROC_TABLE_OK
                                      (store32 order (to_int r)))].
Proof.
  intros [Hh Hm] Ht Hr Hu Hres.
  destruct s as [hu hc hl hf q ib [[hty hlen] dat] rl rd bf be fi fo fw lg tr].
  simpl in *. subst. exec. rewrite Hres. simpl.
  rewrite do_imsg_compose_fits by (rewrite length_store32; lia).
  eexists. split; [reflexivity|]. simpl.
  split; [reflexivity|]. split; [reflexivity|].
  now rewrite <- !app_assoc.
Qed.

(** The CHECK branch with a handler [h], up to the state the reply was
    queued in. *)
Ltac answer_check h Hkey :=
  exec_key; rewrite Hkey;
  destruct (h _ _ _) as [? ?]; simpl;
  rewrite Nat.ltb_irrefl, Nat.sub_diag; simpl;
  rewrite table_msg_add_first;
    [ | reflexivity | lia | rewrite length_store32; lia ];
  simpl; erewrite table_msg_close_some by reflexivity.

(** X13.  CHECK with a handler and a key that ends in NUL: the handler gets
    the tag and the key, and the reply is exactly the four bytes of
    what it returned. *)
Theorem check_answer (f : frame) s tag body h :
  sane_platform P ->
  f_type f = PROC_TABLE_CHECK ->
  f_payload f = tag ++ body ++ [x00] ->
  length tag = 4 ->
  dispatching f s ->
  buf s = None ->
  handler_check s = Some h ->
  exists key s',
    strz (body ++ [x00]) = Some key /\
    table_msg_dispatch s = Ok tt s' /\
    queued s s'
      [Frame PROC_TABLE_OK
         (store32 order
            (to_int (fst (h (load_int order tag) key (backend s)))))] /\
    backend s' = snd (h (load_int order tag) key (backend s)).
Proof.
  intros [Hh Hm] Ht Hp Hl D Hb Hc.
  destruct tag as [|b0 [|b1 [|b2 [|b3 [|]]]]]; try discriminate.
  destruct (strz_ends_nul body) as [key Hkey]. exists key.
  open_up f s D. answer_check h Hkey.
  eexists. split; [reflexivity|]. split; [reflexivity|].
  simpl. split; reflexivity.
Qed.

(** X14.  The handler that answers is the one registered last: after two
    registrations for CHECK, a CHECK is answered by the second handler,
    whatever the first was. *)
Theorem last_registration_answers (f : frame) s tag body cb h :
  sane_platform P ->
  f_type f = PROC_TABLE_CHECK ->
  f_payload f = tag ++ body ++ [x00] ->
  length tag = 4 ->
  dispatching f s ->
  buf s = None ->
  exists key s',
    strz (body ++ [x00]) = Some key /\
    bind (table_api_on_check cb)
      (fun _ => bind (table_api_on_check (Some h))
                  (fun _ => table_msg_dispatch)) s = Ok tt s' /\
    queued s s'
      [Frame PROC_TABLE_OK
         (store32 order
            (to_int (fst (h (load_int order tag) key (backend s)))))].
Proof.
  intros [Hh Hm] Ht Hp Hl D Hb.
  destruct tag as [|b0 [|b1 [|b2 [|b3 [|]]]]]; try discriminate.
  destruct (strz_ends_nul body) as [key Hkey]. exists key.
  open_up f s D. unfold table_api_on_check. answer_check h Hkey.
  eexists. split; [reflexivity|]. split; [reflexivity|].
  simpl. reflexivity.
Qed.

(** X15.  LOOKUP with a handler: when the dispatcher returns, the backend is
    what the handler left; if the handler returned 1 the reply is the
    four bytes of 1 followed by the string the handler left in its
    buffer, up to and including the first NUL; if it returned anything
    else the reply is the four bytes of that and no more. *)
Theorem lookup_answer (f : frame) s s' tag body h key r out b' :
  f_type f = PROC_TABLE_LOOKUP ->
  f_payload f = tag ++ body ++ [x00] ->
  length tag = 4 ->
  dispatching f s ->
  buf s = None ->
  handler_lookup s = Some h ->
  strz (body ++ [x00]) = Some key ->
  h (load_int order tag) key sizeof_res (backend s) = (r, out, b') ->
  table_msg_dispatch s = Ok tt s' ->
  backend s' = b' /\
  ((to_int r = 1%Z /\
    exists v, strz out = Some v /\
              queued s s' [Frame PROC_TABLE_OK
                             (store32 order 1 ++ v ++ [x00])]) \/
   (to_int r <> 1%Z /\
    queued s s' [Frame PROC_TABLE_OK (store32 order (to_int r))])).
Proof.
  intros Ht Hp Hl D Hb Hh Hkey Hres E.
  destruct tag as [|b0 [|b1 [|b2 [|b3 [|]]]]]; try discriminate.
  open_up f s D. exec_key. rewrite Hkey in E. simpl in E.
  rewrite Hres in E. simpl in E.
  destruct (sizeof_res <? length out); simpl in E; [discriminate|].
  rewrite Nat.ltb_irrefl, Nat.sub_diag in E. simpl in E.
  match type of E with
  | context [table_msg_add _ ?s3] =>
      pose proof (@reply_backend (to_int r) out s3) as Kb;
      unfold bind, ret in Kb; cbv beta in Kb; rewrite E in Kb;
      assert (E' := E);
      apply (@reply_Ok_inv P B (to_int r) out s3) in E'; [|reflexivity];
      destruct E' as (tail & Hq & H1 & H0)
  end.
  split; [exact Kb|].
  destruct (Z.eq_dec (to_int r) 1) as [R|R].
  - left. split; [exact R|]. destruct (H1 R) as (v & Hv & ->).
    exists v. split; [exact Hv|]. now rewrite R in Hq.
  - right. split; [exact R|]. rewrite (H0 R), app_nil_r in Hq. exact Hq.
Qed.

(** X16.  FETCH with a handler: as for LOOKUP, with the tag alone. *)
Theorem fetch_answer (f : frame) s s' h r out b' :
  f_type f = PROC_TABLE_FETCH ->
  dispatching f s ->
  buf s = None ->
  handler_fetch s = Some h ->
  h (load_int order (f_payload f)) sizeof_res (backend s) = (r, out, b') ->
  table_msg_dispatch s = Ok tt s' ->
  length (f_payload f) = 4 /\
  backend s' = b' /\
  ((to_int r = 1%Z /\
    exists v, strz out = Some v /\
              queued s s' [Frame PROC_TABLE_OK
                             (store32 order 1 ++ v ++ [x00])]) \/
   (to_int r <> 1%Z /\
    queued s s' [Frame PROC_TABLE_OK (store32 order (to_int r))])).
Proof.
  intros Ht D Hb Hh Hres E. open_up f s D.
  destruct pl as [|b0 [|b1 [|b2 [|b3 [|]]]]]; try (exec; discriminate).
  split; [reflexivity|].
  exec. rewrite Hres in E. simpl in E.
  destruct (sizeof_res <? length out); simpl in E; [discriminate|].
  match type of E with
  | context [table_msg_add _ ?s3] =>
      pose proof (@reply_backend (to_int r) out s3) as Kb;
      unfold bind, ret in Kb; cbv beta in Kb; rewrite E in Kb;
      assert (E' := E);
      apply (@reply_Ok_inv P B (to_int r) out s3) in E'; [|reflexivity];
      destruct E' as (tail & Hq & H1 & H0)
  end.
  split; [exact Kb|].
  destruct (Z.eq_dec (to_int r) 1) as [R|R].
  - left. split; [exact R|]. destruct (H1 R) as (v & Hv & ->).
    exists v. split; [exact Hv|]. now rewrite R in Hq.
  - right. split; [exact R|]. rewrite (H0 R), app_nil_r in Hq. exact Hq.
Qed.

(** X17.  What the peer put on the wire is what the handler is given: for a
    CHECK or LOOKUP whose payload is the four bytes of an [int] [t],
    then a key without NUL, then NUL, the registered handler is called
    with [t] and that key, and after the call the dispatcher only
    queues.  The backend is what the handler, applied to [t], the key
    and the backend, left; and when the dispatcher returns, the reply
    carries what the handler returned for them. *)
Theorem key_arrives_intact (f : frame) s t key :
  f_type f = PROC_TABLE_CHECK \/ f_type f = PROC_TABLE_LOOKUP ->
  f_payload f = store32 order t ++ key ++ [x00] ->
  (- 2 ^ 31 <= t < 2 ^ 31)%Z ->
  ~ In x00 key ->
  dispatching f s ->
  registered (f_type f) s ->
  let sf := final (table_msg_dispatch s) in
  (exists evs,
     trace sf =
       trace s ++ EvDispatch (f_type f)
               :: EvInvoke (key_call (f_type f) t key) :: evs /\
     Forall is_queue evs) /\
  (forall h,
      f_type f = PROC_TABLE_CHECK ->
      handler_check s = Some h ->
      backend sf = snd (h t key (backend s)) /\
      (buf s = None ->
       forall s',
         table_msg_dispatch s = Ok tt s' ->
         queued s s'
           [Frame PROC_TABLE_OK
              (store32 order (to_int (fst (h t key (backend s)))))])) /\
  (forall h,
      f_type f = PROC_TABLE_LOOKUP ->
      handler_lookup s = Some h ->
      backend sf = snd (h t key sizeof_res (backend s)) /\
      (buf s = None ->
       forall s',
         table_msg_dispatch s = Ok tt s' ->
         exists tail,
           queued s s'
             [Frame PROC_TABLE_OK
                (store32 order
                   (to_int (fst (fst (h t key sizeof_res (backend s)))))
                 ++ tail)])).
Proof.
  intros Hty Hp Ht Hk D Hreg.
  assert (Hkey : strz (key ++ [x00]) = Some key)
    by now apply strz_terminated.
  assert (Hl : length (store32 order t) = 4) by apply length_store32.
  assert (Hi : load_int order (store32 order t) = t)
    by (rewrite load_store_int; now apply to_int_small).
  cbv zeta. split; [|split].
  - destruct (@keyed_run P B f s (store32 order t) key Hty Hp Hl D Hreg)
      as (k & evs & Hkey' & Htr & Hq & _).
    rewrite Hkey in Hkey'. injection Hkey' as <-.
    rewrite Hi in Htr. now exists evs.
  - intros h Hf Hh.
    pose proof (@keyed_check_run P B f s (store32 order t) key key h
                  Hf Hp Hl D Hkey Hh) as K.
    cbv zeta in K. rewrite Hi in K. exact K.
  - intros h Hf Hh.
    pose proof (@keyed_lookup_run P B f s (store32 order t) key key h
                  Hf Hp Hl D Hkey Hh) as K.
    cbv zeta in K. rewrite Hi in K. exact K.
Qed.

(** X18.  A CHECK or LOOKUP too short to hold its type tag is fatal in the
    framing layer, before the key is looked for and before any
    handler. *)
Theorem short_key_request_is_fatal (f : frame) s :
  f_type f = PROC_TABLE_CHECK \/ f_type f = PROC_TABLE_LOOKUP ->
  dispatching f s ->
  length (f_payload f) < 4 ->
  exists s',
    table_msg_dispatch s = Abort (Fatalx "table-proc: exiting") s' /\
    log s' = log s ++ ["warn: table-proc: bad msg len"] /\
    trace s' = trace s ++ [EvDispatch (f_type f)] /\
    backend s' = backend s /\
    outgoing s' = outgoing s.
Proof.
  intros Hty D Hlen. open_up f s D.
  destruct pl as [|b0 [|b1 [|b2 [|b3 rest]]]];
    try (simpl in Hlen; lia);
    destruct Hty as [-> | ->]; exec;
    (eexists; split; [reflexivity|]; repeat split).
Qed.

(** X19.  CLOSE is taken as it comes: whatever its payload, the dispatcher
    returns with [quit] set, and the payload is neither looked at nor
    consumed nor released. *)
Theorem close_ignores_payload s :
  hdr_type (hdr (imsg s)) = PROC_TABLE_CLOSE ->
  exists s',
    table_msg_dispatch s = Ok tt s' /\
    quit s' = 1%Z /\
    cursor s' = cursor s /\
    outgoing s' = outgoing s /\
    backend s' = backend s /\
    trace s' = trace s ++ [EvDispatch PROC_TABLE_CLOSE].
Proof.
  intros H. rewrite dispatch_close by exact H.
  eexists. split; [reflexivity|]. now destruct s.
Qed.

End DispatcherFacts.


(* ------------------------------------------------------------------ *)
(** ** More on the session loop *)

Section LoopFacts.
Context {P : platform} {B : Type}.
Local Open Scope string_scope.
Local Open Scope nat_scope.
Local Open Scope list_scope.
Implicit Types s : state B.

Ltac unseen := intros ? []; reflexivity.

Lemma replies_of_app evs1 evs2 :
  replies_of (evs1 ++ evs2) = replies_of evs1 ++ replies_of evs2.
Proof.
  induction evs1 as [|e evs1 IH]; [reflexivity|].
  destruct e; simpl; now rewrite IH.
Qed.

Lemma accounts_bind {A C} (m : M B A) (k : A -> M B C) :
  accounts m -> (forall a, accounts (k a)) -> accounts (bind m k).
Proof.
  intros Hm Hk s. unfold bind.
  destruct (Hm s) as (e1 & T1 & O1).
  destruct (m s) as [a s1|f s1]; simpl in T1, O1.
  - destruct (Hk a s1) as (e2 & T2 & O2).
    exists (e1 ++ e2). rewrite T2, T1, O2, O1, replies_of_app, !app_assoc.
    now split.
  - exists e1. now split.
Qed.

(** A step that shows nothing in the history and leaves what goes out
    alone. *)
Lemma accounts_quiet {A} (m : M B A) :
  keeps (fun s => (trace s, outgoing s)) m -> accounts m.
Proof.
  intros K s. specialize (K s). simpl in K. injection K as T O.
  exists []. simpl. rewrite !app_nil_r. now split.
Qed.

Ltac quiet :=
  apply accounts_quiet;
  first
    [ apply kept_table_msg_get; unseen
    | apply kept_table_msg_end; unseen
    | apply kept_table_msg_add; unseen
    | apply kept_add_string; unseen
    | apply kept_log_warnx; unseen
    | apply kept_peek_rdata | apply kept_string_at_rdata
    | apply kept_ret | apply kept_gets | apply kept_fatalx
    | apply kept_modify; intros []; reflexivity ].

Lemma accounts_emit e : ~ is_queue e -> accounts (emit (B := B) e).
Proof.
  intros H s. exists [e]. destruct s. simpl. split; [reflexivity|].
  destruct e; simpl; try now rewrite app_nil_r.
  now elim H.
Qed.

Lemma accounts_table_msg_close : accounts (table_msg_close (B := B)).
Proof.
  intros s. destruct s as [hu hc hl hf q ib im rl rd [b|] be fi fo fw lg tr].
  - eexists. split; [reflexivity|]. unfold outgoing. simpl.
    now rewrite app_assoc.
  - exists []. simpl. rewrite !app_nil_r. now split.
Qed.

Lemma accounts_do_imsg_compose type bytes :
  accounts (do_imsg_compose (B := B) type bytes).
Proof.
  intros s. destruct s as [hu hc hl hf q ib im rl rd bf be fi fo fw lg tr].
  unfold do_imsg_compose, bind, gets, modify, emit, ret. simpl.
  destruct (imsg_compose ib type bytes) as [ib'|] eqn:E; simpl.
  - exists [EvQueue (Frame type bytes)]. split; [reflexivity|].
    unfold imsg_compose in E.
    destruct (imsg_create type (length bytes)) as [b|] eqn:Ec;
      [|discriminate].
    destruct (imsg_add b bytes) as [b1|] eqn:Ea; [|discriminate].
    injection E as <-. unfold imsg_create in Ec.
    destruct (MAX_IMSGSIZE <? _); [discriminate|]. injection Ec as <-.
    unfold imsg_add in Ea. simpl in Ea.
    destruct (MAX_IMSGSIZE <? _); [discriminate|]. injection Ea as <-.
    unfold outgoing. simpl. now rewrite app_assoc.
  - exists []. simpl. rewrite !app_nil_r. now split.
Qed.

Lemma accounts_call_update h : accounts (call_update (B := B) h).
Proof.
  intros s. unfold call_update. destruct (h (backend s)) as [r b'].
  exists [EvInvoke CallUpdate]. destruct s. simpl.
  rewrite app_nil_r. now split.
Qed.

Lemma accounts_call_check h type key :
  accounts (call_check (B := B) h type key).
Proof.
  intros s. unfold call_check. destruct (h type key (backend s)) as [r b'].
  exists [EvInvoke (CallCheck type key)]. destruct s. simpl.
  rewrite app_nil_r. now split.
Qed.

Lemma accounts_call_lookup h type key :
  accounts (call_lookup (B := B) h type key).
Proof.
  intros s. unfold call_lookup.
  destruct (h type key sizeof_res (backend s)) as [[r out] b'].
  exists [EvInvoke (CallLookup type key)]. destruct s.
  destruct (sizeof_res <? length out); simpl; rewrite app_nil_r; now split.
Qed.

Lemma accounts_call_fetch h type : accounts (call_fetch (B := B) h type).
Proof.
  intros s. unfold call_fetch.
  destruct (h type sizeof_res (backend s)) as [[r out] b'].
  exists [EvInvoke (CallFetch type)]. destruct s.
  destruct (sizeof_res <? length out); simpl; rewrite app_nil_r; now split.
Qed.

Ltac tally :=
  repeat first
    [ apply accounts_table_msg_close | apply accounts_do_imsg_compose
    | apply accounts_call_update | apply accounts_call_check
    | apply accounts_call_lookup | apply accounts_call_fetch
    | apply accounts_emit; intros []
    | quiet
    | apply accounts_bind; [|intros]
    | match goal with
      | |- accounts (if ?c then _ else _) => destruct c
      | |- accounts (match ?x with _ => _ end) => destruct x
      end ].

Lemma accounts_table_msg_dispatch : accounts (table_msg_dispatch (B := B)).
Proof. unfold table_msg_dispatch. tally. Qed.

Lemma accounts_do_imsg_get : accounts (do_imsg_get (B := B)).
Proof.
  intros s. destruct s as [hu hc hl hf q [rxl wl] im rl rd bf be fi fo fw lg tr].
  destruct rxl as [|[f|] rest]; eexists; (split; [reflexivity|]);
    unfold outgoing; simpl; now rewrite app_nil_r.
Qed.

Lemma accounts_do_imsg_read : accounts (do_imsg_read (B := B)).
Proof.
  intros s. destruct s as [hu hc hl hf q [rxl wl] im rl rd bf be fi fo fw lg tr].
  destruct fi as [|[| |items] fi']; eexists; (split; [reflexivity|]);
    unfold outgoing; simpl; now rewrite app_nil_r.
Qed.

(** Flushing moves the queue, or a first part of it, onto the channel,
    in order. *)
Lemma accounts_do_imsg_flush : accounts (do_imsg_flush (B := B)).
Proof.
  intros s. destruct s as [hu hc hl hf q [rxl wl] im rl rd bf be fi fo fw lg tr].
  exists [EvFlush]. simpl. rewrite app_nil_r.
  destruct fw as [|[|k] fw']; (split; [reflexivity|]); unfold outgoing; simpl.
  - now rewrite !app_nil_r.
  - now rewrite !app_nil_r.
  - now rewrite <- app_assoc, firstn_skipn.
Qed.

Lemma accounts_loop_body : accounts (loop_body (B := B)).
Proof.
  unfold loop_body.
  repeat first
    [ apply accounts_do_imsg_get | apply accounts_do_imsg_read
    | apply accounts_do_imsg_flush | apply accounts_table_msg_dispatch
    | quiet
    | apply accounts_bind; [|intros]
    | match goal with
      | |- accounts (if ?c then _ else _) => destruct c
      end ].
Qed.

Lemma accounts_session_loop fuel s r :
  session_loop fuel s = Some r ->
  exists evs,
    trace (final r) = trace s ++ evs /\
    outgoing (final r) = outgoing s ++ replies_of evs.
Proof.
  revert s. induction fuel as [|fuel IH]; intros s; [discriminate|].
  simpl. destruct (accounts_loop_body s) as (e1 & T1 & O1).
  destruct (loop_body s) as [[|] s1|flt s1]; simpl in T1, O1.
  - intros R. destruct (IH _ R) as (e2 & T2 & O2).
    exists (e1 ++ e2).
    rewrite T2, T1, O2, O1, replies_of_app, !app_assoc. now split.
  - intros [= <-]. now exists e1.
  - intros [= <-]. now exists e1.
Qed.

(** X20.  Nothing is lost, nothing is made up: however [table_api_dispatch]
    ends, what has gone out on the channel, followed by what still
    waits in the write queue, is what was on the channel before
    followed by the replies the program queued, each once, in the order
    it queued them. *)
Theorem replies_are_accounted_for s r :
  table_api_dispatch s = Some r ->
  exists evs,
    trace (final r) = trace s ++ evs /\
    fd_out (final r) ++ w (ibuf (final r)) = fd_out s ++ replies_of evs.
Proof.
  unfold table_api_dispatch.
  destruct (session_loop _ _) as [r0|] eqn:R; [|discriminate].
  apply accounts_session_loop in R. destruct R as (evs & T & O).
  assert (T0 : trace (set_ibuf imsg_init s) = trace s) by now destruct s.
  assert (O0 : outgoing (set_ibuf imsg_init s) = fd_out s).
  { destruct s. unfold outgoing. simpl. apply app_nil_r. }
  rewrite T0 in T. rewrite O0 in O.
  destruct r0 as [u s1|flt s1]; intros [= <-]; now exists evs.
Qed.

Lemma dispatch_keeps_quit s :
  hdr_type (hdr (imsg s)) <> PROC_TABLE_CLOSE ->
  quit (final (table_msg_dispatch s)) = quit s.
Proof.
  intros H. apply (@kept_dispatch P B _ (@quit B)); try unseen.
  intros Hc. contradiction.
Qed.

(** The dispatcher has no part in what the writes to come will meet. *)
Lemma dispatch_keeps_fd_wr s :
  fd_wr (final (table_msg_dispatch s)) = fd_wr s.
Proof.
  apply (@kept_dispatch P B _ (@fd_wr B)); try unseen.
  intros _. unseen.
Qed.

(** When no write fails, a flush sends the whole queue. *)
Lemma do_imsg_flush_done s :
  writes_succeed s ->
  do_imsg_flush s =
  Ok 0%Z (set_trace (trace s ++ [EvFlush])
            (set_fd_wr (tl (fd_wr s))
               (set_fd_out (fd_out s ++ w (ibuf s))
                  (set_ibuf (ImsgBuf (rx (ibuf s)) []) s)))).
Proof.
  unfold writes_succeed, do_imsg_flush. intros H.
  destruct (fd_wr s) as [|e l]; [reflexivity|].
  inversion H as [|? ? He _]. subst e. reflexivity.
Qed.

(** A turn of the loop that starts with [quit] clear, an empty write
    queue and no failing write ahead ends with the write queue empty
    and no failing write ahead, and asks for another turn only with
    [quit] still clear. *)
Lemma loop_body_drains s b s' :
  loop_body s = Ok b s' ->
  quit s = 0%Z ->
  w (ibuf s) = [] ->
  writes_succeed s ->
  w (ibuf s') = [] /\ writes_succeed s' /\ (b = true -> quit s' = 0%Z).
Proof.
  destruct s as [hu hc hl hf q [rxl wl] im rl rd bf be fi fo fw lg tr].
  unfold writes_succeed. simpl. intros L -> -> Hfw. revert L.
  assert (Hread :
    forall (s0 : state B),
      quit s0 = 0%Z -> w (ibuf s0) = [] -> fd_wr s0 = fw ->
      bind do_imsg_read
        (fun n' =>
           if (n' =? -1)%Z
           then bind (log_warnx "warn: table-api: imsg_read")
                     (fun _ => ret false)
           else if (n' =? 0)%Z
                then bind (log_warnx "warn: table-api: pipe closed")
                          (fun _ => ret false)
                else ret true) s0 = Ok b s' ->
      w (ibuf s') = [] /\ Forall (fun e => e = WriteDone) (fd_wr s') /\
      (b = true -> quit s' = 0%Z)).
  { intros s0 Hq Hw Hf.
    destruct s0 as [hu0 hc0 hl0 hf0 q0 [rx0 w0] im0 rl0 rd0 bf0 be0 fi0 fo0
                      fw0 lg0 tr0].
    simpl in Hq, Hw, Hf. subst q0 w0 fw0.
    unfold bind, do_imsg_read, log_warnx, modify, ret. simpl.
    destruct fi0 as [|[| |items] fi']; simpl; intros [= <- <-];
      (split; [reflexivity|]); (split; [exact Hfw|]); auto. }
  destruct rxl as [|[f|] rest].
  - apply Hread; reflexivity.
  - unfold loop_body. rewrite bind_run. unfold do_imsg_get. simpl.
    set (n := Z.of_nat (IMSG_HEADER_SIZE + length (f_payload f))).
    replace (n =? -1)%Z with false by (symmetry; apply Z.eqb_neq; lia).
    destruct (n =? 0)%Z; simpl; [apply Hread; reflexivity|].
    rewrite bind_run. unfold modify at 1. rewrite bind_run.
    unfold modify at 1. simpl. rewrite bind_run.
    match goal with
    | |- context [table_msg_dispatch ?s2] => set (s2' := s2)
    end.
    assert (Hty : f_type f = PROC_TABLE_CLOSE \/
                  f_type f <> PROC_TABLE_CLOSE)
      by (destruct (f_type f); (now left) || (right; discriminate)).
    destruct Hty as [Hc|Hc].
    + rewrite dispatch_close by exact Hc. subst s2'. simpl.
      intros [= <- <-]. split; [reflexivity|].
      split; [exact Hfw|discriminate].
    + pose proof (@dispatch_keeps_quit s2' Hc) as Kq.
      pose proof (dispatch_keeps_fd_wr s2') as Kw.
      destruct (table_msg_dispatch s2') as [u s3|flt s3]; [|discriminate].
      subst s2'. simpl in Kq, Kw.
      rewrite bind_run. unfold gets at 1. rewrite Kq. simpl.
      unfold bind, ret.
      rewrite do_imsg_flush_done
        by (unfold writes_succeed; rewrite Kw; exact Hfw).
      intros [= <- <-].
      destruct s3. simpl in *. subst.
      split; [reflexivity|]. split; [|reflexivity].
      destruct fw as [|e l]; [constructor|]. now inversion Hfw.
  - unfold loop_body, bind, do_imsg_get, log_warnx, modify, ret. simpl.
    intros [= <- <-]. split; [reflexivity|].
    split; [exact Hfw|discriminate].
Qed.

Lemma session_loop_drains fuel s s' :
  session_loop fuel s = Some (Ok tt s') ->
  quit s = 0%Z ->
  w (ibuf s) = [] ->
  writes_succeed s ->
  w (ibuf s') = [].
Proof.
  revert s. induction fuel as [|fuel IH]; intros s; [discriminate|].
  simpl. destruct (loop_body s) as [[|] s1|flt s1] eqn:L.
  - intros R Hq Hw Hf.
    apply loop_body_drains in L; [|exact Hq|exact Hw|exact Hf].
    destruct L as (Hw1 & Hf1 & Hq1). apply (IH s1 R); auto.
  - intros [= <-] Hq Hw Hf.
    apply loop_body_drains in L; [|exact Hq|exact Hw|exact Hf].
    now destruct L.
  - discriminate.
Qed.

(** X21.  While writes go through, every reply is sent: when
    [table_api_dispatch], entered with [quit] clear and no failing
    write ahead, returns, the write queue is empty, and what has gone
    out on the channel since it was entered is the replies the program
    queued, each once and in order.  (The loop does not look at the
    result of [imsg_flush]; what a failed write leaves behind is
    covered by X20.) *)
Theorem normal_return_has_sent_all s s' :
  quit s = 0%Z ->
  writes_succeed s ->
  table_api_dispatch s = Some (Ok 1%Z s') ->
  w (ibuf s') = [] /\
  exists evs,
    trace s' = trace s ++ evs /\ fd_out s' = fd_out s ++ replies_of evs.
Proof.
  intros Hq Hf. unfold table_api_dispatch.
  destruct (session_loop _ _) as [[u s1|flt s1]|] eqn:R; try discriminate.
  intros [= <-]. destruct u.
  assert (Hw : w (ibuf s1) = []).
  { apply session_loop_drains in R; [exact R| | |]; now destruct s. }
  split; [exact Hw|].
  apply accounts_session_loop in R. destruct R as (evs & T & O).
  exists evs. simpl in T, O. unfold outgoing in O.
  rewrite Hw, app_nil_r in O.
  destruct s. simpl in *. rewrite app_nil_r in O. now split.
Qed.

(** Why a turn of the loop says [break]. *)
Lemma loop_body_break s s' :
  loop_body s = Ok false s' ->
  quit s' <> 0%Z \/
  exists msg l, In msg loop_exit_warnings /\ log s' = l ++ [msg].
Proof.
  destruct s as [hu hc hl hf q [rxl wl] im rl rd bf be fi fo fw lg tr].
  assert (Hread :
    forall (s0 : state B),
      bind do_imsg_read
        (fun n' =>
           if (n' =? -1)%Z
           then bind (log_warnx "warn: table-api: imsg_read")
                     (fun _ => ret false)
           else if (n' =? 0)%Z
                then bind (log_warnx "warn: table-api: pipe closed")
                          (fun _ => ret false)
                else ret true) s0 = Ok false s' ->
      quit s' <> 0%Z \/
      exists msg l, In msg loop_exit_warnings /\ log s' = l ++ [msg]).
  { intros s0.
    destruct s0 as [hu0 hc0 hl0 hf0 q0 [rx0 w0] im0 rl0 rd0 bf0 be0 fi0 fo0
                      fw0 lg0 tr0].
    unfold bind, do_imsg_read, log_warnx, modify, ret. simpl.
    destruct fi0 as [|[| |items] fi']; simpl; intros [= <-]; right;
      eexists; eexists; (split; [|reflexivity]); simpl; auto. }
  destruct rxl as [|[f|] rest].
  - apply Hread.
  - unfold loop_body. rewrite bind_run. unfold do_imsg_get. simpl.
    set (n := Z.of_nat (IMSG_HEADER_SIZE + length (f_payload f))).
    replace (n =? -1)%Z with false by (symmetry; apply Z.eqb_neq; lia).
    destruct (n =? 0)%Z; simpl; [apply Hread|].
    rewrite bind_run. unfold modify at 1. rewrite bind_run.
    unfold modify at 1. simpl. rewrite bind_run.
    destruct (table_msg_dispatch _) as [u s3|flt s3]; [|discriminate].
    rewrite bind_run. unfold gets at 1.
    destruct (quit s3 =? 0)%Z eqn:Q; simpl.
    + destruct (do_imsg_flush_run s3) as (k & out & kept & _ & R).
      unfold bind, ret. rewrite R. discriminate.
    + unfold ret. intros [= <-]. left. now apply Z.eqb_neq.
  - unfold loop_body, bind, do_imsg_get, log_warnx, modify, ret. simpl.
    intros [= <-]. right. eexists. eexists.
    split; [|reflexivity]. simpl. auto.
Qed.

Lemma session_loop_break fuel s s' :
  session_loop fuel s = Some (Ok tt s') ->
  quit s' <> 0%Z \/
  exists msg l, In msg loop_exit_warnings /\ log s' = l ++ [msg].
Proof.
  revert s. induction fuel as [|fuel IH]; intros s; [discriminate|].
  simpl. destruct (loop_body s) as [[|] s2|flt s2] eqn:L.
  - apply IH.
  - intros [= <-]. now apply loop_body_break in L.
  - discriminate.
Qed.

(** X22.  [table_api_dispatch] returns for one of four reasons: a CLOSE was
    dispatched ([quit] is set), or the last thing it logged is the
    warning of a failed [imsg_get], of a failed [imsg_read], or of a
    closed pipe. *)
Theorem why_the_loop_ends s s' :
  table_api_dispatch s = Some (Ok 1%Z s') ->
  quit s' <> 0%Z \/
  exists msg l, In msg loop_exit_warnings /\ log s' = l ++ [msg].
Proof.
  unfold table_api_dispatch.
  destruct (session_loop _ _) as [[u s1|flt s1]|] eqn:R; try discriminate.
  intros [= <-]. destruct u. now apply session_loop_break in R.
Qed.

End LoopFacts.

(* ------------------------------------------------------------------ *)
(** ** The order of handler calls and replies *)

Section CallFacts.
Context {P : platform} {B : Type}.
Local Open Scope nat_scope.
Local Open Scope list_scope.
Implicit Types s : state B.

Lemma staged_of_replies {A} (m : M B A) : emits is_queue m -> staged m.
Proof.
  intros H s. destruct (H s) as (qs & E & F).
  exists qs. split; [exact E|].
  exists [], qs. split; [reflexivity|]. split; [constructor|].
  split; [simpl; lia|exact F].
Qed.

Lemma staged_bind_silent {A C} (m : M B A) (k : A -> M B C) :
  silent m -> (forall a, staged (k a)) -> staged (bind m k).
Proof.
  intros Hm Hk s. unfold bind.
  destruct (Hm s) as (e1 & E1 & F1).
  assert (e1 = []) as -> by (destruct e1; [reflexivity|now inversion F1]).
  rewrite app_nil_r in E1.
  destruct (m s) as [a s1|f s1]; simpl in E1.
  - destruct (Hk a s1) as (evs & E & S). exists evs. now rewrite E, E1.
  - exists []. rewrite app_nil_r. split; [exact E1|].
    exists [], []. split; [reflexivity|]. split; [constructor|].
    split; [simpl; lia|constructor].
Qed.

Lemma staged_bind_call {A C} (m : M B A) (k : A -> M B C) :
  calls_once m -> (forall a, emits is_queue (k a)) -> staged (bind m k).
Proof.
  intros Hm Hk s. unfold bind.
  destruct (Hm s) as (cs & E1 & F1 & L1).
  destruct (m s) as [a s1|f s1]; simpl in E1.
  - destruct (Hk a s1) as (qs & E & F).
    exists (cs ++ qs). rewrite E, E1, app_assoc. split; [reflexivity|].
    exists cs, qs. now repeat split.
  - exists cs. split; [exact E1|].
    exists cs, []. rewrite app_nil_r. split; [reflexivity|].
    split; [exact F1|]. split; [exact L1|constructor].
Qed.

Lemma calls_once_silent {A} (m : M B A) : silent m -> calls_once m.
Proof.
  intros H s. destruct (H s) as (e1 & E1 & F1).
  assert (e1 = []) as -> by (destruct e1; [reflexivity|now inversion F1]).
  exists []. split; [exact E1|]. split; [constructor|simpl; lia].
Qed.

Lemma calls_once_bind_silent {A C} (m : M B A) (k : A -> M B C) :
  silent m -> (forall a, calls_once (k a)) -> calls_once (bind m k).
Proof.
  intros Hm Hk s. unfold bind.
  destruct (Hm s) as (e1 & E1 & F1).
  assert (e1 = []) as -> by (destruct e1; [reflexivity|now inversion F1]).
  rewrite app_nil_r in E1.
  destruct (m s) as [a s1|f s1]; simpl in E1.
  - destruct (Hk a s1) as (cs & E & S). exists cs. now rewrite E, E1.
  - exists []. rewrite app_nil_r. split; [exact E1|].
    split; [constructor|simpl; lia].
Qed.

Lemma calls_once_call_update h : calls_once (call_update (B := B) h).
Proof.
  intros s. unfold call_update. destruct (h (backend s)) as [r b'].
  exists [EvInvoke CallUpdate]. split; [now destruct s|].
  split; [repeat constructor|simpl; lia].
Qed.

Lemma calls_once_call_check h type key :
  calls_once (call_check (B := B) h type key).
Proof.
  intros s. unfold call_check. destruct (h type key (backend s)) as [r b'].
  exists [EvInvoke (CallCheck type key)]. split; [now destruct s|].
  split; [repeat constructor|simpl; lia].
Qed.

Lemma calls_once_call_lookup h type key :
  calls_once (call_lookup (B := B) h type key).
Proof.
  intros s. unfold call_lookup.
  destruct (h type key sizeof_res (backend s)) as [[r out] b'].
  exists [EvInvoke (CallLookup type key)].
  split; [|split; [repeat constructor|simpl; lia]].
  destruct s. now destruct (sizeof_res <? length out).
Qed.

Lemma calls_once_call_fetch h type :
  calls_once (call_fetch (B := B) h type).
Proof.
  intros s. unfold call_fetch.
  destruct (h type sizeof_res (backend s)) as [[r out] b'].
  exists [EvInvoke (CallFetch type)].
  split; [|split; [repeat constructor|simpl; lia]].
  destruct s. now destruct (sizeof_res <? length out).
Qed.

(** Steps that show nothing. *)
Ltac hush :=
  unfold silent;
  repeat first
    [ apply emits_table_msg_get | apply emits_table_msg_end
    | apply emits_table_msg_add | apply emits_add_string
    | apply emits_peek_rdata | apply emits_string_at_rdata
    | apply emits_ret | apply emits_gets | apply emits_fatalx
    | apply emits_undefined | apply emits_log_warnx
    | apply emits_modify; intros []; reflexivity
    | apply emits_bind; [|intros]
    | match goal with
      | |- emits _ (if ?c then _ else _) => destruct c
      end ].

(** Steps that only queue. *)
Ltac replies :=
  repeat first
    [ apply emits_table_msg_get | apply emits_table_msg_end
    | apply emits_table_msg_add | apply emits_add_string
    | apply emits_table_msg_close; intros; exact I
    | apply emits_do_imsg_compose; intros; exact I
    | apply emits_ret | apply emits_gets | apply emits_fatalx
    | apply emits_undefined | apply emits_log_warnx
    | apply emits_modify; intros []; reflexivity
    | apply emits_bind; [|intros]
    | match goal with
      | |- emits _ (if ?c then _ else _) => destruct c
      end ].

(** The step in which a handler is called when there is one. *)
Ltac calls :=
  match goal with
  | |- calls_once (match ?x with _ => _ end) => destruct x
  end;
  first
    [ apply calls_once_call_update | apply calls_once_call_fetch
    | apply calls_once_bind_silent;
        [ hush
        | intros;
          first [ apply calls_once_call_check | apply calls_once_call_lookup ] ]
    | apply calls_once_silent; hush ].

Ltac stage :=
  repeat first
    [ apply staged_of_replies; solve [replies]
    | apply staged_bind_silent; [solve [hush]|intros]
    | apply staged_bind_call; [solve [calls]|intros; solve [replies]] ].


(** X23.  Whatever the request is and however it ends, the dispatcher calls
    a handler once at most, and every reply it queues comes after that
    call. *)
Theorem one_call_then_replies s :
  exists evs,
    trace (final (table_msg_dispatch s)) =
      trace s ++ EvDispatch (hdr_type (hdr (imsg s))) :: evs /\
    call_then_replies evs.
Proof.
  unfold table_msg_dispatch.
  rewrite bind_run. unfold gets at 1. rewrite bind_run.
  unfold emit at 1, modify at 1.
  match goal with
  | |- context [final (?m ?s1)] =>
      assert (H : staged m)
        by (destruct (hdr_type (hdr (imsg s))); stage);
      destruct (H s1) as (evs & E & F)
  end.
  exists evs. split; [|exact F].
  rewrite E. destruct s. simpl. now rewrite <- app_assoc.
Qed.

End CallFacts.

(* ------------------------------------------------------------------ *)
(** ** Requests that stop the process *)

Section StopFacts.
Context {P : platform} {B : Type}.
Local Open Scope nat_scope.
Local Open Scope list_scope.
Implicit Types s : state B.

Ltac unseen := intros ? []; reflexivity.

(** Steps that put nothing on the way out. *)
Ltac leaves :=
  repeat first
    [ apply kept_table_msg_get; unseen
    | apply kept_table_msg_end; unseen
    | apply kept_table_msg_add; unseen
    | apply kept_add_string; unseen
    | apply kept_log_warnx; unseen
    | apply kept_call_update; unseen
    | apply kept_call_check; unseen
    | apply kept_call_lookup; unseen
    | apply kept_call_fetch; unseen
    | apply kept_peek_rdata | apply kept_string_at_rdata
    | apply kept_ret | apply kept_gets | apply kept_fatalx
    | apply kept_undefined
    | apply kept_bind; [|intros]
    | match goal with
      | |- keeps _ (if ?c then _ else _) => destruct c
      | |- keeps _ (match ?x with _ => _ end) => destruct x
      end ].

Lemma stops_unanswered_bind {A C} (m : M B A) (k : A -> M B C) :
  keeps (@outgoing B) m -> (forall a, stops_unanswered (k a)) ->
  stops_unanswered (bind m k).
Proof.
  intros Hm Hk s flt s'. unfold bind. specialize (Hm s).
  destruct (m s) as [a s1|f s1]; simpl in Hm.
  - intros R. apply Hk in R. now rewrite R.
  - intros [= _ <-]. exact Hm.
Qed.

Lemma stops_unanswered_kept {A} (m : M B A) :
  keeps (@outgoing B) m -> stops_unanswered m.
Proof. intros Hm s flt s' R. specialize (Hm s). now rewrite R in Hm. Qed.

(** Composing a reply in one call cannot fail. *)
Lemma do_imsg_compose_returns type bytes s :
  exists s', do_imsg_compose type bytes s = Ok tt s'.
Proof.
  destruct s as [hu hc hl hf q ib im rl rd bf be fi fo fw lg tr].
  unfold do_imsg_compose, bind, gets, modify, emit, ret. simpl.
  destruct (imsg_compose ib type bytes); eexists; reflexivity.
Qed.

Lemma stops_unanswered_close :
  stops_unanswered (table_msg_close (B := B)).
Proof.
  intros s flt s'.
  destruct s as [hu hc hl hf q ib im rl rd [b|] be fi fo fw lg tr];
    [discriminate|].
  intros [= _ <-]. reflexivity.
Qed.

Lemma stops_unanswered_compose type bytes :
  stops_unanswered (do_imsg_compose (B := B) type bytes).
Proof.
  intros s flt s' R.
  destruct (do_imsg_compose_returns type bytes s) as (s1 & E).
  congruence.
Qed.

Ltac halts :=
  repeat first
    [ apply stops_unanswered_close | apply stops_unanswered_compose
    | apply stops_unanswered_kept; solve [leaves]
    | apply stops_unanswered_bind; [solve [leaves]|intros] ].

(** X24.  A request that stops the process is never answered: when the
    dispatcher does not return, what has gone out and what waits in the
    write queue are as they were before the request. *)
Theorem failed_request_gets_no_reply s flt s' :
  table_msg_dispatch s = Abort flt s' ->
  outgoing s' = outgoing s.
Proof.
  revert s flt s'.
  change (stops_unanswered (table_msg_dispatch (B := B))).
  unfold table_msg_dispatch.
  apply stops_unanswered_bind; [apply kept_gets|intros ty].
  apply stops_unanswered_bind; [apply kept_emit; unseen|intros _].
  destruct ty; halts.
  intros s flt s'. discriminate.
Qed.

(** X25.  On a channel that delivers finitely much, [table_api_dispatch]
    comes to an end: it returns, and then with 1, or a request has
    stopped the process. *)
Theorem table_api_dispatch_ends s :
  exists r,
    table_api_dispatch s = Some r /\
    forall v s', r = Ok v s' -> v = 1%Z.
Proof.
  unfold table_api_dispatch.
  destruct (@session_loop_total P B
              (S (pending (set_ibuf imsg_init s))) (set_ibuf imsg_init s))
    as (r & E); [lia|].
  rewrite E. destruct r as [[] s1|flt s1]; eexists; split;
    try reflexivity; intros v s' [= <- _]; reflexivity.
Qed.

End StopFacts.

(* ------------------------------------------------------------------ *)
(** ** More runs on the example machine *)

Section MoreRuns.
Import Example.
Local Open Scope list_scope.

(** Four bytes and five bytes of a nine-byte payload. *)
Lemma table_msg_get_twice_witness :
  let s := receive (Frame PROC_TABLE_FETCH (addr ++ [x00])) start in
  bind (table_msg_get true 4)
    (fun x => bind (table_msg_get true 5) (fun y => ret (x ++ y))) s =
  table_msg_get true (4 + 5) s.
Proof.
  intros s.
  apply (@table_msg_get_twice unit true 4 5 s).
  - simpl. lia.
  - intros _. exists (addr ++ [x00]). split; [reflexivity|]. simpl. lia.
Defined.

(** Skipping two of four bytes and finishing stops the process. *)
Lemma take_then_end_witness :
  let s := receive (Frame PROC_TABLE_FETCH (le32 0)) start in
  fatal (bind (table_msg_get false 2) (fun _ => table_msg_end) s).
Proof.
  intros s.
  apply (proj2 (@take_then_end unit 2 s ltac:(simpl; lia))).
  simpl. lia.
Defined.

(** A result and a value added in one piece or in two. *)
Lemma table_msg_add_app_witness :
  let s' := final (table_msg_add (P := machine) (le32 1 ++ addr) start) in
  bind (table_msg_add (P := machine) (le32 1))
    (fun _ => table_msg_add (P := machine) addr) start = Ok tt s'.
Proof.
  intros s'.
  apply (@table_msg_add_app machine unit (le32 1) addr start s').
  vm_compute. reflexivity.
Defined.

(** Two replies built one after the other. *)
Lemma replies_do_not_mix_witness :
  exists s',
    bind (table_msg_add (P := machine) (le32 0))
      (fun _ => bind table_msg_close
         (fun _ => bind (table_msg_add (P := machine) (le32 1))
                     (fun _ => table_msg_close))) start =
    Ok tt s' /\
    queued start s' [Frame PROC_TABLE_OK (le32 0);
                     Frame PROC_TABLE_OK (le32 1)] /\
    buf s' = None.
Proof.
  apply (@replies_do_not_mix machine unit (le32 0) (le32 1) start).
  - split; apply Nat.leb_le; reflexivity.
  - reflexivity.
  - apply Nat.leb_le. reflexivity.
  - apply Nat.leb_le. reflexivity.
Defined.

(** A CLOSE sets the flag. *)
Lemma quit_only_by_close_witness :
  let s := receive (Frame PROC_TABLE_CLOSE []) start in
  quit (final (@table_msg_dispatch machine unit s)) = 1%Z.
Proof.
  intros s.
  apply (proj2 (@quit_only_by_close machine unit s)).
  reflexivity.
Defined.

(** A FETCH is consumed. *)
Lemma dispatch_consumes_witness :
  let s := receive (Frame PROC_TABLE_FETCH (le32 0)) backed in
  let s' := final (@table_msg_dispatch machine unit s) in
  rlen s' = 0 /\ data (imsg s') = None.
Proof.
  intros s s'.
  apply (@dispatch_consumes machine unit s s').
  - simpl. discriminate.
  - vm_compute. reflexivity.
Defined.

(** After a LOOKUP no reply is left under construction. *)
Lemma dispatch_leaves_no_draft_witness :
  let s := receive (Frame PROC_TABLE_LOOKUP
                      (le32 0 ++ bytes_of "gw" ++ [x00])) backed in
  let s' := final (@table_msg_dispatch machine unit s) in
  buf s' = None.
Proof.
  intros s s'.
  apply (@dispatch_leaves_no_draft machine unit s s').
  - reflexivity.
  - vm_compute. reflexivity.
Defined.

(** An OPEN gets one reply. *)
Lemma dispatch_one_reply_witness :
  let s := receive (Frame PROC_TABLE_OPEN (le32 1)) start in
  let s' := final (@table_msg_dispatch machine unit s) in
  exists payload, queued s s' [Frame PROC_TABLE_OK payload].
Proof.
  intros s s'.
  apply (@dispatch_one_reply machine unit s s').
  - split; apply Nat.leb_le; reflexivity.
  - reflexivity.
  - simpl. discriminate.
  - vm_compute. reflexivity.
Defined.

(** The type 42 arriving as a request: the warning names it. *)
Lemma unknown_request_is_fatal_witness :
  let s := receive (Frame (PROC_OTHER 42) []) start in
  exists s',
    @table_msg_dispatch machine unit s =
      Abort (Fatalx "table-api: exiting") s' /\
    log s' = log s ++ ["warn: table-api: bad message 42"%string] /\
    outgoing s' = outgoing s.
Proof.
  intros s.
  destruct (@unknown_request_is_fatal machine unit s
              (or_intror (ex_intro _ 42%Z eq_refl)))
    as (s' & R & _ & _ & L & _ & O & _).
  exists s'. split; [exact R|]. split; [|exact O].
  apply (L 42%Z eq_refl). lia.
Defined.

(** An OPEN without a version. *)
Lemma wrong_size_is_fatal_witness :
  let f := Frame PROC_TABLE_OPEN [] in
  let s := receive f start in
  fatal (@table_msg_dispatch machine unit s) /\
  trace (final (@table_msg_dispatch machine unit s)) =
    trace s ++ [EvDispatch (f_type f)] /\
  backend (final (@table_msg_dispatch machine unit s)) = backend s /\
  outgoing (final (@table_msg_dispatch machine unit s)) = outgoing s.
Proof.
  intros f s.
  apply (@wrong_size_is_fatal machine unit f s 4).
  - split; [reflexivity|]. split; [reflexivity|]. split; reflexivity.
  - reflexivity.
  - simpl. discriminate.
Defined.

(** An UPDATE with a handler that succeeds. *)
Lemma update_answer_witness :
  let s := receive (Frame PROC_TABLE_UPDATE [])
             (set_handler_update (Some update_ok) start) in
  exists s',
    @table_msg_dispatch machine unit s = Ok tt s' /\
    queued s s' [Frame PROC_TABLE_OK (le32 (to_int 1))] /\
    backend s' = tt /\
    trace s' = trace s ++ [EvDispatch PROC_TABLE_UPDATE;
                           EvInvoke CallUpdate;
                           EvQueue (Frame PROC_TABLE_OK
                                      (le32 (to_int 1)))].
Proof.
  intros s.
  apply (@update_answer machine unit s update_ok 1%Z tt).
  - split; apply Nat.leb_le; reflexivity.
  - reflexivity.
  - reflexivity.
  - reflexivity.
  - reflexivity.
Defined.

(** A CHECK for the key the backend knows. *)
Lemma check_answer_witness :
  let tag := le32 1 in
  let body := bytes_of "user@example.com" in
  let s := receive (Frame PROC_TABLE_CHECK (tag ++ body ++ [x00])) backed in
  exists key s',
    strz (body ++ [x00]) = Some key /\
    @table_msg_dispatch machine unit s = Ok tt s' /\
    queued s s'
      [Frame PROC_TABLE_OK
         (le32 (to_int (fst (check_one (load_int LittleEndian tag) key
                               (backend s)))))] /\
    backend s' = snd (check_one (load_int LittleEndian tag) key (backend s)).
Proof.
  intros tag body s.
  apply (@check_answer machine unit
           (Frame PROC_TABLE_CHECK (tag ++ body ++ [x00])) s tag body
           check_one).
  - split; apply Nat.leb_le; reflexivity.
  - reflexivity.
  - reflexivity.
  - reflexivity.
  - split; [reflexivity|]. split; [reflexivity|]. split; reflexivity.
  - reflexivity.
  - reflexivity.
Defined.

(** Registering nothing and then [check_one]: [check_one] answers. *)
Lemma last_registration_answers_witness :
  let tag := le32 1 in
  let body := bytes_of "user@example.com" in
  let s := receive (Frame PROC_TABLE_CHECK (tag ++ body ++ [x00])) start in
  exists key s',
    strz (body ++ [x00]) = Some key /\
    bind (table_api_on_check None)
      (fun _ => bind (table_api_on_check (Some check_one))
                  (fun _ => @table_msg_dispatch machine unit)) s =
      Ok tt s' /\
    queued s s'
      [Frame PROC_TABLE_OK
         (le32 (to_int (fst (check_one (load_int LittleEndian tag) key
                               (backend s)))))].
Proof.
  intros tag body s.
  apply (@last_registration_answers machine unit
           (Frame PROC_TABLE_CHECK (tag ++ body ++ [x00])) s tag body
           None check_one).
  - split; apply Nat.leb_le; reflexivity.
  - reflexivity.
  - reflexivity.
  - reflexivity.
  - split; [reflexivity|]. split; [reflexivity|]. split; reflexivity.
  - reflexivity.
Defined.

(** A LOOKUP that finds its key. *)
Lemma lookup_answer_witness :
  let tag := le32 0 in
  let body := bytes_of "gw" in
  let s := receive (Frame PROC_TABLE_LOOKUP (tag ++ body ++ [x00])) backed in
  let s' := final (@table_msg_dispatch machine unit s) in
  backend s' = tt /\
  ((to_int 1 = 1%Z /\
    exists v, strz (addr ++ [x00]) = Some v /\
              queued s s' [Frame PROC_TABLE_OK (le32 1 ++ v ++ [x00])]) \/
   (to_int 1 <> 1%Z /\
    queued s s' [Frame PROC_TABLE_OK (le32 (to_int 1))])).
Proof.
  intros tag body s s'.
  apply (@lookup_answer machine unit
           (Frame PROC_TABLE_LOOKUP (tag ++ body ++ [x00])) s s' tag body
           lookup_one body 1%Z (addr ++ [x00]) tt).
  - reflexivity.
  - reflexivity.
  - reflexivity.
  - split; [reflexivity|]. split; [reflexivity|]. split; reflexivity.
  - reflexivity.
  - reflexivity.
  - reflexivity.
  - reflexivity.
  - vm_compute. reflexivity.
Defined.

(** A FETCH from a backend that has a value. *)
Lemma fetch_answer_witness :
  let f := Frame PROC_TABLE_FETCH (le32 0) in
  let s := receive f backed in
  let s' := final (@table_msg_dispatch machine unit s) in
  length (f_payload f) = 4 /\
  backend s' = tt /\
  ((to_int 1 = 1%Z /\
    exists v, strz (addr ++ [x00]) = Some v /\
              queued s s' [Frame PROC_TABLE_OK (le32 1 ++ v ++ [x00])]) \/
   (to_int 1 <> 1%Z /\
    queued s s' [Frame PROC_TABLE_OK (le32 (to_int 1))])).
Proof.
  intros f s s'.
  apply (@fetch_answer machine unit f s s' fetch_one 1%Z (addr ++ [x00]) tt).
  - reflexivity.
  - split; [reflexivity|]. split; [reflexivity|]. split; reflexivity.
  - reflexivity.
  - reflexivity.
  - reflexivity.
  - vm_compute. reflexivity.
Defined.

(** The key "gw" under tag 7 reaches the lookup handler, which knows
    "gw" alone: the reply starts with the four bytes of 1. *)
Lemma key_arrives_intact_witness :
  let key := bytes_of "gw" in
  let f := Frame PROC_TABLE_LOOKUP (le32 7 ++ key ++ [x00]) in
  let s := receive f backed in
  let s' := final (@table_msg_dispatch machine unit s) in
  (exists evs,
     trace s' =
       trace s ++ EvDispatch (f_type f)
               :: EvInvoke (key_call (f_type f) 7 key) :: evs /\
     Forall is_queue evs) /\
  exists tail, queued s s' [Frame PROC_TABLE_OK (le32 1 ++ tail)].
Proof.
  intros key f s s'.
  assert (Hk : ~ In x00 key).
  { simpl. intros H.
    repeat (destruct H as [H|H]; [discriminate H|]). exact H. }
  assert (D : dispatching f s).
  { split; [reflexivity|]. split; [reflexivity|]. split; reflexivity. }
  assert (Hreg : registered (f_type f) s) by (simpl; discriminate).
  assert (Ht : (- 2 ^ 31 <= 7 < 2 ^ 31)%Z) by lia.
  assert (R : @table_msg_dispatch machine unit s = Ok tt s')
    by (vm_compute; reflexivity).
  destruct (@key_arrives_intact machine unit f s 7%Z key
              (or_intror eq_refl) eq_refl Ht Hk D Hreg)
    as (T & _ & K).
  split; [exact T|].
  destruct (K lookup_one eq_refl eq_refl) as (_ & Hr).
  destruct (Hr eq_refl s' R) as (tail & Q).
  exists tail. exact Q.
Defined.

(** A CHECK of three bytes. *)
Lemma short_key_request_is_fatal_witness :
  let f := Frame PROC_TABLE_CHECK (bytes_of "gw" ++ [x00]) in
  let s := receive f backed in
  exists s',
    @table_msg_dispatch machine unit s =
      Abort (Fatalx "table-proc: exiting") s' /\
    log s' = log s ++ ["warn: table-proc: bad msg len"%string] /\
    trace s' = trace s ++ [EvDispatch (f_type f)] /\
    backend s' = backend s /\
    outgoing s' = outgoing s.
Proof.
  intros f s.
  apply (@short_key_request_is_fatal machine unit f s).
  - left. reflexivity.
  - split; [reflexivity|]. split; [reflexivity|]. split; reflexivity.
  - simpl. lia.
Defined.

(** A CLOSE that carries four bytes. *)
Lemma close_ignores_payload_witness :
  let s := receive (Frame PROC_TABLE_CLOSE (le32 7)) start in
  exists s',
    @table_msg_dispatch machine unit s = Ok tt s' /\
    quit s' = 1%Z /\
    cursor s' = cursor s /\
    outgoing s' = outgoing s /\
    backend s' = backend s /\
    trace s' = trace s ++ [EvDispatch PROC_TABLE_CLOSE].
Proof.
  intros s.
  apply (@close_ignores_payload machine unit s).
  reflexivity.
Defined.

(** The replies of a whole session. *)
Lemma replies_are_accounted_for_witness :
  let s := set_fd_in two_reads backed in
  exists evs,
    trace (final (outcome s)) = trace s ++ evs /\
    fd_out (final (outcome s)) ++ w (ibuf (final (outcome s))) =
      fd_out s ++ replies_of evs.
Proof.
  intros s.
  apply (@replies_are_accounted_for machine unit s (outcome s)).
  vm_compute. reflexivity.
Defined.

(** A session ended by the peer, on a channel whose one write goes
    through: the reply to its one request is out. *)
Lemma normal_return_has_sent_all_witness :
  let s := set_fd_wr [WriteDone] (set_fd_in hang_up backed) in
  let s' := final (outcome s) in
  w (ibuf s') = [] /\
  exists evs,
    trace s' = trace s ++ evs /\ fd_out s' = fd_out s ++ replies_of evs.
Proof.
  intros s s'.
  apply (@normal_return_has_sent_all machine unit s s').
  - reflexivity.
  - constructor; [reflexivity|constructor].
  - vm_compute. reflexivity.
Defined.

(** The session ended by the peer leaves the loop with a warning. *)
Lemma why_the_loop_ends_witness :
  let s := set_fd_in hang_up backed in
  let s' := final (outcome s) in
  quit s' <> 0%Z \/
  exists msg l, In msg loop_exit_warnings /\ log s' = l ++ [msg].
Proof.
  intros s s'.
  apply (@why_the_loop_ends machine unit s s').
  vm_compute. reflexivity.
Defined.

(** An OPEN with the wrong version is not answered. *)
Lemma failed_request_gets_no_reply_witness :
  let s := receive (Frame PROC_TABLE_OPEN (le32 2)) start in
  let s' := final (@table_msg_dispatch machine unit s) in
  outgoing s' = outgoing s.
Proof.
  intros s s'.
  apply (@failed_request_gets_no_reply machine unit s
           (Fatalx "table-api: terminating") s').
  vm_compute. reflexivity.
Defined.

(** *** Whole runs *)

(** The peer hangs up after a FETCH: the value went out, the warning
    is in the log, and the call returns 1. *)
Example hang_up_scenario :
  exists s',
    @table_api_dispatch machine unit (set_fd_in hang_up backed) =
      Some (Ok 1%Z s') /\
    fd_out s' = [Frame PROC_TABLE_OK (le32 1 ++ addr ++ [x00])] /\
    log s' = ["warn: table-api: pipe closed"%string] /\
    quit s' = 0%Z.
Proof.
  eexists. split; [vm_compute; reflexivity|].
  split; [vm_compute; reflexivity|].
  split; vm_compute; reflexivity.
Qed.

(** A type that is no enumerator: the warning ends in its number as
    [%i] prints it, so the largest 32-bit number reads -1. *)
Example bad_message_scenario :
  let s := receive (Frame (PROC_OTHER 4294967295) []) start in
  log (final (@table_msg_dispatch machine unit s)) =
  ["warn: table-api: bad message -1"%string].
Proof. vm_compute. reflexivity. Qed.

(** The same session on a channel whose first write fails at once:
    the loop does not look at the result of the flush, goes on, and
    returns 1 with the reply still in the write queue. *)
Example failed_flush_scenario :
  exists s',
    @table_api_dispatch machine unit
      (set_fd_wr [WriteFails 0] (set_fd_in hang_up backed)) =
      Some (Ok 1%Z s') /\
    fd_out s' = [] /\
    w (ibuf s') = [Frame PROC_TABLE_OK (le32 1 ++ addr ++ [x00])] /\
    log s' = ["warn: table-api: pipe closed"%string].
Proof.
  eexists. split; [vm_compute; reflexivity|].
  split; [vm_compute; reflexivity|].
  split; vm_compute; reflexivity.
Qed.

End MoreRuns.
